(** * gym-locm rules engine: a shallow embedding of [gym_locm/engine.py]

    The engine is a Python program that mutates objects in place.  The
    embedding keeps the source's names and control flow and makes the
    effects explicit:

    - every Python [int] is a [Z];
    - an attribute that the source may leave unset (objects built by
      [empty_copy] skip [__init__]) is an [option]: [None] stands for
      "the attribute does not exist" and reading it raises
      [AttributeError];
    - a raised exception does not roll back the writes performed before
      it, so every fallible operation returns the mutated state together
      with its outcome;
    - a card object held by the current game is named by the container
      slot that holds it ([CardRef]); during a battle every card object is
      held by exactly one slot, because [_prepare_for_battle] fills the
      decks with fresh copies and cards only ever move between containers. *)

From Stdlib Require Import ZArith Lia Ascii String Bool.
From Stdlib Require Import DecimalString.
From stdpp Require Import base decidable option list gmap strings.

Local Open Scope Z_scope.

(** ** Enumerations *)

Inductive Phase := DRAFT | BATTLE | ENDED.
Inductive PlayerOrder := FIRST | SECOND.
Inductive Lane := LEFT | RIGHT.
Inductive ActionType := PICK | SUMMON | ATTACK | USE | PASS.

(** The Python class of a card object ([type(card)]). *)
Inductive CardClass := Creature | GreenItem | RedItem | BlueItem.

(** Exceptions of [gym_locm.exceptions] and the built-in ones the engine can
    raise. *)
Inductive exn :=
| EmptyDeckError | FullHandError | NotEnoughManaError | MalformedActionError
| FullLaneError | InvalidCardError | WardShieldError | GameIsEndedError
| AttributeError | ValueError | IndexError.

#[global] Instance Phase_eq_dec : EqDecision Phase.
Proof. solve_decision. Defined.
#[global] Instance PlayerOrder_eq_dec : EqDecision PlayerOrder.
Proof. solve_decision. Defined.
#[global] Instance Lane_eq_dec : EqDecision Lane.
Proof. solve_decision. Defined.
#[global] Instance ActionType_eq_dec : EqDecision ActionType.
Proof. solve_decision. Defined.
#[global] Instance CardClass_eq_dec : EqDecision CardClass.
Proof. solve_decision. Defined.
#[global] Instance exn_eq_dec : EqDecision exn.
Proof. solve_decision. Defined.

(** [PlayerOrder.opposing]: [(self + 1) % 2]. *)
Definition opposing (p : PlayerOrder) : PlayerOrder :=
  match p with FIRST => SECOND | SECOND => FIRST end.

(** [Lane] is an [IntEnum]: [Lane.LEFT == 0], [Lane.RIGHT == 1]. *)
Definition Lane_value (l : Lane) : Z :=
  match l with LEFT => 0 | RIGHT => 1 end.

(** [Lane(target)]: raises [ValueError] outside of 0 and 1. *)
Definition Lane_of_int (z : Z) : option Lane :=
  if decide (z = 0) then Some LEFT
  else if decide (z = 1) then Some RIGHT else None.

(** ** Cards *)

(** One record for [Card] and its subclasses.  [is_dead], [can_attack] and
    [has_attacked_this_turn] exist on [Creature] objects only; the engine
    reads and writes them behind an [isinstance(_, Creature)] test or on
    lane members, which are creatures. *)
Record Card := mkCard {
  card_id : Z;
  instance_id : option Z;
  name : string;
  class : CardClass;
  card_type : string;
  cost : Z;
  attack : Z;
  defense : Z;
  keywords : gset ascii;
  player_hp : Z;
  enemy_hp : Z;
  card_draw : Z;
  text : string;
  is_dead : bool;
  can_attack : bool;
  has_attacked_this_turn : bool
}.

Definition set_instance_id (v : option Z) (c : Card) : Card :=
  mkCard (card_id c) v (name c) (class c) (card_type c) (cost c) (attack c) (defense c)
    (keywords c) (player_hp c) (enemy_hp c) (card_draw c) (text c)
    (is_dead c) (can_attack c) (has_attacked_this_turn c).
Definition set_attack (v : Z) (c : Card) : Card :=
  mkCard (card_id c) (instance_id c) (name c) (class c) (card_type c) (cost c) v
    (defense c) (keywords c) (player_hp c) (enemy_hp c) (card_draw c)
    (text c) (is_dead c) (can_attack c) (has_attacked_this_turn c).
Definition set_defense (v : Z) (c : Card) : Card :=
  mkCard (card_id c) (instance_id c) (name c) (class c) (card_type c) (cost c)
    (attack c) v (keywords c) (player_hp c) (enemy_hp c) (card_draw c)
    (text c) (is_dead c) (can_attack c) (has_attacked_this_turn c).
Definition set_keywords (v : gset ascii) (c : Card) : Card :=
  mkCard (card_id c) (instance_id c) (name c) (class c) (card_type c) (cost c)
    (attack c) (defense c) v (player_hp c) (enemy_hp c) (card_draw c)
    (text c) (is_dead c) (can_attack c) (has_attacked_this_turn c).
Definition set_is_dead (v : bool) (c : Card) : Card :=
  mkCard (card_id c) (instance_id c) (name c) (class c) (card_type c) (cost c)
    (attack c) (defense c) (keywords c) (player_hp c) (enemy_hp c)
    (card_draw c) (text c) v (can_attack c) (has_attacked_this_turn c).
Definition set_can_attack (v : bool) (c : Card) : Card :=
  mkCard (card_id c) (instance_id c) (name c) (class c) (card_type c) (cost c)
    (attack c) (defense c) (keywords c) (player_hp c) (enemy_hp c)
    (card_draw c) (text c) (is_dead c) v (has_attacked_this_turn c).
Definition set_has_attacked_this_turn (v : bool) (c : Card) : Card :=
  mkCard (card_id c) (instance_id c) (name c) (class c) (card_type c) (cost c)
    (attack c) (defense c) (keywords c) (player_hp c) (enemy_hp c)
    (card_draw c) (text c) (is_dead c) (can_attack c) v.

(** [Card.has_ability]. *)
Definition has_ability (c : Card) (keyword : ascii) : bool :=
  bool_decide (keyword ∈ keywords c).

(** [Card.make_copy] together with the [Creature] override: every field is
    copied and the instance id is the argument. *)
Definition make_copy (c : Card) (new_instance_id : option Z) : Card :=
  set_instance_id new_instance_id c.

(** [Card.__eq__] where [other] is a card object. *)
Definition card_eq (self other : Card) : bool :=
  match instance_id self, instance_id other with
  | Some a, Some b => bool_decide (a = b)
  | _, _ => false
  end.

(** [Creature.remove_ability] and [Creature.add_ability]. *)
Definition remove_ability (c : Card) (ability : ascii) : Card :=
  set_keywords (keywords c ∖ {[ability]}) c.
Definition add_ability (c : Card) (ability : ascii) : Card :=
  set_keywords (keywords c ∪ {[ability]}) c.

(** [Creature.able_to_attack]. *)
Definition able_to_attack (c : Card) : bool :=
  negb (has_attacked_this_turn c) && (can_attack c || has_ability c "C").

(** [Creature.damage]: the creature after the call and either the returned
    amount or the raised exception. *)
Definition Creature_damage (c : Card) (amount : Z) (lethal : bool)
  : Card * (exn + Z) :=
  if decide (amount <= 0) then (c, inr 0)
  else if has_ability c "W" then (remove_ability c "W", inl WardShieldError)
  else
    let c1 := set_defense (defense c - amount) c in
    let c2 := if lethal || bool_decide (defense c1 <= 0)
              then set_is_dead true c1 else c1 in
    (c2, inr amount).

(** ** Actions *)

(** [Action]: [origin] and [target] are [None] or an [int] (an instance id,
    a draft slot or a lane number). *)
Record Action := mkAction {
  atype : ActionType;
  origin : option Z;
  target : option Z
}.

#[global] Instance Action_eq_dec : EqDecision Action.
Proof. solve_decision. Defined.

(** An action as it sits in a player's log: [_act_on_battle] stores the card
    object the origin resolved to in [action.resolved_origin] before it
    appends the action.  The log keeps the card as it was at that moment;
    [__str__] reads only its [id], which is never assigned after
    construction. *)
Record LoggedAction := mkLogged {
  logged : Action;
  resolved_origin : option Card
}.

(** ** Players *)

Record Player := mkPlayer {
  player_id : PlayerOrder;
  health : Z;
  base_mana : Z;
  bonus_mana : Z;
  mana : Z;
  next_rune : Z;
  bonus_draw : Z;
  last_drawn : option Z;
  deck : list Card;
  hand : list Card;
  lanes : list Card * list Card;
  actions : list LoggedAction
}.

Definition set_health (v : Z) (p : Player) : Player :=
  mkPlayer (player_id p) v (base_mana p) (bonus_mana p) (mana p) (next_rune p)
    (bonus_draw p) (last_drawn p) (deck p) (hand p) (lanes p) (actions p).
Definition set_base_mana (v : Z) (p : Player) : Player :=
  mkPlayer (player_id p) (health p) v (bonus_mana p) (mana p) (next_rune p)
    (bonus_draw p) (last_drawn p) (deck p) (hand p) (lanes p) (actions p).
Definition set_bonus_mana (v : Z) (p : Player) : Player :=
  mkPlayer (player_id p) (health p) (base_mana p) v (mana p) (next_rune p)
    (bonus_draw p) (last_drawn p) (deck p) (hand p) (lanes p) (actions p).
Definition set_mana (v : Z) (p : Player) : Player :=
  mkPlayer (player_id p) (health p) (base_mana p) (bonus_mana p) v
    (next_rune p) (bonus_draw p) (last_drawn p) (deck p) (hand p) (lanes p)
    (actions p).
Definition set_next_rune (v : Z) (p : Player) : Player :=
  mkPlayer (player_id p) (health p) (base_mana p) (bonus_mana p) (mana p) v
    (bonus_draw p) (last_drawn p) (deck p) (hand p) (lanes p) (actions p).
Definition set_bonus_draw (v : Z) (p : Player) : Player :=
  mkPlayer (player_id p) (health p) (base_mana p) (bonus_mana p) (mana p)
    (next_rune p) v (last_drawn p) (deck p) (hand p) (lanes p) (actions p).
Definition set_last_drawn (v : option Z) (p : Player) : Player :=
  mkPlayer (player_id p) (health p) (base_mana p) (bonus_mana p) (mana p)
    (next_rune p) (bonus_draw p) v (deck p) (hand p) (lanes p) (actions p).
Definition set_deck (v : list Card) (p : Player) : Player :=
  mkPlayer (player_id p) (health p) (base_mana p) (bonus_mana p) (mana p)
    (next_rune p) (bonus_draw p) (last_drawn p) v (hand p) (lanes p)
    (actions p).
Definition set_hand (v : list Card) (p : Player) : Player :=
  mkPlayer (player_id p) (health p) (base_mana p) (bonus_mana p) (mana p)
    (next_rune p) (bonus_draw p) (last_drawn p) (deck p) v (lanes p)
    (actions p).
Definition set_lanes (v : list Card * list Card) (p : Player) : Player :=
  mkPlayer (player_id p) (health p) (base_mana p) (bonus_mana p) (mana p)
    (next_rune p) (bonus_draw p) (last_drawn p) (deck p) (hand p) v
    (actions p).
Definition set_actions (v : list LoggedAction) (p : Player) : Player :=
  mkPlayer (player_id p) (health p) (base_mana p) (bonus_mana p) (mana p)
    (next_rune p) (bonus_draw p) (last_drawn p) (deck p) (hand p) (lanes p) v.

(** [player.lanes[lane]] and its assignment. *)
Definition lane_of (p : Player) (l : Lane) : list Card :=
  match l with LEFT => fst (lanes p) | RIGHT => snd (lanes p) end.
Definition set_lane (l : Lane) (v : list Card) (p : Player) : Player :=
  match l with
  | LEFT => set_lanes (v, snd (lanes p)) p
  | RIGHT => set_lanes (fst (lanes p), v) p
  end.

(** [Player.__init__]. *)
Definition Player_init (player_id : PlayerOrder) : Player :=
  mkPlayer player_id 30 0 0 0 25 0 (Some 0) [] [] ([], []) [].

(** [Player.draw].  The loop body runs [amount] times ([range(amount)] is
    empty for a non-positive amount); the cards drawn before an exception
    stay in the hand. *)
Fixpoint draw_loop (n : nat) (p : Player) : Player * option exn :=
  match n with
  | O => (p, None)
  | S n' =>
    match last (deck p) with
    | None => (p, Some EmptyDeckError)
    | Some c =>
      if decide (8 <= length (hand p))%nat then (p, Some FullHandError)
      else draw_loop n' (set_hand (hand p ++ [c]) (set_deck (removelast (deck p)) p))
    end
  end.

Definition draw (p : Player) (amount : Z) : Player * option exn :=
  draw_loop (Z.to_nat amount) p.

(** [Player.damage].  The [while] loop is unrolled with a counter; each
    iteration lowers a positive [next_rune] by 5, so [next_rune] iterations
    always reach the exit test (lemma [rune_loop_exits]). *)
Definition rune_test (p : Player) : bool :=
  bool_decide (health p <= next_rune p) && bool_decide (next_rune p > 0).

Fixpoint rune_loop (fuel : nat) (p : Player) : Player :=
  match fuel with
  | O => p
  | S fuel' =>
    if rune_test p
    then rune_loop fuel'
           (set_bonus_draw (bonus_draw p + 1) (set_next_rune (next_rune p - 5) p))
    else p
  end.

Definition Player_damage (p : Player) (amount : Z) : Player * Z :=
  let p1 := set_health (health p - amount) p in
  (rune_loop (Z.to_nat (next_rune p1)) p1, amount).

(** [Player.clone]: [empty_copy] builds the object without running
    [__init__], then the listed attributes are assigned; [last_drawn] is not
    among them.  The action list is copied shallowly. *)
Definition Player_clone (p : Player) : Player :=
  mkPlayer (player_id p) (health p) (base_mana p) (bonus_mana p) (mana p)
    (next_rune p) (bonus_draw p) None
    (map (fun card => make_copy card (instance_id card)) (deck p))
    (map (fun card => make_copy card (instance_id card)) (hand p))
    (map (fun card => make_copy card (instance_id card)) (fst (lanes p)),
     map (fun card => make_copy card (instance_id card)) (snd (lanes p)))
    (actions p).

(** ** Game state *)

(** The state of numpy's [RandomState] as [get_state] exposes it: the key
    words of the generator and its position. *)
Record RandomState := mkRandomState {
  rs_key : list Z;
  rs_pos : Z
}.

(** [State].  [instance_counter], [items] and [was_last_action_invalid] are
    attributes that [clone] never assigns, hence options.  The two memo
    attributes ([__available_actions], [__action_mask]) are left out: [act]
    resets both on every call, so a query returns what the computations
    [available_actions] and [action_mask] below return on the current
    state. *)
Record State := mkState {
  instance_counter : option Z;
  np_random : RandomState;
  items : option bool;
  phase : Phase;
  turn : Z;
  was_last_action_invalid : option bool;
  players : Player * Player;
  _current_player : PlayerOrder;
  winner : option PlayerOrder;
  _draft_cards : list (list Card)
}.

Definition set_instance_counter (v : option Z) (s : State) : State :=
  mkState v (np_random s) (items s) (phase s) (turn s)
    (was_last_action_invalid s) (players s) (_current_player s) (winner s)
    (_draft_cards s).
Definition set_np_random (v : RandomState) (s : State) : State :=
  mkState (instance_counter s) v (items s) (phase s) (turn s)
    (was_last_action_invalid s) (players s) (_current_player s) (winner s)
    (_draft_cards s).
Definition set_phase (v : Phase) (s : State) : State :=
  mkState (instance_counter s) (np_random s) (items s) v (turn s)
    (was_last_action_invalid s) (players s) (_current_player s) (winner s)
    (_draft_cards s).
Definition set_turn (v : Z) (s : State) : State :=
  mkState (instance_counter s) (np_random s) (items s) (phase s) v
    (was_last_action_invalid s) (players s) (_current_player s) (winner s)
    (_draft_cards s).
Definition set_was_last_action_invalid (v : option bool) (s : State) : State :=
  mkState (instance_counter s) (np_random s) (items s) (phase s) (turn s) v
    (players s) (_current_player s) (winner s) (_draft_cards s).
Definition set_players (v : Player * Player) (s : State) : State :=
  mkState (instance_counter s) (np_random s) (items s) (phase s) (turn s)
    (was_last_action_invalid s) v (_current_player s) (winner s)
    (_draft_cards s).
Definition set__current_player (v : PlayerOrder) (s : State) : State :=
  mkState (instance_counter s) (np_random s) (items s) (phase s) (turn s)
    (was_last_action_invalid s) (players s) v (winner s) (_draft_cards s).
Definition set_winner (v : option PlayerOrder) (s : State) : State :=
  mkState (instance_counter s) (np_random s) (items s) (phase s) (turn s)
    (was_last_action_invalid s) (players s) (_current_player s) v
    (_draft_cards s).

(** [self.players[order]] and the update of that player object. *)
Definition player_at (s : State) (o : PlayerOrder) : Player :=
  match o with FIRST => fst (players s) | SECOND => snd (players s) end.
Definition set_player_at (o : PlayerOrder) (p : Player) (s : State) : State :=
  match o with
  | FIRST => set_players (p, snd (players s)) s
  | SECOND => set_players (fst (players s), p) s
  end.

(** The properties [current_player] and [opposing_player]. *)
Definition current_player (s : State) : Player :=
  player_at s (_current_player s).
Definition opposing_player (s : State) : Player :=
  player_at s (opposing (_current_player s)).
Definition set_current (p : Player) (s : State) : State :=
  set_player_at (_current_player s) p s.
Definition set_opposing (p : Player) (s : State) : State :=
  set_player_at (opposing (_current_player s)) p s.

(** ** Card objects and the containers that hold them *)

(** The keys of [location_mapping] in [_find_card], in insertion order. *)
Inductive Location :=
| PLAYER_HAND | ENEMY_HAND
| PLAYER_LEFT_LANE | PLAYER_RIGHT_LANE
| ENEMY_LEFT_LANE | ENEMY_RIGHT_LANE.

#[global] Instance Location_eq_dec : EqDecision Location.
Proof. solve_decision. Defined.

Definition player_lane_loc (l : Lane) : Location :=
  match l with LEFT => PLAYER_LEFT_LANE | RIGHT => PLAYER_RIGHT_LANE end.
Definition enemy_lane_loc (l : Lane) : Location :=
  match l with LEFT => ENEMY_LEFT_LANE | RIGHT => ENEMY_RIGHT_LANE end.

Definition cards_at (s : State) (loc : Location) : list Card :=
  match loc with
  | PLAYER_HAND => hand (current_player s)
  | ENEMY_HAND => hand (opposing_player s)
  | PLAYER_LEFT_LANE => lane_of (current_player s) LEFT
  | PLAYER_RIGHT_LANE => lane_of (current_player s) RIGHT
  | ENEMY_LEFT_LANE => lane_of (opposing_player s) LEFT
  | ENEMY_RIGHT_LANE => lane_of (opposing_player s) RIGHT
  end.

Definition set_cards_at (loc : Location) (v : list Card) (s : State) : State :=
  match loc with
  | PLAYER_HAND => set_current (set_hand v (current_player s)) s
  | ENEMY_HAND => set_opposing (set_hand v (opposing_player s)) s
  | PLAYER_LEFT_LANE => set_current (set_lane LEFT v (current_player s)) s
  | PLAYER_RIGHT_LANE => set_current (set_lane RIGHT v (current_player s)) s
  | ENEMY_LEFT_LANE => set_opposing (set_lane LEFT v (opposing_player s)) s
  | ENEMY_RIGHT_LANE => set_opposing (set_lane RIGHT v (opposing_player s)) s
  end.

(** A card object: the container that holds it and its position there. *)
Definition CardRef : Type := Location * nat.

Definition deref (s : State) (r : CardRef) : option Card :=
  cards_at s (fst r) !! snd r.

(** An in-place write to the attributes of the object [r]. *)
Definition modify (r : CardRef) (f : Card -> Card) (s : State) : State :=
  set_cards_at (fst r) (alter f (snd r) (cards_at s (fst r))) s.

(** The position of object [r] inside the list held at [loc], if it is
    there. *)
Definition index_in (loc : Location) (r : CardRef) : option nat :=
  if decide (fst r = loc) then Some (snd r) else None.

(** Python's [e is x or e == x] for the element [e] at position [j] of a
    card list; [self] is the position of [x] itself when the list holds
    it. *)
Definition py_same (self : option nat) (x : Card) (j : nat) (e : Card) : bool :=
  bool_decide (self = Some j) || card_eq e x.

(** The position of the first element that is [x] or equals [x], scanning
    from position [j]. *)
Fixpoint py_index_from (j : nat) (self : option nat) (x : Card)
    (cards : list Card) : option nat :=
  match cards with
  | [] => None
  | e :: rest =>
    if py_same self x j e then Some j else py_index_from (S j) self x rest
  end.

(** [cards.index(x)], the position [cards.remove(x)] deletes; [None] when
    Python raises [ValueError]. *)
Definition py_index (self : option nat) (x : Card) (cards : list Card)
  : option nat :=
  py_index_from 0 self x cards.

(** [x in cards]. *)
Definition py_in (self : option nat) (x : Card) (cards : list Card) : bool :=
  bool_decide (is_Some (py_index self x cards)).

(** [_find_card]: the first card with the instance id, over the containers
    in the order of [location_mapping]. *)
Definition find_in (s : State) (loc : Location) (iid : Z) : option CardRef :=
  (fun r => (loc, fst r)) <$>
    list_find (fun c => instance_id c = Some iid) (cards_at s loc).

Fixpoint find_first (s : State) (iid : Z) (locs : list Location)
  : option CardRef :=
  match locs with
  | [] => None
  | loc :: rest =>
    match find_in s loc iid with
    | Some r => Some r
    | None => find_first s iid rest
    end
  end.

Definition location_mapping : list Location :=
  [PLAYER_HAND; ENEMY_HAND; PLAYER_LEFT_LANE; PLAYER_RIGHT_LANE;
   ENEMY_LEFT_LANE; ENEMY_RIGHT_LANE].

Definition _find_card (s : State) (iid : Z) : exn + CardRef :=
  match find_first s iid location_mapping with
  | Some r => inr r
  | None => inl InvalidCardError
  end.

(** ** A state-and-exception monad for the battle actions

    A computation takes the game state and returns the state it leaves
    behind together with its result or the exception it raised.  Writes made
    before a [raise] are kept. *)
Definition M (A : Type) : Type := State -> State * (exn + A).

Definition ret {A} (a : A) : M A := fun s => (s, inr a).
Definition raise {A} (e : exn) : M A := fun s => (s, inl e).
Definition bind {A B} (m : M A) (k : A -> M B) : M B :=
  fun s =>
    match m s with
    | (s', inr a) => k a s'
    | (s', inl e) => (s', inl e)
    end.

#[global] Instance M_ret : MRet M := fun A => @ret A.
#[global] Instance M_bind : MBind M := fun A B k m => bind m k.

(** Reading the state, writing it, and reading an object's attributes. *)
Definition gets {A} (f : State -> A) : M A := fun s => (s, inr (f s)).
Definition update (f : State -> State) : M unit := fun s => (f s, inr tt).
Definition when (b : bool) (m : M unit) : M unit := if b then m else ret tt.
Definition obj (r : CardRef) : M Card :=
  fun s =>
    match deref s r with
    | Some c => (s, inr c)
    | None => (s, inl AttributeError)
    end.
Definition update_current (f : Player -> Player) : M unit :=
  update (fun s => set_current (f (current_player s)) s).
Definition update_opposing (f : Player -> Player) : M unit :=
  update (fun s => set_opposing (f (opposing_player s)) s).

(** [opposing_player.damage(amount)]. *)
Definition damage_opposing (amount : Z) : M Z :=
  fun s =>
    let (p, dealt) := Player_damage (opposing_player s) amount in
    (set_opposing p s, inr dealt).

(** [creature.damage(amount, lethal)] inside
    [try: ... except WardShieldError]: the amount returned, or [None] when
    the shield was consumed. *)
Definition damage_creature (r : CardRef) (amount : Z) (lethal : bool)
  : M (option Z) :=
  c ← obj r;
  let (c', res) := Creature_damage c amount lethal in
  update (modify r (fun _ => c'));;
  match res with
  | inr dealt => ret (Some dealt)
  | inl _ => ret None
  end.

(** [current_player.hand.remove(origin)]: deletes the first hand card that
    is [origin] or equals it; [ValueError] becomes the
    [MalformedActionError] of the enclosing [try]. *)
Definition remove_from_hand (r : CardRef) (x : Card) : M nat :=
  hand_cards ← gets (fun s => hand (current_player s));
  match py_index (index_in PLAYER_HAND r) x hand_cards with
  | Some k =>
    update_current (fun p => set_hand (delete k (hand p)) p);;
    ret k
  | None => raise MalformedActionError
  end.

(** The slot of an object after the hand card at position [k] was deleted:
    later hand cards move down by one. *)
Definition after_removal (k : nat) (r : CardRef) : CardRef :=
  if decide (fst r = PLAYER_HAND) then
    if decide (k < snd r)%nat then (PLAYER_HAND, pred (snd r)) else r
  else r.

(** [target in player.lanes[lane]] for a card object [target]. *)
Definition in_lane (loc : Location) (r : CardRef) (t : Card) : M bool :=
  gets (fun s => py_in (index_in loc r) t (cards_at s loc)).

(** The effects shared by summoned creatures and used items. *)
Definition apply_card_effects (origin : Card) : M unit :=
  update_current (fun p => set_bonus_draw (bonus_draw p + card_draw origin) p);;
  update_current (fun p => set_health (health p + player_hp origin) p);;
  update_opposing (fun p => set_health (health p + enemy_hp origin) p).

(** The move of a creature from the hand to a lane in [_do_summon]:
    [hand.remove(origin)], [origin.can_attack = False] and
    [lanes[target].append(origin)].  In the states of a game the card
    removed from the hand is [origin] itself, and the removal raises when
    [origin] is a card outside the hand (lemma
    [found_in_hand_is_removed]). *)
Definition move_to_lane (r : CardRef) (o : Card) (lane : Lane) : M unit :=
  remove_from_hand r o;;
  update_current (fun p =>
    set_lane lane (lane_of p lane ++ [set_can_attack false o]) p).

(** [State._do_summon].  [origin] is the object [_find_card] returned, or
    [None]; [target] is a [Lane] or something that is not one ([None]). *)
Definition _do_summon (origin : option CardRef) (target : option Lane) : M unit :=
  match origin with
  | None => raise AttributeError
  | Some r =>
    o ← obj r;
    cur_mana ← gets (fun s => mana (current_player s));
    if decide (cost o > cur_mana) then raise NotEnoughManaError
    else if negb (bool_decide (class o = Creature)) then raise MalformedActionError
    else match target with
    | None => raise MalformedActionError
    | Some lane =>
      lane_len ← gets (fun s => length (lane_of (current_player s) lane));
      if decide (3 <= lane_len)%nat then raise FullLaneError
      else
        move_to_lane r o lane;;
        apply_card_effects o;;
        update_current (fun p => set_mana (mana p - cost o) p)
    end
  end.

(** The positions of the creatures with Guard in a lane. *)
Definition guard_indices (cards : list Card) : list nat :=
  fst <$> filter (fun jc => has_ability (snd jc) "G" = true) (imap pair cards).

(** [valid_targets] of [_do_attack]: positions in the opposing lane, [None]
    for the opposing player. *)
Definition valid_targets (o_lane : list Card) : list (option nat) :=
  match guard_indices o_lane with
  | [] => None :: (Some <$> seq 0 (length o_lane))
  | guards => Some <$> guards
  end.

(** [target in valid_targets]. *)
Definition target_is_valid (lane : Lane) (target : option (CardRef * Card))
    (o_lane : list Card) : bool :=
  match target with
  | None => bool_decide (None ∈ valid_targets o_lane)
  | Some (r, t) =>
    existsb
      (fun v =>
         match v with
         | None => false
         | Some j =>
           match o_lane !! j with
           | Some e => py_same (index_in (enemy_lane_loc lane) r) t j e
           | None => false
           end
         end)
      (valid_targets o_lane)
  end.

(** The second half of [_do_attack], after the checks on origin and target:
    the hit, the counterattack, Breakthrough, Drain and the mark on the
    attacker. *)
Definition combat (r : CardRef) (o : Card) (tgt : option (CardRef * Card))
  : M unit :=
  damage_dealt ←
    match tgt with
    | None => damage_opposing (attack o)
    | Some (tr, t) =>
      if negb (bool_decide (class t = Creature))
      then raise MalformedActionError
      else
        let target_defense := defense t in
        hit ← damage_creature tr (attack o) (has_ability o "L");
        t ← obj tr;
        back ← damage_creature r (attack t) (has_ability t "L");
        let damage_dealt :=
          match back with
          | None => 0
          | Some _ => default 0 hit
          end in
        let excess_damage := damage_dealt - target_defense in
        o ← obj r;
        when (has_ability o "B" && bool_decide (excess_damage > 0))
          (damage_opposing excess_damage;; ret tt);;
        ret damage_dealt
    end;
  o ← obj r;
  when (has_ability o "D")
    (update_current (fun p => set_health (health p + damage_dealt) p));;
  update (modify r (set_has_attacked_this_turn true)).

(** [State._do_attack]. *)
Definition _do_attack (origin target : option CardRef) : M unit :=
  match origin with
  | None => raise MalformedActionError
  | Some r =>
    o ← obj r;
    if negb (bool_decide (class o = Creature)) then raise MalformedActionError
    else
      in_left ← in_lane PLAYER_LEFT_LANE r o;
      in_right ← in_lane PLAYER_RIGHT_LANE r o;
      if negb (in_left || in_right) then raise MalformedActionError
      else
        let origin_lane := if in_left then LEFT else RIGHT in
        tgt ← match target with
              | None => ret None
              | Some tr => t ← obj tr; ret (Some (tr, t))
              end;
        o_lane ← gets (fun s => lane_of (opposing_player s) origin_lane);
        if negb (target_is_valid origin_lane tgt o_lane)
        then raise MalformedActionError
        else if negb (able_to_attack o) then raise MalformedActionError
        else combat r o tgt
  end.

(** The writes of the red and blue item branches to a creature target. *)
Definition weaken_target (tr : CardRef) (origin : Card) : M unit :=
  update (modify tr (fun t => set_attack (attack t + attack origin) t));;
  update (modify tr (fun t => set_keywords (keywords t ∖ keywords origin) t));;
  damage_creature tr (- defense origin) false;;
  update (modify tr (fun t =>
    if decide (defense t <= 0) then set_is_dead true t else t)).

(** [State._do_use].  The item leaves the hand before the colour of the item
    and the side of the target are examined.  [target] names its object in
    the state after that removal; it cannot be the removed object itself in
    a branch that writes to it, since a target is a creature and the origin
    of such a branch an item. *)
Definition _do_use (origin target : option CardRef) : M unit :=
  match origin with
  | None => raise AttributeError
  | Some r =>
    o ← obj r;
    cur_mana ← gets (fun s => mana (current_player s));
    if decide (cost o > cur_mana) then raise NotEnoughManaError
    else
      tgt ← match target with
            | None => ret None
            | Some tr => t ← obj tr; ret (Some (tr, t))
            end;
      if match tgt with
         | Some (_, t) => negb (bool_decide (class t = Creature))
         | None => false
         end
      then raise MalformedActionError
      else
        k ← remove_from_hand r o;
        let tgt := (fun rt => (after_removal k (fst rt), snd rt)) <$> tgt in
        match class o with
        | GreenItem =>
          match tgt with
          | None => raise MalformedActionError
          | Some (tr, t) =>
            in_left ← in_lane PLAYER_LEFT_LANE tr t;
            in_right ← in_lane PLAYER_RIGHT_LANE tr t;
            if negb (in_left || in_right) then raise MalformedActionError
            else
              update (modify tr (fun t => set_attack (attack t + attack o) t));;
              update (modify tr (fun t => set_defense (defense t + defense o) t));;
              update (modify tr (fun t => set_keywords (keywords t ∪ keywords o) t));;
              update (modify tr (fun t =>
                if decide (defense t <= 0) then set_is_dead true t else t));;
              apply_card_effects o
          end
        | RedItem =>
          match tgt with
          | None => raise MalformedActionError
          | Some (tr, t) =>
            in_left ← in_lane ENEMY_LEFT_LANE tr t;
            in_right ← in_lane ENEMY_RIGHT_LANE tr t;
            if negb (in_left || in_right) then raise MalformedActionError
            else weaken_target tr o;; apply_card_effects o
          end
        | BlueItem =>
          match tgt with
          | Some (tr, t) =>
            in_left ← in_lane ENEMY_LEFT_LANE tr t;
            in_right ← in_lane ENEMY_RIGHT_LANE tr t;
            if negb (in_left || in_right) then raise MalformedActionError
            else weaken_target tr o;; apply_card_effects o
          | None =>
            damage_opposing (- defense o);;
            apply_card_effects o
          end
        | Creature => raise MalformedActionError
        end;;
        update_current (fun p => set_mana (mana p - cost o) p)
  end.

(** ** Battle dispatch *)

(** [for creature in lane: if creature.is_dead: lane.remove(creature)].
    Python's list iterator keeps a position and stops when it passes the end
    of the list as it is then; a removal shifts the later creatures down, so
    the one after a removed creature is not visited.  The position grows at
    every step, so [length lane] steps suffice. *)
Fixpoint sweep_from (fuel idx : nat) (lane : list Card) : list Card :=
  match fuel with
  | O => lane
  | S fuel' =>
    match lane !! idx with
    | None => lane
    | Some creature =>
      if is_dead creature then
        sweep_from fuel' (S idx)
          (from_option (fun k => delete k lane) lane
             (py_index (Some idx) creature lane))
      else sweep_from fuel' (S idx) lane
    end
  end.

Definition sweep (lane : list Card) : list Card :=
  sweep_from (length lane) 0 lane.

Definition sweep_player (p : Player) : Player :=
  set_lanes (sweep (fst (lanes p)), sweep (snd (lanes p))) p.

Definition sweep_dead (s : State) : State :=
  set_players (sweep_player (fst (players s)), sweep_player (snd (players s))) s.

(** The health test that closes [_act_on_battle]. *)
Definition check_health (s : State) : State :=
  if decide (health (player_at s FIRST) <= 0)
  then set_winner (Some SECOND) (set_phase ENDED s)
  else if decide (health (player_at s SECOND) <= 0)
  then set_winner (Some FIRST) (set_phase ENDED s)
  else s.

(** [if isinstance(x, int): x = self._find_card(x)]. *)
Definition resolve (x : option Z) : M (option CardRef) :=
  match x with
  | None => ret None
  | Some iid =>
    fun s =>
      match _find_card s iid with
      | inr r => (s, inr (Some r))
      | inl e => (s, inl e)
      end
  end.

(** The [try] block of [_act_on_battle]. *)
Definition battle_try (action : Action) : M unit :=
  origin ← resolve (origin action);
  resolved ← gets (fun s => origin ≫= deref s);
  match atype action with
  | SUMMON =>
    target ← match target action with
             | None => ret None
             | Some t =>
               match Lane_of_int t with
               | Some lane => ret (Some lane)
               | None => raise ValueError
               end
             end;
    _do_summon origin target
  | ATTACK => target ← resolve (target action); _do_attack origin target
  | USE => target ← resolve (target action); _do_use origin target
  | PASS => ret tt
  | PICK => raise MalformedActionError
  end;;
  update_current (fun p =>
    set_actions (actions p ++ [mkLogged action resolved]) p).

(** The exceptions named by the [except] clause. *)
Definition is_action_failure (e : exn) : bool :=
  match e with
  | NotEnoughManaError | MalformedActionError | FullLaneError
  | InvalidCardError => true
  | _ => false
  end.

(** [State._act_on_battle]: the state afterwards and the exception that
    escapes, if any. *)
Definition _act_on_battle (action : Action) (s : State) : State * option exn :=
  let (s1, r) := battle_try action s in
  match r with
  | inl e =>
    if is_action_failure e
    then (check_health (sweep_dead (set_was_last_action_invalid (Some true) s1)),
          None)
    else (s1, Some e)
  | inr _ => (check_health (sweep_dead s1), None)
  end.

(** ** Turns *)

(** [State._next_turn]. *)
Definition _next_turn (s : State) : State :=
  match _current_player s with
  | FIRST => set__current_player SECOND s
  | SECOND =>
    let s := set__current_player FIRST s in
    let s := set_turn (turn s + 1) s in
    if bool_decide (turn s > 30) && bool_decide (phase s = DRAFT)
    then set_turn 1 (set_phase BATTLE s)
    else s
  end.

(** [seq[i]] for a Python list: negative positions count from the end. *)
Definition py_getitem {A} (l : list A) (i : Z) : option A :=
  if decide (0 <= i) then l !! Z.to_nat i
  else if decide (- Z.of_nat (length l) <= i)
       then l !! Z.to_nat (Z.of_nat (length l) + i)
       else None.

(** [State._new_draft_turn]: both hands become the reveal of the turn. *)
Definition _new_draft_turn (s : State) : State * option exn :=
  match py_getitem (_draft_cards s) (turn s - 1) with
  | None => (s, Some IndexError)
  | Some current_draft_choices =>
    (set_players (set_hand current_draft_choices (fst (players s)),
                  set_hand current_draft_choices (snd (players s))) s, None)
  end.

(** [State._act_on_draft]. *)
Definition _act_on_draft (action : Action) (s : State) : State * option exn :=
  let chosen_index := default 0 (origin action) in
  match py_getitem (hand (current_player s)) chosen_index with
  | None => (s, Some IndexError)
  | Some card =>
    (set_current (set_deck (deck (current_player s) ++ [card])
                    (current_player s)) s, None)
  end.

(** [State._new_battle_turn]. *)
Definition wake (creature : Card) : Card :=
  set_has_attacked_this_turn false (set_can_attack true creature).

(** The first half of [_new_battle_turn]: the creatures wake up and the
    mana is refilled. *)
Definition refresh (p : Player) : Player :=
  let p := set_lane LEFT (wake <$> lane_of p LEFT) p in
  let p := set_lane RIGHT (wake <$> lane_of p RIGHT) p in
  let p := if bool_decide (base_mana p > 0) && bool_decide (mana p = 0)
           then set_bonus_mana 0 p else p in
  let p := if decide (base_mana p < 12)
           then set_base_mana (base_mana p + 1) p else p in
  set_mana (base_mana p + bonus_mana p) p.

(** The [try] statement of [_new_battle_turn]: a full hand is ignored, an
    empty deck burns. *)
Definition draw_or_burn (p : Player) (amount_to_draw : Z) : Player :=
  match draw p amount_to_draw with
  | (p, Some EmptyDeckError) =>
    let deck_burn := health p - next_rune p in
    fst (Player_damage p deck_burn)
  | (p, _) => p
  end.

Definition _new_battle_turn (s : State) : State :=
  let p := refresh (current_player s) in
  let amount_in_hand := Z.of_nat (length (hand p)) in
  let amount_to_draw := 1 + bonus_draw p in
  let p := if decide (turn s > 50) then set_deck [] p else p in
  let p := draw_or_burn p amount_to_draw in
  let p := set_bonus_draw 0 p in
  let p := set_last_drawn (Some (Z.of_nat (length (hand p)) - amount_in_hand)) p in
  set_current p s.

(** ** Battle setup and [act] *)

(** [card1.make_copy(self._next_instance_id())] and
    [card2.make_copy(self._next_instance_id())] over [zip] of the two
    decks: the copies and the counter afterwards. *)
Fixpoint copy_decks (counter : Z) (pairs : list (Card * Card))
  : list Card * list Card * Z :=
  match pairs with
  | [] => ([], [], counter)
  | (card1, card2) :: rest =>
    let '(d1, d2, n) := copy_decks (counter + 2) rest in
    (make_copy card1 (Some (counter + 1)) :: d1,
     make_copy card2 (Some (counter + 2)) :: d2, n)
  end.

(** Sequencing of steps that may let an exception escape. *)
Definition and_then (r : State * option exn)
    (k : State -> State * option exn) : State * option exn :=
  match r with
  | (s, None) => k s
  | (s, Some e) => (s, Some e)
  end.

(** [player.draw(amount)] for the player [o] of the state. *)
Definition draw_player (o : PlayerOrder) (amount : Z) (s : State)
  : State * option exn :=
  let (p, e) := draw (player_at s o) amount in (set_player_at o p s, e).

Section Engine.

(** [self.np_random.shuffle]: numpy's generator is outside the repository;
    the engine is parametrised by it. *)
Variable shuffle : RandomState -> list Card -> list Card * RandomState.

(** [State._prepare_for_battle]. *)
Definition _prepare_for_battle (s : State) : State * option exn :=
  let clear p := set_lanes ([], []) (set_hand [] p) in
  let (deck1, rng) := shuffle (np_random s) (deck (fst (players s))) in
  let (deck2, rng) := shuffle rng (deck (snd (players s))) in
  let s := set_np_random rng
             (set_players (set_deck deck1 (clear (fst (players s))),
                           set_deck deck2 (clear (snd (players s)))) s) in
  let pairs := zip deck1 deck2 in
  match pairs, instance_counter s with
  | _ :: _, None => (s, Some AttributeError)
  | _, counter =>
    let '(d1, d2, n) := copy_decks (default 0 counter) pairs in
    let s := set_instance_counter (const n <$> counter) s in
    let s := set_players (set_deck (reverse d1) (fst (players s)),
                          set_deck (reverse d2) (snd (players s))) s in
    and_then (draw_player FIRST 4 s) (fun s =>
    let s := set_player_at FIRST (set_base_mana 0 (player_at s FIRST)) s in
    and_then (draw_player SECOND 4 s) (fun s =>
    let s := set_player_at SECOND (set_base_mana 0 (player_at s SECOND)) s in
    and_then (draw_player SECOND 1 s) (fun s =>
    (set_player_at SECOND (set_bonus_mana 1 (player_at s SECOND)) s, None))))
  end.

(** [State.act]. *)
Definition act (action : Action) (s : State) : State * option exn :=
  let s := set_was_last_action_invalid (Some false) s in
  match phase s with
  | DRAFT =>
    and_then (_act_on_draft action s) (fun s =>
    let s := _next_turn s in
    match phase s with
    | DRAFT => _new_draft_turn s
    | BATTLE =>
      and_then (_prepare_for_battle s) (fun s => (_new_battle_turn s, None))
    | ENDED => (s, None)
    end)
  | BATTLE =>
    and_then (_act_on_battle action s) (fun s =>
    if decide (atype action = PASS)
    then (_new_battle_turn (_next_turn s), None)
    else (s, None))
  | ENDED => (s, None)
  end.

(** Applying a sequence of actions, stopping at the first escaping
    exception. *)
Fixpoint act_all (actions : list Action) (s : State) : State * option exn :=
  match actions with
  | [] => (s, None)
  | a :: rest => and_then (act a s) (act_all rest)
  end.

(** The states of a game: any state of the draft phase, and every state
    that [act] returns from one of them without an exception. *)
Inductive reachable : State -> Prop :=
| reachable_draft (s : State) : phase s = DRAFT -> reachable s
| reachable_act (s : State) (action : Action) (s' : State) :
    reachable s -> act action s = (s', None) -> reachable s'.

(** Modelled from the spec: the property [_battle_is_finished] of the base
    environment class, which is not part of the sources at hand; the game
    is finished once it reached the Ended phase. *)
Definition _battle_is_finished (s : State) : bool :=
  bool_decide (phase s = ENDED).

(** [LOCMBattleEnv.step] for an action object, as far as the game state is
    concerned. *)
Definition step (action : Action) (s : State) : State * option exn :=
  if _battle_is_finished s then (s, Some GameIsEndedError)
  else act action s.

End Engine.

(** [State.clone]: [empty_copy] skips [__init__]; the attributes assigned
    afterwards are [np_random], [phase], [turn], [_current_player], the
    memo of legal actions, [winner], [_draft_cards] and [players]. *)
Definition clone (s : State) : State :=
  mkState None (np_random s) None (phase s) (turn s) None
    (Player_clone (fst (players s)), Player_clone (snd (players s)))
    (_current_player s) (winner s) (_draft_cards s).

(** ** Text serialisation ([State.__str__]) *)

(** [str(int)]. *)
Definition str_int (z : Z) : string := NilZero.string_of_int (Z.to_int z).

(** How an f-string prints [None] or an [int]. *)
Definition str_opt (z : option Z) : string :=
  match z with
  | None => "None"
  | Some z => str_int z
  end.

(** [ActionType.name]. *)
Definition ActionType_name (t : ActionType) : string :=
  match t with
  | PICK => "PICK" | SUMMON => "SUMMON" | ATTACK => "ATTACK"
  | USE => "USE" | PASS => "PASS"
  end.

Definition NL : string := String (ascii_of_nat 10) EmptyString.

Definition words (ws : list string) : string :=
  String.concat " " ws.

(** The two header lines: the player to move shows [last_drawn], the other
    one [1 + bonus_draw]. *)
Definition player_line (cp : Player) (draw : Z) : string :=
  words [str_int (health cp); str_int (base_mana cp + bonus_mana cp);
         str_int (Z.of_nat (length (deck cp))); str_int (next_rune cp);
         str_int draw] +:+ NL.

(** [for action in reversed(o.actions[:-1])] up to the first pass; the
    result is in the order of the log. *)
Fixpoint until_pass (rev_log : list LoggedAction) : list LoggedAction :=
  match rev_log with
  | [] => []
  | a :: rest =>
    if decide (atype (logged a) = PASS) then []
    else a :: until_pass rest
  end.

Definition last_actions (o : Player) : list LoggedAction :=
  reverse (until_pass (reverse (removelast (actions o)))).

Definition action_line (a : LoggedAction) : exn + string :=
  match resolved_origin a with
  | None => inl AttributeError
  | Some card =>
    inr (words [str_int (card_id card); ActionType_name (atype (logged a));
                str_opt (origin (logged a));
                str_int (default (-1) (target (logged a)))] +:+ NL)
  end.

Fixpoint action_lines (l : list LoggedAction) : exn + string :=
  match l with
  | [] => inr ""%string
  | a :: rest =>
    match action_line a, action_lines rest with
    | inr x, inr y => inr (x +:+ y)
    | inl e, _ => inl e
    | _, inl e => inl e
    end
  end.

(** [c.instance_id = -1 if c.instance_id is None else c.instance_id]. *)
Definition show_instance_id (c : Card) : Card :=
  set_instance_id (Some (default (-1) (instance_id c))) c.

(** The first loop over [cards] visits position [i] when the cards before it
    already went through [show_instance_id]. *)
Definition cards_when_visiting (i : nat) (cards : list Card) : list Card :=
  imap (fun j c => if decide (j < i)%nat then show_instance_id c else c) cards.

(** [c in cards[start : start + len]] for the object at position [i]. *)
Definition in_slice (cards : list Card) (i : nat) (c : Card) (start len : nat)
  : bool :=
  py_in (if decide (start <= i < start + len)%nat then Some (i - start)%nat
         else None)
        c (take len (drop start cards)).

(** [c.location] and [c.lane] of the card at position [i]; [None] when the
    loop leaves the attributes unset. *)
Definition place (nh n0 n1 m0 m1 : nat) (cards : list Card) (i : nat) (c : Card)
  : option (Z * Z) :=
  let cs := cards_when_visiting i cards in
  if in_slice cs i c 0 nh then Some (0, -1)
  else if in_slice cs i c nh (n0 + n1)
  then Some (1, if in_slice cs i c nh n0 then 0 else 1)
  else if in_slice cs i c (nh + n0 + n1) (m0 + m1)
  then Some (-1, if in_slice cs i c (nh + n0 + n1) m0 then 0 else 1)
  else None.

(** [c.cardType]. *)
Definition cardType (c : Card) : option Z :=
  if decide (card_type c = "creature"%string) then Some 0
  else if decide (card_type c = "itemGreen"%string) then Some 1
  else if decide (card_type c = "itemRed"%string) then Some 2
  else if decide (card_type c = "itemBlue"%string) then Some 3
  else None.

(** [c.abilities]. *)
Definition abilities (c : Card) : string :=
  string_of_list_ascii
    ((fun a : ascii => if has_ability c a then a else "-"%char) <$>
       list_ascii_of_string "BCDGLW").

Definition card_line (nh n0 n1 m0 m1 : nat) (cards : list Card) (i : nat)
    (c : Card) : exn + string :=
  match place nh n0 n1 m0 m1 cards i c, cardType c with
  | Some (location, lane), Some ct =>
    inr (words [str_int (card_id c); str_int (default (-1) (instance_id c));
                str_int location; str_int ct; str_int (cost c);
                str_int (attack c); str_int (defense c); abilities c;
                str_int (player_hp c); str_int (enemy_hp c);
                str_int (card_draw c); str_int lane] +:+ " " +:+ NL)
  | _, _ => inl AttributeError
  end.

Fixpoint concat_lines (l : list (exn + string)) : exn + string :=
  match l with
  | [] => inr ""%string
  | x :: rest =>
    match x, concat_lines rest with
    | inr a, inr b => inr (a +:+ b)
    | inl e, _ => inl e
    | _, inl e => inl e
    end
  end.

(** [State.__str__]: the text, or the exception it raises.  The attributes
    it writes on the card objects ([location], [lane], [cardType],
    [abilities], and [-1] for an absent instance id) serve the text. *)
Definition State_str (s : State) : exn + string :=
  let p := current_player s in
  let o := opposing_player s in
  match last_drawn p with
  | None => inl AttributeError
  | Some drawn =>
    let header := player_line p drawn +:+ player_line o (1 + bonus_draw o) in
    let op_hand := if decide (phase s = DRAFT) then 0
                   else Z.of_nat (length (hand o)) in
    let la := last_actions o in
    let cards := hand p ++ fst (lanes p) ++ snd (lanes p)
                 ++ fst (lanes o) ++ snd (lanes o) in
    match action_lines la,
          concat_lines
            (imap (card_line (length (hand p)) (length (fst (lanes p)))
                     (length (snd (lanes p))) (length (fst (lanes o)))
                     (length (snd (lanes o))) cards) cards)
    with
    | inr al, inr cl =>
      inr (header
           +:+ words [str_int op_hand; str_int (Z.of_nat (length la))] +:+ NL
           +:+ al
           +:+ str_int (Z.of_nat (length cards)) +:+ NL
           +:+ cl)
    | inl e, _ => inl e
    | _, inl e => inl e
    end
  end.

(** ** Legal actions *)

(** Modelled from the spec: [has_enough_mana] of [gym_locm.helpers], which is
    not part of the sources at hand; a card is affordable when its cost is at
    most the mana available. *)
Definition has_enough_mana (available_mana : Z) (card : Card) : bool :=
  bool_decide (cost card <= available_mana).

(** [for lane in Lane]. *)
Definition Lanes : list Lane := [LEFT; RIGHT].

Definition Summon (origin : option Z) (lane : Lane) : Action :=
  mkAction SUMMON origin (Some (Lane_value lane)).
Definition Use (origin target : option Z) : Action := mkAction USE origin target.
Definition Attack (origin target : option Z) : Action :=
  mkAction ATTACK origin target.
Definition Pass : Action := mkAction PASS None None.

(** What one affordable hand card adds to [summon] and to [use]. *)
Definition summon_actions (s : State) (card : Card) : list Action :=
  match class card with
  | Creature =>
    lane ← Lanes;
    if decide (length (lane_of (current_player s) lane) < 3)%nat
    then [Summon (instance_id card) lane] else []
  | _ => []
  end.

Definition use_on (card : Card) (creatures : list Card) : list Action :=
  (fun creature => Use (instance_id card) (instance_id creature)) <$> creatures.

Definition use_actions (s : State) (card : Card) : list Action :=
  match class card with
  | Creature => []
  | GreenItem => lane ← Lanes; use_on card (lane_of (current_player s) lane)
  | RedItem => lane ← Lanes; use_on card (lane_of (opposing_player s) lane)
  | BlueItem =>
    (lane ← Lanes; use_on card (lane_of (opposing_player s) lane))
    ++ [Use (instance_id card) None]
  end.

(** What one lane adds to [attack]. *)
Definition attack_actions (s : State) (lane : Lane) : list Action :=
  let o_lane := lane_of (opposing_player s) lane in
  let guard_creatures := filter (fun c => has_ability c "G" = true) o_lane in
  let valid_targets :=
    match guard_creatures with
    | [] => (instance_id <$> o_lane) ++ [None]
    | _ => instance_id <$> guard_creatures
    end in
  friendly_creature ←
    filter (fun c => able_to_attack c = true) (lane_of (current_player s) lane);
  Attack (instance_id friendly_creature) <$> valid_targets.

Definition battle_actions (s : State) : list Action :=
  let playable :=
    filter (fun c => has_enough_mana (mana (current_player s)) c = true)
      (hand (current_player s)) in
  (playable ≫= summon_actions s)
  ++ (Lanes ≫= attack_actions s)
  ++ (playable ≫= use_actions s).

(** The property [State.available_actions]. *)
Definition available_actions (s : State) : list Action :=
  match phase s with
  | DRAFT => [mkAction PICK (Some 0) None; mkAction PICK (Some 1) None;
              mkAction PICK (Some 2) None]
  | ENDED => []
  | BATTLE =>
    match battle_actions s with
    | [] => [Pass]
    | actions => actions
    end
  end.

(** ** Legality mask *)

(** [action_mask[k] = 1] for each [k] in turn; a position outside the list
    raises [IndexError]. *)
Fixpoint set_bits (ks : list nat) (mask : list Z) : exn + list Z :=
  match ks with
  | [] => inr mask
  | k :: rest =>
    if decide (k < length mask)%nat then set_bits rest (<[k := 1]> mask)
    else inl IndexError
  end.

(** The positions written by the four local functions of [action_mask] for
    the hand card at position [index], in the order of the writes. *)
Definition validate_creature (s : State) (index : nat) : list nat :=
  (if decide (length (lane_of (current_player s) LEFT) < 3)%nat
   then [1 + index * 2] else [])%nat
  ++ (if decide (length (lane_of (current_player s) RIGHT) < 3)%nat
      then [1 + index * 2 + 1] else [])%nat.

Definition validate_green_item (s : State) (index : nat) : list nat :=
  ((fun i => 17 + index * 13 + 1 + i)%nat
     <$> seq 0 (length (lane_of (current_player s) LEFT)))
  ++ ((fun i => 17 + index * 13 + 4 + i)%nat
        <$> seq 0 (length (lane_of (current_player s) RIGHT))).

Definition validate_red_item (s : State) (index : nat) : list nat :=
  ((fun i => 17 + index * 13 + 7 + i)%nat
     <$> seq 0 (length (lane_of (opposing_player s) LEFT)))
  ++ ((fun i => 17 + index * 13 + 10 + i)%nat
        <$> seq 0 (length (lane_of (opposing_player s) RIGHT))).

Definition validate_blue_item (s : State) (index : nat) : list nat :=
  validate_red_item s index ++ [17 + index * 13]%nat.

Definition check_playability (s : State) (c : CardClass) (index : nat)
  : list nat :=
  match c with
  | Creature => validate_creature s index
  | GreenItem => validate_green_item s index
  | RedItem => validate_red_item s index
  | BlueItem => validate_blue_item s index
  end.

(** [for i, card in enumerate(cp.hand)]. *)
Definition hand_bits (s : State) : list nat :=
  mjoin (imap (fun i card =>
                 if has_enough_mana (mana (current_player s)) card
                 then check_playability s (class card) i else [])
           (hand (current_player s))).

(** The body of the loop over the board for the creature at position [i] of
    lane [lane_id], [offset] being 0 or 3. *)
Definition creature_bits (s : State) (offset : nat) (lane_id : Lane)
    (i : nat) (creature : Card) : list nat :=
  let i := (i + offset)%nat in
  if able_to_attack creature then
    match guard_indices (lane_of (opposing_player s) lane_id) with
    | [] =>
      [121 + i * 4]%nat
      ++ ((fun j => 121 + i * 4 + 1 + j)%nat
            <$> seq 0 (length (lane_of (opposing_player s) lane_id)))
    | guards => (fun j => 121 + i * 4 + 1 + j)%nat <$> guards
    end
  else [].

Definition board_bits (s : State) : list nat :=
  mjoin ((fun ol : nat * Lane =>
            mjoin (imap (creature_bits s (fst ol) (snd ol))
                     (lane_of (current_player s) (snd ol))))
           <$> [(0%nat, LEFT); (3%nat, RIGHT)]).

(** The property [State.action_mask]. *)
Definition action_mask (s : State) : exn + list Z :=
  match phase s with
  | DRAFT => inr [1; 1; 1]
  | ENDED =>
    match items s with
    | None => inl AttributeError
    | Some with_items => inr (replicate (if with_items then 145 else 41) 0)
    end
  | BATTLE =>
    match set_bits (0%nat :: hand_bits s ++ board_bits s) (replicate 145 0) with
    | inl e => inl e
    | inr mask =>
      match items s with
      | None => inl AttributeError
      | Some true => inr mask
      | Some false => inr (take 17 mask ++ drop (length mask - 24) mask)
      end
    end
  end.

(** Modelled from the spec: the layout of the canonical action space (the
    environment base class that decodes action numbers is not part of the
    sources at hand).  Position 0 is Pass; 1..16 summon: 8 hand slots times 2
    lanes; 17..120 use an item: 8 hand slots times 13 sub-slots, sub-slot 0
    for no target, 1..3 the own left lane, 4..6 the own right lane, 7..9 the
    enemy left lane, 10..12 the enemy right lane; 121..144 attack: 6 board
    slots (0..2 the left lane, 3..5 the right lane) times 4 sub-slots,
    sub-slot 0 for no target and 1..3 for the enemy creatures of the same
    lane. *)
Inductive Slot :=
| SlotPass
| SlotSummon (h : nat) (lane : Lane)
| SlotUse (h sub : nat)
| SlotAttack (k sub : nat).

#[global] Instance Slot_eq_dec : EqDecision Slot.
Proof. solve_decision. Defined.

Definition index_of_slot (sl : Slot) : nat :=
  match sl with
  | SlotPass => 0
  | SlotSummon h lane => 1 + h * 2 + (match lane with LEFT => 0 | RIGHT => 1 end)
  | SlotUse h sub => 17 + h * 13 + sub
  | SlotAttack k sub => 121 + k * 4 + sub
  end%nat.

Definition slot_of_index (i : nat) : option Slot :=
  if decide (i = 0)%nat then Some SlotPass
  else if decide (i < 17)%nat then
    Some (SlotSummon ((i - 1) / 2)
            (if decide ((i - 1) mod 2 = 0)%nat then LEFT else RIGHT))
  else if decide (i < 121)%nat then
    Some (SlotUse ((i - 17) / 13) ((i - 17) mod 13))
  else if decide (i < 145)%nat then
    Some (SlotAttack ((i - 121) / 4) ((i - 121) mod 4))
  else None.

(** The creature in board slot [k] of a player, and the lane of the slot. *)
Definition lane_of_slot (k : nat) : Lane :=
  if decide (k < 3)%nat then LEFT else RIGHT.

Definition board_slot (p : Player) (k : nat) : option Card :=
  lane_of p (lane_of_slot k) !! (if decide (k < 3)%nat then k else k - 3)%nat.

(** The action a slot stands for in a state; [None] when the hand slot or
    the board slot it names is empty. *)
Definition slot_action (s : State) (sl : Slot) : option Action :=
  let cp := current_player s in
  let op := opposing_player s in
  match sl with
  | SlotPass => Some Pass
  | SlotSummon h lane =>
    card ← hand cp !! h; Some (Summon (instance_id card) lane)
  | SlotUse h sub =>
    card ← hand cp !! h;
    if decide (sub = 0)%nat then Some (Use (instance_id card) None)
    else
      t ← (if decide (sub < 7)%nat then board_slot cp (sub - 1)
           else board_slot op (sub - 7));
      Some (Use (instance_id card) (instance_id t))
  | SlotAttack k sub =>
    creature ← board_slot cp k;
    if decide (sub = 0)%nat then Some (Attack (instance_id creature) None)
    else
      t ← lane_of op (lane_of_slot k) !! (sub - 1)%nat;
      Some (Attack (instance_id creature) (instance_id t))
  end.

Definition canonical_full (s : State) (i : nat) : option Action :=
  slot_of_index i ≫= slot_action s.

(** With items disabled the mask keeps positions 0..16 and 121..144. *)
Definition full_index (with_items : bool) (i : nat) : nat :=
  if with_items then i
  else if decide (i < 17)%nat then i else (i + 104)%nat.

Definition mask_length (with_items : bool) : nat :=
  if with_items then 145%nat else 41%nat.

Definition canonical_action (s : State) (with_items : bool) (i : nat)
  : option Action :=
  if decide (i < mask_length with_items)%nat
  then canonical_full s (full_index with_items i)
  else None.

(** A lane holds a creature with Guard. *)
Definition has_guard (cards : list Card) : Prop :=
  exists g, g ∈ cards /\ has_ability g "G" = true.

(** The board position of the first creature of a lane of the player to
    move, and the mask position of its first attack bit. *)
Definition lane_offset (lane : Lane) : nat :=
  match lane with LEFT => 0%nat | RIGHT => 3%nat end.

Definition attack_base (with_items : bool) : nat :=
  if with_items then 121%nat else 17%nat.

(** ** States at rest during a battle

    What the engine maintains between two calls of [act] in the battle
    phase, as far as the legal actions depend on it: the hand holds at most
    8 cards and a lane at most 3 creatures, every card in the hand and on
    the board carries an instance id, the ids are pairwise different, and
    the lanes hold creatures. *)
Definition board (s : State) : list Card :=
  lane_of (current_player s) LEFT ++ lane_of (current_player s) RIGHT
  ++ lane_of (opposing_player s) LEFT ++ lane_of (opposing_player s) RIGHT.

Record battle_ready (s : State) : Prop := {
  ready_phase : phase s = BATTLE;
  ready_hand : (length (hand (current_player s)) <= 8)%nat;
  ready_lanes : forall lane,
    (length (lane_of (current_player s) lane) <= 3)%nat /\
    (length (lane_of (opposing_player s) lane) <= 3)%nat;
  ready_ids : Forall (fun c => is_Some (instance_id c))
                (hand (current_player s) ++ board s);
  ready_hand_ids : NoDup (instance_id <$> hand (current_player s));
  ready_board_ids : NoDup (instance_id <$> board s);
  ready_board : Forall (fun c => class c = Creature) (board s)
}.

(** * Sample states

    Concrete cards and states on which the theorems below are exercised. *)

Definition creature (iid cst atk dfn : Z) (kw : gset ascii) (ready : bool)
  : Card :=
  mkCard 1 (Some iid) "creature" Creature "creature" cst atk dfn kw 0 0 0 ""
    false ready false.

Definition green_item (iid cst atk dfn : Z) (kw : gset ascii) : Card :=
  mkCard 2 (Some iid) "green" GreenItem "itemGreen" cst atk dfn kw 0 0 0 ""
    false false false.

Definition blue_item (iid cst dfn : Z) : Card :=
  mkCard 3 (Some iid) "blue" BlueItem "itemBlue" cst 0 dfn ∅ 0 0 0 ""
    false false false.

(** A shuffle that leaves the list as it is. *)
Definition no_shuffle (r : RandomState) (l : list Card)
  : list Card * RandomState := (l, r).

Definition sample_rng : RandomState := mkRandomState [] 0.

(** The first player holds a creature, a green item and a blue item and owns
    a ready creature with Drain and Ward in the left lane; the second player
    has a plain creature and a Guard creature in the left lane. *)
Definition sample_first : Player :=
  mkPlayer FIRST 30 3 0 3 25 0 (Some 1) []
    [creature 1 2 2 2 ∅ false; green_item 2 1 1 1 {["W"%char]};
     blue_item 3 1 (-2)]
    ([creature 4 5 3 3 {["D"%char; "W"%char]} true], []) [].

Definition sample_second : Player :=
  mkPlayer SECOND 30 3 0 3 25 0 (Some 1) [] []
    ([creature 5 1 1 5 ∅ true; creature 6 1 1 5 {["G"%char]} true], []) [].

Definition sample_battle : State :=
  mkState (Some 10) sample_rng (Some true) BATTLE 3 (Some false)
    (sample_first, sample_second) FIRST None [].

(** The same position after the game has ended. *)
Definition sample_ended : State :=
  set_winner (Some FIRST) (set_phase ENDED sample_battle).

(** A player with an empty deck and a full hand. *)
Definition sample_decked_out : Player :=
  mkPlayer FIRST 12 5 0 0 10 0 (Some 1) []
    ((fun i => creature i 9 1 1 ∅ false) <$> [11; 12; 13; 14; 15; 16; 17; 18])
    ([], []) [].

Definition sample_burn : State :=
  mkState (Some 60) sample_rng (Some true) BATTLE 9 (Some false)
    (sample_decked_out, sample_second) FIRST None [].

(** A game from the last pick of the draft on.  The second player picks,
    the battle starts, the first player summons a creature to the left lane
    and passes, the second player summons a plain creature and a creature
    with Guard to the left lane and passes.  The first player is then to
    move with a creature that may attack, facing both. *)
Definition template (cid cst atk dfn : Z) (kw : gset ascii) : Card :=
  mkCard cid None "creature" Creature "creature" cst atk dfn kw 0 0 0 ""
    false false false.

Definition sample_reveal : list Card :=
  [template 1 1 2 2 ∅; template 2 1 1 4 {["G"%char]}; template 3 1 3 1 ∅].

Definition sample_drafter (o : PlayerOrder) (d : list Card) : Player :=
  mkPlayer o 30 0 0 0 25 0 (Some 0) d sample_reveal ([], []) [].

Definition sample_draft : State :=
  mkState (Some 0) sample_rng (Some true) DRAFT 30 (Some false)
    (sample_drafter FIRST (replicate 8 (template 1 1 2 2 ∅)),
     sample_drafter SECOND
       (replicate 4 (template 3 1 3 1 ∅)
        ++ replicate 3 (template 2 1 1 4 {["G"%char]})))
    SECOND None (replicate 30 sample_reveal).

Definition sample_opening : list Action :=
  [mkAction PICK (Some 1) None; Summon (Some 1) LEFT; Pass;
   Summon (Some 2) LEFT; Summon (Some 10) LEFT; Pass].

Definition sample_reached : State :=
  fst (act_all no_shuffle sample_opening sample_draft).

(** The creatures on the board of [sample_reached]. *)
Definition sample_attacker : Card :=
  mkCard 1 (Some 1) "creature" Creature "creature" 1 2 2 ∅ 0 0 0 ""
    false true false.

Definition sample_plain : Card :=
  mkCard 3 (Some 2) "creature" Creature "creature" 1 3 1 ∅ 0 0 0 ""
    false false false.

Definition sample_guard : Card :=
  mkCard 2 (Some 10) "creature" Creature "creature" 1 1 4 {["G"%char]} 0 0 0 ""
    false false false.

(** A creature with Ward that is about to be hit. *)
Definition sample_warded : Card := creature 7 2 2 1 {["W"%char]} true.

(** A player at 26 health who has not lost a rune yet. *)
Definition sample_healthy : Player :=
  mkPlayer FIRST 26 0 0 0 25 0 (Some 0) [] [] ([], []) [].

(** * Properties *)

(** The attribute writes unfold under [cbn] and [simpl]. *)
Arguments set_instance_id _ _ /.
Arguments set_attack _ _ /.
Arguments set_defense _ _ /.
Arguments set_keywords _ _ /.
Arguments set_is_dead _ _ /.
Arguments set_can_attack _ _ /.
Arguments set_has_attacked_this_turn _ _ /.
Arguments set_health _ _ /.
Arguments set_base_mana _ _ /.
Arguments set_bonus_mana _ _ /.
Arguments set_mana _ _ /.
Arguments set_next_rune _ _ /.
Arguments set_bonus_draw _ _ /.
Arguments set_last_drawn _ _ /.
Arguments set_deck _ _ /.
Arguments set_hand _ _ /.
Arguments set_lanes _ _ /.
Arguments set_actions _ _ /.
Arguments set_instance_counter _ _ /.
Arguments set_np_random _ _ /.
Arguments set_phase _ _ /.
Arguments set_turn _ _ /.
Arguments set_was_last_action_invalid _ _ /.
Arguments set_players _ _ /.
Arguments set__current_player _ _ /.
Arguments set_winner _ _ /.
Arguments Player_damage : simpl never.
Arguments refresh : simpl never.

(** ** Records and accessors *)

Lemma current_player_set_current (p : Player) (s : State) :
  current_player (set_current p s) = p.
Proof.
  unfold current_player, set_current.
  destruct s as [? ? ? ? ? ? [p1 p2] [] ? ?]; reflexivity.
Qed.

Lemma opposing_player_set_current (p : Player) (s : State) :
  opposing_player (set_current p s) = opposing_player s.
Proof.
  unfold opposing_player, set_current.
  destruct s as [? ? ? ? ? ? [p1 p2] [] ? ?]; reflexivity.
Qed.

Lemma current_player_set_opposing (p : Player) (s : State) :
  current_player (set_opposing p s) = current_player s.
Proof.
  unfold current_player, set_opposing.
  destruct s as [? ? ? ? ? ? [p1 p2] [] ? ?]; reflexivity.
Qed.

Lemma opposing_player_set_opposing (p : Player) (s : State) :
  opposing_player (set_opposing p s) = p.
Proof.
  unfold opposing_player, set_opposing.
  destruct s as [? ? ? ? ? ? [p1 p2] [] ? ?]; reflexivity.
Qed.

Lemma _current_player_set_player_at (o : PlayerOrder) (p : Player) (s : State) :
  _current_player (set_player_at o p s) = _current_player s.
Proof. destruct o; reflexivity. Qed.

Lemma set_deck_same (p : Player) : set_deck (deck p) p = p.
Proof. destruct p; reflexivity. Qed.

(** ** The rune loop *)

(** The loop only moves [next_rune] down in steps of 5, each paired with one
    bonus draw, and its last step was taken with the test true. *)
Lemma rune_loop_shape (fuel : nat) (p : Player) :
  exists k : Z,
    0 <= k /\
    (k = 0 \/ (health p <= next_rune p - 5 * (k - 1) /\
               next_rune p - 5 * (k - 1) > 0)) /\
    rune_loop fuel p =
      set_bonus_draw (bonus_draw p + k) (set_next_rune (next_rune p - 5 * k) p).
Proof.
  revert p. induction fuel as [|fuel IH]; intros p.
  - exists 0. repeat split; [lia|left; lia|]. destruct p; cbn. f_equal; lia.
  - cbn [rune_loop]. destruct (rune_test p) eqn:Htest.
    + destruct (IH (set_bonus_draw (bonus_draw p + 1)
                      (set_next_rune (next_rune p - 5) p)))
        as (k & Hk & Hlast & ->).
      unfold rune_test in Htest. apply andb_true_iff in Htest as [H1 H2].
      apply bool_decide_eq_true in H1, H2.
      exists (k + 1). repeat split; [lia| |destruct p; cbn; f_equal; lia].
      right. cbn in Hlast. destruct Hlast as [->|[H3 H4]]; lia.
    + exists 0. repeat split; [lia|left; lia|]. destruct p; cbn. f_equal; lia.
Qed.

(** The counter handed to the loop is large enough: the loop stops because
    its test fails. *)
Lemma rune_loop_exits (fuel : nat) (p : Player) :
  (Z.to_nat (next_rune p) <= fuel)%nat ->
  rune_test (rune_loop fuel p) = false.
Proof.
  revert p. induction fuel as [|fuel IH]; intros p Hfuel.
  - cbn. unfold rune_test. apply andb_false_iff. right.
    apply bool_decide_eq_false. lia.
  - cbn [rune_loop]. destruct (rune_test p) eqn:Htest; [|exact Htest].
    apply IH. unfold rune_test in Htest.
    apply andb_true_iff in Htest as [_ Hpos].
    apply bool_decide_eq_true in Hpos. cbn. lia.
Qed.

Lemma Player_damage_shape (p : Player) (amount : Z) :
  exists k : Z,
    0 <= k /\
    (k = 0 \/ (health p - amount <= next_rune p - 5 * (k - 1) /\
               next_rune p - 5 * (k - 1) > 0)) /\
    fst (Player_damage p amount) =
      set_bonus_draw (bonus_draw p + k)
        (set_next_rune (next_rune p - 5 * k)
           (set_health (health p - amount) p)).
Proof.
  unfold Player_damage. cbn [fst].
  destruct (rune_loop_shape (Z.to_nat (next_rune (set_health (health p - amount) p)))
              (set_health (health p - amount) p)) as (k & Hk & Hlast & ->).
  exists k. repeat split; [exact Hk|exact Hlast].
Qed.

Lemma Player_damage_next_rune (p : Player) (amount : Z) :
  next_rune (fst (Player_damage p amount)) <= next_rune p.
Proof.
  destruct (Player_damage_shape p amount) as (k & Hk & _ & ->). cbn. lia.
Qed.

(** ** Drawing *)

Lemma draw_empty_deck (p : Player) (amount : Z) :
  deck p = [] -> 1 <= amount -> draw p amount = (p, Some EmptyDeckError).
Proof.
  intros Hdeck Hamount. unfold draw.
  destruct (Z.to_nat amount) as [|n] eqn:Hn; [lia|].
  cbn [draw_loop]. rewrite Hdeck. reflexivity.
Qed.

Lemma refresh_deck (p : Player) : deck (refresh p) = deck p.
Proof.
  unfold refresh. cbn.
  repeat match goal with |- context [if ?b then _ else _] => destruct b end;
    reflexivity.
Qed.

Lemma refresh_bonus_draw (p : Player) : bonus_draw (refresh p) = bonus_draw p.
Proof.
  unfold refresh. cbn.
  repeat match goal with |- context [if ?b then _ else _] => destruct b end;
    reflexivity.
Qed.

Lemma refresh_health_rune (p : Player) :
  health (refresh p) = health p /\ next_rune (refresh p) = next_rune p.
Proof.
  unfold refresh. cbn.
  repeat match goal with |- context [if ?b then _ else _] => destruct b end;
    split; reflexivity.
Qed.

Lemma draw_or_burn_empty_deck (p : Player) (amount : Z) :
  deck p = [] -> 1 <= amount ->
  draw_or_burn p amount = fst (Player_damage p (health p - next_rune p)).
Proof.
  intros Hdeck Hamount. unfold draw_or_burn.
  rewrite (draw_empty_deck p amount Hdeck Hamount). reflexivity.
Qed.

Lemma Player_damage_hand (p : Player) (amount : Z) :
  hand (fst (Player_damage p amount)) = hand p.
Proof.
  destruct (Player_damage_shape p amount) as (k & _ & _ & ->). reflexivity.
Qed.

Lemma Player_damage_health (p : Player) (amount : Z) :
  health (fst (Player_damage p amount)) = health p - amount.
Proof.
  destruct (Player_damage_shape p amount) as (k & _ & _ & ->). reflexivity.
Qed.

(** ** Claims on single operations *)

(** C10: [Creature.damage] with a non-positive amount returns 0 and hands
    back the very same creature: its Ward shield, its defense and its
    [is_dead] flag are as before, whatever the [lethal] flag says. *)
Theorem Creature_damage_nonpositive (c : Card) (amount : Z) (lethal : bool) :
  amount <= 0 ->
  Creature_damage c amount lethal = (c, inr 0) /\
  keywords (fst (Creature_damage c amount lethal)) = keywords c /\
  defense (fst (Creature_damage c amount lethal)) = defense c /\
  is_dead (fst (Creature_damage c amount lethal)) = is_dead c.
Proof.
  intros Hamount.
  assert (Creature_damage c amount lethal = (c, inr 0)) as ->.
  { unfold Creature_damage. destruct (decide (amount <= 0)); [reflexivity|lia]. }
  repeat split.
Qed.

Lemma Creature_damage_nonpositive_witness :
  Creature_damage sample_warded (-3) true = (sample_warded, inr 0) /\
  keywords (fst (Creature_damage sample_warded (-3) true)) = keywords sample_warded /\
  defense (fst (Creature_damage sample_warded (-3) true)) = defense sample_warded /\
  is_dead (fst (Creature_damage sample_warded (-3) true)) = is_dead sample_warded.
Proof. apply (Creature_damage_nonpositive sample_warded (-3) true). lia. Defined.

(** C9: a call of [Player.draw] for at least one card on an empty deck
    raises [EmptyDeckError] whatever the size of the hand, and leaves the
    player as it was; hence at the start of a battle turn a player whose
    deck is empty takes the deck-out burn, also with a full hand: the
    health ends at the former rune threshold and no card is drawn. *)
Theorem draw_empty_deck_burns (s : State) (amount : Z) :
  deck (current_player s) = [] ->
  1 <= amount ->
  0 <= bonus_draw (current_player s) ->
  draw (current_player s) amount = (current_player s, Some EmptyDeckError) /\
  (let q := refresh (current_player s) in
   current_player (_new_battle_turn s) =
     set_last_drawn (Some 0)
       (set_bonus_draw 0 (fst (Player_damage q (health q - next_rune q))))) /\
  health (current_player (_new_battle_turn s)) = next_rune (current_player s) /\
  hand (current_player (_new_battle_turn s)) = hand (refresh (current_player s)).
Proof.
  intros Hdeck Hamount Hbonus.
  split; [apply draw_empty_deck; assumption|].
  assert (current_player (_new_battle_turn s) =
          set_last_drawn (Some 0)
            (set_bonus_draw 0
               (fst (Player_damage (refresh (current_player s))
                       (health (refresh (current_player s))
                        - next_rune (refresh (current_player s))))))) as Heq.
  { unfold _new_battle_turn. rewrite current_player_set_current.
    set (q := refresh (current_player s)).
    assert (deck q = []) as Hq by (unfold q; rewrite refresh_deck; exact Hdeck).
    assert ((if decide (turn s > 50) then set_deck [] q else q) = q) as ->.
    { destruct (decide (turn s > 50)); [|reflexivity].
      rewrite <- Hq. apply set_deck_same. }
    rewrite draw_or_burn_empty_deck;
      [|exact Hq|unfold q; rewrite refresh_bonus_draw; lia].
    cbn. rewrite Player_damage_hand.
    replace (Z.of_nat (length (hand q)) - Z.of_nat (length (hand q))) with 0 by lia.
    reflexivity. }
  split; [exact Heq|]. rewrite Heq. cbn.
  rewrite Player_damage_health, Player_damage_hand.
  destruct (refresh_health_rune (current_player s)) as [-> ->].
  split; [lia|reflexivity].
Qed.

Lemma draw_empty_deck_burns_witness :
  draw (current_player sample_burn) 1
    = (current_player sample_burn, Some EmptyDeckError) /\
  health (current_player (_new_battle_turn sample_burn)) = 10 /\
  length (hand (current_player (_new_battle_turn sample_burn))) = 8%nat.
Proof.
  assert (deck (current_player sample_burn) = []) as H1 by reflexivity.
  assert (1 <= 1) as H2 by lia.
  assert (0 <= bonus_draw (current_player sample_burn)) as H3 by (cbn; lia).
  destruct (draw_empty_deck_burns sample_burn 1 H1 H2 H3) as (Ha & _ & Hb & Hc).
  split; [exact Ha|]. split; [exact Hb|]. rewrite Hc. reflexivity.
Defined.

(** C8 (as written, refuted): applying an action to a state whose phase is
    Ended does not raise anything in [State.act]; the call returns
    normally. *)
Lemma act_after_end_counterexample :
  phase sample_ended = ENDED /\
  act no_shuffle Pass sample_ended = (sample_ended, None) /\
  snd (act no_shuffle Pass sample_ended) <> Some GameIsEndedError.
Proof. repeat split. discriminate. Qed.

(** C8 (amended): on a state whose phase is Ended, [State.act] raises
    nothing and changes nothing but the invalid-action flag, which it
    clears; the error for acting on a finished game is raised one level up,
    by the [step] of the battle environment, which leaves the state
    untouched. *)
Theorem act_after_end
    (shuffle : RandomState -> list Card -> list Card * RandomState)
    (action : Action) (s : State) :
  phase s = ENDED ->
  act shuffle action s = (set_was_last_action_invalid (Some false) s, None) /\
  step shuffle action s = (s, Some GameIsEndedError).
Proof.
  intros Hphase. split.
  - unfold act. cbn. rewrite Hphase. reflexivity.
  - unfold step, _battle_is_finished. rewrite Hphase. reflexivity.
Qed.

Lemma act_after_end_witness :
  act no_shuffle (Attack (Some 4) None) sample_ended = (sample_ended, None) /\
  step no_shuffle (Attack (Some 4) None) sample_ended
    = (sample_ended, Some GameIsEndedError).
Proof.
  apply (act_after_end no_shuffle (Attack (Some 4) None) sample_ended).
  reflexivity.
Defined.

(** C3 (the code departs from the claim): using the green item of the
    sample hand without a target fails, the action is flagged invalid and no
    mana is spent, yet the item is gone from the hand afterwards. *)
Theorem failed_use_loses_item :
  let s' := fst (_act_on_battle (Use (Some 2) None) sample_battle) in
  snd (_act_on_battle (Use (Some 2) None) sample_battle) = None /\
  was_last_action_invalid s' = Some true /\
  mana (current_player s') = mana (current_player sample_battle) /\
  instance_id <$> hand (current_player sample_battle) = [Some 1; Some 2; Some 3] /\
  instance_id <$> hand (current_player s') = [Some 1; Some 3].
Proof. vm_compute. repeat split. Qed.

(** C5 (the code departs from the claim): the sample attacker has Drain and
    Ward and 3 attack; it hits the Guard creature (1 attack, 5 defense).
    The defender loses 3 defense, the counterattack consumes the attacker's
    Ward, and the attacking player's health stays where it was. *)
Theorem drain_lost_with_ward :
  let s' := fst (_act_on_battle (Attack (Some 4) (Some 6)) sample_battle) in
  was_last_action_invalid s' = Some false /\
  length (actions (current_player s')) = 1%nat /\
  defense <$> lane_of (opposing_player sample_battle) LEFT = [5; 5] /\
  defense <$> lane_of (opposing_player s') LEFT = [5; 2] /\
  (fun c => has_ability c "D") <$> lane_of (current_player sample_battle) LEFT
    = [true] /\
  health (current_player s') = health (current_player sample_battle).
Proof. vm_compute. repeat split. Qed.

(** C7 (the code departs from the claim): the sample state serialises to a
    text, its clone raises [AttributeError] instead, directly after cloning
    and also after the same summon was applied to both. *)
Theorem clone_does_not_serialise :
  is_Some (match State_str sample_battle with inr t => Some t | inl _ => None end) /\
  State_str (clone sample_battle) = inl AttributeError /\
  (let actions := [Summon (Some 1) LEFT] in
   snd (act_all no_shuffle actions sample_battle) = None /\
   snd (act_all no_shuffle actions (clone sample_battle)) = None /\
   is_Some (match State_str (fst (act_all no_shuffle actions sample_battle))
            with inr t => Some t | inl _ => None end) /\
   State_str (fst (act_all no_shuffle actions (clone sample_battle)))
     = inl AttributeError).
Proof. vm_compute. repeat split; eexists; reflexivity. Qed.

(** ** What the battle actions leave alone

    A relation between the players before and after, one for the player to
    move and one for the opponent, that no write to a hand or a lane can
    break, is kept by a battle computation as soon as its other writes keep
    it; alongside, a set of exceptions that contains all the computation can
    raise. *)
Class Stable (Rc Ro : Player -> Player -> Prop) : Prop := {
  Rc_refl : forall p, Rc p p;
  Ro_refl : forall p, Ro p p;
  Rc_trans : forall p q r, Rc p q -> Rc q r -> Rc p r;
  Ro_trans : forall p q r, Ro p q -> Ro q r -> Ro p r;
  Rc_hand : forall p v, Rc p (set_hand v p);
  Rc_lanes : forall p v, Rc p (set_lanes v p);
  Ro_hand : forall p v, Ro p (set_hand v p);
  Ro_lanes : forall p v, Ro p (set_lanes v p)
}.

Section Respects.

Context (Rc Ro : Player -> Player -> Prop) (E : exn -> Prop) `{!Stable Rc Ro}.

Definition related (s s' : State) : Prop :=
  _current_player s' = _current_player s /\
  Rc (current_player s) (current_player s') /\
  Ro (opposing_player s) (opposing_player s').

Definition respects {A} (m : M A) : Prop :=
  forall s, related s (fst (m s)) /\ (forall e, snd (m s) = inl e -> E e).

Lemma related_refl (s : State) : related s s.
Proof. repeat split; [apply Rc_refl|apply Ro_refl]. Qed.

Lemma related_trans (s1 s2 s3 : State) :
  related s1 s2 -> related s2 s3 -> related s1 s3.
Proof.
  intros (H1 & H2 & H3) (H4 & H5 & H6).
  repeat split; [congruence|eapply Rc_trans; eauto|eapply Ro_trans; eauto].
Qed.

Lemma related_set_current (s : State) (p : Player) :
  Rc (current_player s) p -> related s (set_current p s).
Proof.
  intros H. unfold related.
  rewrite current_player_set_current, opposing_player_set_current.
  repeat split; [apply _current_player_set_player_at|exact H|apply Ro_refl].
Qed.

Lemma related_set_opposing (s : State) (p : Player) :
  Ro (opposing_player s) p -> related s (set_opposing p s).
Proof.
  intros H. unfold related.
  rewrite current_player_set_opposing, opposing_player_set_opposing.
  repeat split; [apply _current_player_set_player_at|apply Rc_refl|exact H].
Qed.

Lemma Rc_lane (p : Player) (l : Lane) (v : list Card) : Rc p (set_lane l v p).
Proof. destruct l; apply Rc_lanes. Qed.

Lemma Ro_lane (p : Player) (l : Lane) (v : list Card) : Ro p (set_lane l v p).
Proof. destruct l; apply Ro_lanes. Qed.

Lemma related_set_cards_at (loc : Location) (v : list Card) (s : State) :
  related s (set_cards_at loc v s).
Proof.
  destruct loc; cbn [set_cards_at];
    (apply related_set_current || apply related_set_opposing);
    first [apply Rc_hand | apply Ro_hand | apply Rc_lane | apply Ro_lane].
Qed.

Lemma related_modify (r : CardRef) (f : Card -> Card) (s : State) :
  related s (modify r f s).
Proof. apply related_set_cards_at. Qed.

Lemma respects_ret {A} (a : A) : respects (ret a).
Proof. intros s. split; [apply related_refl|discriminate]. Qed.

Lemma respects_raise {A} (e : exn) : E e -> respects (@raise A e).
Proof.
  intros He s. split; [apply related_refl|].
  intros e' [= <-]. exact He.
Qed.

Lemma respects_gets {A} (f : State -> A) : respects (gets f).
Proof. intros s. split; [apply related_refl|discriminate]. Qed.

Lemma respects_obj (r : CardRef) : E AttributeError -> respects (obj r).
Proof.
  intros He s. unfold obj.
  destruct (deref s r); (split; [apply related_refl|]);
    [discriminate|intros e' [= <-]; exact He].
Qed.

Lemma respects_bind {A B} (m : M A) (k : A -> M B) :
  respects m -> (forall a, respects (k a)) -> respects (m ≫= k).
Proof.
  intros Hm Hk s. unfold mbind, M_bind, bind.
  destruct (Hm s) as [Hrel Hexn].
  destruct (m s) as [s' [e|a]]; cbn [fst snd] in *.
  - split; [exact Hrel|]. intros e' [= <-]. apply Hexn. reflexivity.
  - destruct (Hk a s') as [Hrel' Hexn'].
    split; [eapply related_trans; eassumption|exact Hexn'].
Qed.

Lemma respects_update (f : State -> State) :
  (forall s, related s (f s)) -> respects (update f).
Proof. intros H s. split; [apply H|discriminate]. Qed.

Lemma respects_update_current (f : Player -> Player) :
  (forall p, Rc p (f p)) -> respects (update_current f).
Proof.
  intros H. apply respects_update. intros s. apply related_set_current, H.
Qed.

Lemma respects_update_opposing (f : Player -> Player) :
  (forall p, Ro p (f p)) -> respects (update_opposing f).
Proof.
  intros H. apply respects_update. intros s. apply related_set_opposing, H.
Qed.

Lemma respects_modify (r : CardRef) (f : Card -> Card) :
  respects (update (modify r f)).
Proof. apply respects_update. intros s. apply related_modify. Qed.

Lemma respects_when (b : bool) (m : M unit) : respects m -> respects (when b m).
Proof. intros H. destruct b; [exact H|apply respects_ret]. Qed.

Lemma respects_resolve (x : option Z) :
  E InvalidCardError -> respects (resolve x).
Proof.
  intros He. destruct x as [iid|]; [|apply respects_ret].
  intros s. cbn. unfold _find_card.
  destruct (find_first s iid location_mapping);
    (split; [apply related_refl|]); [discriminate|intros e' [= <-]; exact He].
Qed.

Lemma respects_in_lane (loc : Location) (r : CardRef) (t : Card) :
  respects (in_lane loc r t).
Proof. apply respects_gets. Qed.

Lemma respects_damage_creature (r : CardRef) (amount : Z) (lethal : bool) :
  E AttributeError -> respects (damage_creature r amount lethal).
Proof.
  intros He. unfold damage_creature.
  apply respects_bind; [apply respects_obj, He|].
  intros c. destruct (Creature_damage c amount lethal) as [c' [e|z]];
    (apply respects_bind; [apply respects_modify|intros _; apply respects_ret]).
Qed.

Lemma respects_remove_from_hand (r : CardRef) (x : Card) :
  E MalformedActionError -> respects (remove_from_hand r x).
Proof.
  intros He. unfold remove_from_hand. apply respects_bind; [apply respects_gets|].
  intros cards. destruct (py_index _ x cards).
  - apply respects_bind; [|intros _; apply respects_ret].
    apply respects_update_current. intros p. apply Rc_hand.
  - apply respects_raise, He.
Qed.

Lemma respects_weaken_target (tr : CardRef) (origin : Card) :
  E AttributeError -> respects (weaken_target tr origin).
Proof.
  intros He. unfold weaken_target.
  apply respects_bind; [apply respects_modify|intros _].
  apply respects_bind; [apply respects_modify|intros _].
  apply respects_bind; [apply respects_damage_creature, He|intros _].
  apply respects_modify.
Qed.

Lemma respects_damage_opposing (amount : Z) :
  (forall p a, Ro p (fst (Player_damage p a))) ->
  respects (damage_opposing amount).
Proof.
  intros H s. unfold damage_opposing.
  specialize (H (opposing_player s) amount).
  destruct (Player_damage (opposing_player s) amount) as [p dealt].
  cbn in *. split; [apply related_set_opposing, H|discriminate].
Qed.

End Respects.

(** One step through a battle computation: a primitive, a bind or a case
    distinction; [side] closes the conditions on the writes to the players
    and on the exceptions. *)
Ltac respects_step side :=
  lazymatch goal with
  | |- respects ?Rc ?Ro ?E (ret _) => apply (respects_ret Rc Ro E)
  | |- respects ?Rc ?Ro ?E (mret _) => apply (respects_ret Rc Ro E)
  | |- respects ?Rc ?Ro ?E (raise _) => apply (respects_raise Rc Ro E); side
  | |- respects ?Rc ?Ro ?E (gets _) => apply (respects_gets Rc Ro E)
  | |- respects ?Rc ?Ro ?E (obj _) => apply (respects_obj Rc Ro E); side
  | |- respects ?Rc ?Ro ?E (in_lane _ _ _) => apply (respects_in_lane Rc Ro E)
  | |- respects ?Rc ?Ro ?E (resolve _) => apply (respects_resolve Rc Ro E); side
  | |- respects ?Rc ?Ro ?E (update (modify _ _)) =>
    apply (respects_modify Rc Ro E)
  | |- respects ?Rc ?Ro ?E (damage_creature _ _ _) =>
    apply (respects_damage_creature Rc Ro E); side
  | |- respects ?Rc ?Ro ?E (remove_from_hand _ _) =>
    apply (respects_remove_from_hand Rc Ro E); side
  | |- respects ?Rc ?Ro ?E (weaken_target _ _) =>
    apply (respects_weaken_target Rc Ro E); side
  | |- respects ?Rc ?Ro ?E (when _ _) => apply (respects_when Rc Ro E)
  | |- respects ?Rc ?Ro ?E (damage_opposing _) =>
    apply (respects_damage_opposing Rc Ro E); side
  | |- respects ?Rc ?Ro ?E (update_current _) =>
    apply (respects_update_current Rc Ro E); side
  | |- respects ?Rc ?Ro ?E (update_opposing _) =>
    apply (respects_update_opposing Rc Ro E); side
  | |- respects _ _ _ (apply_card_effects _) => unfold apply_card_effects
  | |- respects _ _ _ (move_to_lane _ _ _) => unfold move_to_lane
  | |- respects ?Rc ?Ro ?E (mbind _ _) =>
    apply (respects_bind Rc Ro E); [|intros ?]
  | |- respects _ _ _ (match ?x with _ => _ end) => destruct x
  end.

Ltac respects_all side := repeat respects_step side.

(** The rune threshold never goes up. *)
Definition rune_le (p q : Player) : Prop := next_rune q <= next_rune p.

#[global] Instance rune_le_stable : Stable rune_le rune_le.
Proof. split; unfold rune_le; intros; cbn; lia. Qed.

(** The mana of the player to move stays; nothing is said of the opponent. *)
Definition same_mana (p q : Player) : Prop := mana q = mana p.
Definition any_player (p q : Player) : Prop := True.

#[global] Instance same_mana_stable : Stable same_mana any_player.
Proof.
  split; unfold same_mana, any_player; intros; cbn;
    first [exact I | congruence].
Qed.

(** Any exception, and any exception but [NotEnoughManaError]. *)
Definition any_exn (e : exn) : Prop := True.
Definition not_mana_exn (e : exn) : Prop := e <> NotEnoughManaError.

Ltac rune_side :=
  intros; unfold rune_le, any_exn;
  first [ exact I | apply Player_damage_next_rune | cbn; lia
        | repeat match goal with l : Lane |- _ => destruct l end; cbn; lia ].

Ltac mana_side :=
  intros; unfold same_mana, any_player, not_mana_exn;
  first [ exact I | reflexivity | discriminate
        | repeat match goal with l : Lane |- _ => destruct l end; reflexivity ].

Lemma _do_summon_runes (origin : option CardRef) (target : option Lane) :
  respects rune_le rune_le any_exn (_do_summon origin target).
Proof. unfold _do_summon. respects_all rune_side. Qed.

Lemma _do_attack_runes (origin target : option CardRef) :
  respects rune_le rune_le any_exn (_do_attack origin target).
Proof. unfold _do_attack, combat. respects_all rune_side. Qed.

Lemma _do_use_runes (origin target : option CardRef) :
  respects rune_le rune_le any_exn (_do_use origin target).
Proof. unfold _do_use. respects_all rune_side. Qed.

Lemma battle_try_runes (action : Action) :
  respects rune_le rune_le any_exn (battle_try action).
Proof.
  unfold battle_try.
  apply (respects_bind rune_le rune_le any_exn);
    [apply respects_resolve; [apply _|exact I]|intros o].
  apply (respects_bind rune_le rune_le any_exn);
    [apply respects_gets, _|intros c].
  apply (respects_bind rune_le rune_le any_exn);
    [|intros _; apply (respects_update_current rune_le rune_le any_exn);
      rune_side].
  destruct (atype action).
  - apply respects_raise; [apply _|exact I].
  - apply (respects_bind rune_le rune_le any_exn);
      [|intros t; apply _do_summon_runes].
    respects_all rune_side.
  - apply (respects_bind rune_le rune_le any_exn);
      [apply respects_resolve; [apply _|exact I]
      |intros t; apply _do_attack_runes].
  - apply (respects_bind rune_le rune_le any_exn);
      [apply respects_resolve; [apply _|exact I]
      |intros t; apply _do_use_runes].
  - apply respects_ret, _.
Qed.

(** [_do_attack] never touches the mana of the player to move and never
    raises [NotEnoughManaError]. *)
Lemma _do_attack_mana (origin target : option CardRef) :
  respects same_mana any_player not_mana_exn (_do_attack origin target).
Proof. unfold _do_attack, combat. respects_all mana_side. Qed.

(** ** The rune threshold over a whole game *)

(** Neither player's threshold is higher in [s'] than in [s]. *)
Definition runes_le (s s' : State) : Prop :=
  forall o, next_rune (player_at s' o) <= next_rune (player_at s o).

Lemma runes_le_refl (s : State) : runes_le s s.
Proof. intros o. lia. Qed.

Lemma runes_le_trans (s1 s2 s3 : State) :
  runes_le s1 s2 -> runes_le s2 s3 -> runes_le s1 s3.
Proof. intros H1 H2 o. specialize (H1 o). specialize (H2 o). lia. Qed.

Lemma runes_le_players (s s' : State) :
  players s' = players s -> runes_le s s'.
Proof. intros H o. unfold player_at. rewrite H. lia. Qed.

Lemma runes_le_set_player_at (o : PlayerOrder) (p : Player) (s : State) :
  next_rune p <= next_rune (player_at s o) ->
  runes_le s (set_player_at o p s).
Proof. intros H o'. destruct o, o'; cbn in *; lia. Qed.

Lemma related_runes_le (s s' : State) :
  related rune_le rune_le s s' -> runes_le s s'.
Proof.
  unfold related, rune_le, current_player, opposing_player.
  intros (Hcur & Hc & Ho) o. rewrite Hcur in Hc, Ho.
  destruct (_current_player s), o; cbn in *; lia.
Qed.

Lemma runes_le_and_then (s : State) (r : State * option exn)
    (k : State -> State * option exn) :
  runes_le s (fst r) ->
  (forall s1, runes_le s1 (fst (k s1))) ->
  runes_le s (fst (and_then r k)).
Proof.
  intros Hr Hk. destruct r as [s1 [e|]]; cbn in *; [exact Hr|].
  eapply runes_le_trans; [exact Hr|apply Hk].
Qed.

Lemma draw_loop_next_rune (n : nat) (p : Player) :
  next_rune (fst (draw_loop n p)) = next_rune p.
Proof.
  revert p. induction n as [|n IH]; intros p; [reflexivity|].
  cbn [draw_loop]. destruct (last (deck p)); [|reflexivity].
  destruct (decide (8 <= length (hand p))%nat); [reflexivity|].
  rewrite IH. reflexivity.
Qed.

Lemma draw_next_rune (p : Player) (amount : Z) :
  next_rune (fst (draw p amount)) = next_rune p.
Proof. apply draw_loop_next_rune. Qed.

Lemma draw_or_burn_next_rune (p : Player) (amount : Z) :
  next_rune (draw_or_burn p amount) <= next_rune p.
Proof.
  unfold draw_or_burn. pose proof (draw_next_rune p amount) as H.
  destruct (draw p amount) as [q [e|]]; cbn in H; [|lia].
  destruct e; try lia.
  etransitivity; [apply Player_damage_next_rune|lia].
Qed.

Lemma draw_player_runes (o : PlayerOrder) (amount : Z) (s : State) :
  runes_le s (fst (draw_player o amount s)).
Proof.
  unfold draw_player. pose proof (draw_next_rune (player_at s o) amount) as H.
  destruct (draw (player_at s o) amount) as [p e]. cbn in *.
  apply runes_le_set_player_at. lia.
Qed.

Lemma check_health_sweep_runes (s : State) :
  runes_le s (check_health (sweep_dead s)).
Proof.
  intros o. unfold check_health.
  repeat match goal with |- context [decide ?P] => destruct (decide P) end;
    destruct o; cbn; lia.
Qed.

Lemma _act_on_battle_runes (action : Action) (s : State) :
  runes_le s (fst (_act_on_battle action s)).
Proof.
  unfold _act_on_battle.
  pose proof (related_runes_le _ _ (proj1 (battle_try_runes action s))) as H.
  destruct (battle_try action s) as [s1 [e|[]]]; cbn [fst] in H.
  - destruct (is_action_failure e); cbn [fst]; [|exact H].
    eapply runes_le_trans; [exact H|].
    eapply runes_le_trans; [|apply check_health_sweep_runes].
    apply runes_le_players. reflexivity.
  - cbn [fst]. eapply runes_le_trans; [exact H|].
    apply check_health_sweep_runes.
Qed.

Lemma _next_turn_runes (s : State) : runes_le s (_next_turn s).
Proof.
  apply runes_le_players. unfold _next_turn.
  destruct (_current_player s); [reflexivity|]. cbn.
  match goal with |- context [if ?b then _ else _] => destruct b end;
    reflexivity.
Qed.

Lemma _new_battle_turn_runes (s : State) : runes_le s (_new_battle_turn s).
Proof.
  unfold _new_battle_turn, set_current. apply runes_le_set_player_at. cbn.
  fold (current_player s).
  etransitivity; [apply draw_or_burn_next_rune|].
  destruct (decide (turn s > 50)); cbn;
    destruct (refresh_health_rune (current_player s)) as [_ ->]; lia.
Qed.

Lemma _act_on_draft_runes (action : Action) (s : State) :
  runes_le s (fst (_act_on_draft action s)).
Proof.
  unfold _act_on_draft.
  destruct (py_getitem _ _); cbn [fst]; [|apply runes_le_refl].
  apply runes_le_set_player_at. cbn. unfold current_player. lia.
Qed.

Lemma _new_draft_turn_runes (s : State) :
  runes_le s (fst (_new_draft_turn s)).
Proof.
  unfold _new_draft_turn.
  destruct (py_getitem _ _); cbn [fst]; [|apply runes_le_refl].
  intros []; cbn; lia.
Qed.

Section EngineRunes.

Variable shuffle : RandomState -> list Card -> list Card * RandomState.

Lemma _prepare_for_battle_runes (s : State) :
  runes_le s (fst (_prepare_for_battle shuffle s)).
Proof.
  unfold _prepare_for_battle.
  destruct (shuffle (np_random s) _) as [deck1 rng1].
  destruct (shuffle rng1 _) as [deck2 rng2].
  match goal with
  | |- context [zip deck1 deck2] => generalize (zip deck1 deck2)
  end.
  intros pairs.
  match goal with
  | |- context [set_np_random ?r ?x] => set (s0 := set_np_random r x)
  end.
  assert (runes_le s s0) as H0 by (intros []; cbn; lia).
  eapply runes_le_trans; [exact H0|]. clearbody s0. clear H0.
  assert (forall counter,
    runes_le s0
      (fst (let '(d1, d2, n) := copy_decks (default 0 counter) pairs in
            let s1 := set_instance_counter (const n <$> counter) s0 in
            let s2 := set_players (set_deck (reverse d1) (fst (players s1)),
                                   set_deck (reverse d2) (snd (players s1))) s1 in
            and_then (draw_player FIRST 4 s2) (fun s3 =>
            let s4 := set_player_at FIRST (set_base_mana 0 (player_at s3 FIRST)) s3 in
            and_then (draw_player SECOND 4 s4) (fun s5 =>
            let s6 := set_player_at SECOND (set_base_mana 0 (player_at s5 SECOND)) s5 in
            and_then (draw_player SECOND 1 s6) (fun s7 =>
            (set_player_at SECOND (set_bonus_mana 1 (player_at s7 SECOND)) s7,
             None))))))) as Hrest.
  { intros counter.
    destruct (copy_decks (default 0 counter) pairs) as [[d1 d2] n].
    cbv zeta.
    match goal with
    | |- runes_le _ (fst (and_then (draw_player FIRST 4 ?x) _)) =>
      apply runes_le_trans with x; [intros []; cbn; lia|]
    end.
    apply runes_le_and_then; [apply draw_player_runes|intros s3].
    match goal with
    | |- runes_le _ (fst (and_then (draw_player SECOND 4 ?x) _)) =>
      apply runes_le_trans with x; [intros []; cbn; lia|]
    end.
    apply runes_le_and_then; [apply draw_player_runes|intros s5].
    match goal with
    | |- runes_le _ (fst (and_then (draw_player SECOND 1 ?x) _)) =>
      apply runes_le_trans with x; [intros []; cbn; lia|]
    end.
    apply runes_le_and_then; [apply draw_player_runes|intros s7].
    intros []; cbn; lia. }
  destruct pairs as [|pr pairs'], (instance_counter s0) as [c|];
    first [apply Hrest | apply runes_le_refl].
Qed.

Lemma act_runes (action : Action) (s : State) :
  runes_le s (fst (act shuffle action s)).
Proof.
  unfold act.
  match goal with
  | |- context [set_was_last_action_invalid ?v s] =>
    apply runes_le_trans with (set_was_last_action_invalid v s);
      [apply runes_le_players; reflexivity|];
    generalize (set_was_last_action_invalid v s)
  end.
  clear s. intros s. cbv zeta. destruct (phase s).
  - apply runes_le_and_then; [apply _act_on_draft_runes|intros s1].
    apply runes_le_trans with (_next_turn s1); [apply _next_turn_runes|].
    destruct (phase (_next_turn s1)).
    + apply _new_draft_turn_runes.
    + apply runes_le_and_then; [apply _prepare_for_battle_runes|intros s2].
      apply _new_battle_turn_runes.
    + apply runes_le_refl.
  - apply runes_le_and_then; [apply _act_on_battle_runes|intros s1].
    destruct (decide (atype action = PASS)); cbn [fst]; [|apply runes_le_refl].
    eapply runes_le_trans; [apply _next_turn_runes|apply _new_battle_turn_runes].
  - apply runes_le_refl.
Qed.

Lemma act_all_runes (actions : list Action) (s : State) :
  runes_le s (fst (act_all shuffle actions s)).
Proof.
  revert s. induction actions as [|a rest IH]; intros s; cbn [act_all].
  - apply runes_le_refl.
  - apply runes_le_and_then; [apply act_runes|exact IH].
Qed.

(** C6: over any sequence of actions applied to any state, neither player's
    [next_rune] is ever higher afterwards than before; [Player.damage], the
    only place that writes it, leaves its loop with the loop test false,
    lowers [next_rune] by 5 for each bonus draw it adds and by nothing
    else; and a hit of 25 on a player at 26 health with [next_rune] 25
    leaves [next_rune] at 0 and adds 5 to [bonus_draw]. *)
Theorem next_rune_non_increasing (actions : list Action) (s : State)
    (o : PlayerOrder) (p : Player) (amount : Z) :
  next_rune (player_at (fst (act_all shuffle actions s)) o)
    <= next_rune (player_at s o) /\
  (let p' := fst (Player_damage p amount) in
   rune_test p' = false /\
   next_rune p' <= next_rune p /\
   next_rune p - next_rune p' = 5 * (bonus_draw p' - bonus_draw p) /\
   health p' = health p - amount) /\
  (health p = 26 -> next_rune p = 25 ->
   next_rune (fst (Player_damage p 25)) = 0 /\
   bonus_draw (fst (Player_damage p 25)) = bonus_draw p + 5 /\
   health (fst (Player_damage p 25)) = 1).
Proof.
  split; [apply act_all_runes|]. split.
  - cbv zeta. split.
    + unfold Player_damage. cbn [fst]. apply rune_loop_exits. lia.
    + destruct (Player_damage_shape p amount) as (k & Hk & _ & ->). cbn.
      repeat split; lia.
  - intros Hh Hr.
    assert (rune_test (fst (Player_damage p 25)) = false) as Hexit.
    { unfold Player_damage. cbn [fst]. apply rune_loop_exits. lia. }
    destruct (Player_damage_shape p 25) as (k & Hk & Hlast & Heq).
    rewrite Heq in Hexit |- *. unfold rune_test in Hexit. cbn in Hexit |- *.
    apply andb_false_iff in Hexit.
    rewrite !bool_decide_eq_false in Hexit.
    assert (k = 5) as -> by lia. repeat split; lia.
Qed.

End EngineRunes.

Lemma next_rune_non_increasing_witness :
  next_rune (player_at (fst (act_all no_shuffle
                               [Attack (Some 4) (Some 6); Pass] sample_battle))
               SECOND)
    <= next_rune (player_at sample_battle SECOND) /\
  next_rune (fst (Player_damage sample_healthy 25)) = 0 /\
  bonus_draw (fst (Player_damage sample_healthy 25)) = 5 /\
  health (fst (Player_damage sample_healthy 25)) = 1.
Proof.
  destruct (next_rune_non_increasing no_shuffle
              [Attack (Some 4) (Some 6); Pass] sample_battle SECOND
              sample_healthy 25) as (H1 & _ & H2).
  split; [exact H1|].
  apply H2; reflexivity.
Defined.

(** ** Mana: the shared precheck and the debit *)

Lemma bind_success {A B} (m : M A) (k : A -> M B) (s s' : State) (b : B) :
  (m ≫= k) s = (s', inr b) ->
  exists s1 a, m s = (s1, inr a) /\ k a s1 = (s', inr b).
Proof.
  unfold mbind, M_bind, bind. destruct (m s) as [s1 [e|a]]; [discriminate|].
  intros H. exists s1, a. split; [reflexivity|exact H].
Qed.

Lemma obj_success (r : CardRef) (s s' : State) (c : Card) :
  obj r s = (s', inr c) -> s' = s /\ deref s r = Some c.
Proof. unfold obj. destruct (deref s r); intros [= <- <-]; split; reflexivity. Qed.

Lemma gets_success {A} (f : State -> A) (s s' : State) (a : A) :
  gets f s = (s', inr a) -> s' = s /\ a = f s.
Proof. intros [= <- <-]. split; reflexivity. Qed.

Lemma same_mana_of (m : M unit) (s s' : State) (r : exn + unit) :
  respects same_mana any_player any_exn m -> m s = (s', r) ->
  mana (current_player s') = mana (current_player s).
Proof.
  intros Hm Heq. destruct (Hm s) as [(_ & H & _) _]. rewrite Heq in H. exact H.
Qed.

Lemma remove_from_hand_mana (r : CardRef) (x : Card) (s s' : State)
    (res : exn + nat) :
  remove_from_hand r x s = (s', res) ->
  mana (current_player s') = mana (current_player s).
Proof.
  intros Heq.
  destruct (respects_remove_from_hand same_mana any_player any_exn r x I s)
    as [(_ & H & _) _].
  rewrite Heq in H. exact H.
Qed.

Ltac mana_any_side :=
  intros; unfold same_mana, any_player, any_exn;
  first [ exact I | reflexivity
        | repeat match goal with l : Lane |- _ => destruct l end; reflexivity ].

(** A computation that keeps the mana, followed by the debit. *)
Lemma debit_last (m : M unit) (g : Z) (s s' : State) :
  respects same_mana any_player any_exn m ->
  (m ≫= fun _ => update_current (fun p => set_mana (mana p - g) p)) s
    = (s', inr tt) ->
  mana (current_player s') = mana (current_player s) - g.
Proof.
  intros Hm H. apply bind_success in H as (s1 & [] & H1 & H2).
  apply (same_mana_of m s s1 _ Hm) in H1.
  injection H2 as <-. rewrite current_player_set_current. cbn. lia.
Qed.

Lemma _do_summon_debit (s s' : State) (r : CardRef) (o : Card)
    (lane : option Lane) :
  deref s r = Some o ->
  _do_summon (Some r) lane s = (s', inr tt) ->
  mana (current_player s') = mana (current_player s) - cost o.
Proof.
  intros Hderef H. unfold _do_summon in H.
  apply bind_success in H as (s1 & o' & Hobj & H).
  apply obj_success in Hobj as [-> Ho]. rewrite Hderef in Ho. injection Ho as <-.
  apply bind_success in H as (s1 & cur & Hg & H).
  apply gets_success in Hg as [-> ->].
  destruct (decide (cost o > mana (current_player s))); [discriminate|].
  destruct (negb (bool_decide (class o = Creature))); [discriminate|].
  destruct lane as [lane|]; [|discriminate].
  apply bind_success in H as (s1 & len & Hg & H).
  apply gets_success in Hg as [-> ->].
  destruct (decide (3 <= _)%nat); [discriminate|].
  apply bind_success in H as (s1 & [] & Hmove & H).
  apply (same_mana_of _ s s1) in Hmove;
    [|unfold move_to_lane; respects_all mana_any_side].
  rewrite <- Hmove.
  apply debit_last in H; [|unfold apply_card_effects; respects_all mana_any_side].
  exact H.
Qed.

Lemma _do_use_debit (s s' : State) (r : CardRef) (o : Card)
    (target : option CardRef) :
  deref s r = Some o ->
  _do_use (Some r) target s = (s', inr tt) ->
  mana (current_player s') = mana (current_player s) - cost o.
Proof.
  intros Hderef H. unfold _do_use in H.
  apply bind_success in H as (s1 & o' & Hobj & H).
  apply obj_success in Hobj as [-> Ho]. rewrite Hderef in Ho. injection Ho as <-.
  apply bind_success in H as (s1 & cur & Hg & H).
  apply gets_success in Hg as [-> ->].
  destruct (decide (cost o > mana (current_player s))); [discriminate|].
  apply bind_success in H as (s1 & tgt & Htgt & H).
  assert (s1 = s) as ->.
  { destruct target as [tr|]; [|injection Htgt as <- _; reflexivity].
    apply bind_success in Htgt as (s2 & t & Hobj & Hret).
    apply obj_success in Hobj as [-> _]. injection Hret as <- _. reflexivity. }
  match type of H with
  | (if ?b then _ else _) _ = _ => destruct b; [discriminate|]
  end.
  apply bind_success in H as (s1 & k & Hrem & H).
  apply remove_from_hand_mana in Hrem. rewrite <- Hrem.
  apply debit_last in H; [exact H|].
  respects_all mana_any_side.
Qed.

(** C4 (as written, refuted): the sample attacker costs 5 and the player has
    3 mana; the attack goes through and the mana is still 3. *)
Lemma attack_needs_no_mana_counterexample :
  cost <$> deref sample_battle (PLAYER_LEFT_LANE, 0%nat) = Some 5 /\
  mana (current_player sample_battle) = 3 /\
  snd (_do_attack (Some (PLAYER_LEFT_LANE, 0%nat)) (Some (ENEMY_LEFT_LANE, 1%nat))
         sample_battle) = inr tt /\
  mana (current_player
          (fst (_do_attack (Some (PLAYER_LEFT_LANE, 0%nat))
                  (Some (ENEMY_LEFT_LANE, 1%nat)) sample_battle))) = 3.
Proof. vm_compute. repeat split. Qed.

(** C4 (amended): for Summon and Use, a card that costs more than the
    current player's mana makes the action fail with [NotEnoughManaError]
    and leaves the state as it was, and a successful action lowers the
    current player's mana by exactly the cost of the card; Attack has no
    mana check and no debit: it never raises [NotEnoughManaError] and never
    changes the current player's mana. *)
Theorem mana_precheck_and_debit (s : State) (r : CardRef) (o : Card)
    (lane : option Lane) (target : option CardRef) :
  deref s r = Some o ->
  (cost o > mana (current_player s) ->
   _do_summon (Some r) lane s = (s, inl NotEnoughManaError) /\
   _do_use (Some r) target s = (s, inl NotEnoughManaError)) /\
  (forall s', _do_summon (Some r) lane s = (s', inr tt) ->
     mana (current_player s') = mana (current_player s) - cost o) /\
  (forall s', _do_use (Some r) target s = (s', inr tt) ->
     mana (current_player s') = mana (current_player s) - cost o) /\
  mana (current_player (fst (_do_attack (Some r) target s)))
    = mana (current_player s) /\
  snd (_do_attack (Some r) target s) <> inl NotEnoughManaError.
Proof.
  intros Hderef. split; [|split; [|split; [|split]]].
  - intros Hcost.
    unfold _do_summon, _do_use, mbind, M_bind, bind, obj, gets.
    rewrite Hderef.
    destruct (decide (cost o > mana (current_player s))); [|lia].
    split; reflexivity.
  - intros s'. apply _do_summon_debit, Hderef.
  - intros s'. apply _do_use_debit, Hderef.
  - destruct (_do_attack_mana (Some r) target s) as [(_ & H & _) _]. exact H.
  - destruct (_do_attack_mana (Some r) target s) as [_ H].
    intros Heq. apply H in Heq. apply Heq. reflexivity.
Qed.

Lemma mana_precheck_and_debit_witness :
  _do_summon (Some (PLAYER_LEFT_LANE, 0%nat)) (Some LEFT) sample_battle
    = (sample_battle, inl NotEnoughManaError) /\
  snd (_do_summon (Some (PLAYER_HAND, 0%nat)) (Some RIGHT) sample_battle) = inr tt /\
  mana (current_player
          (fst (_do_summon (Some (PLAYER_HAND, 0%nat)) (Some RIGHT) sample_battle)))
    = 1.
Proof.
  split.
  - apply (mana_precheck_and_debit sample_battle (PLAYER_LEFT_LANE, 0%nat)
             (creature 4 5 3 3 {["D"%char; "W"%char]} true) (Some LEFT) None);
      [reflexivity|cbn; lia].
  - split; [reflexivity|].
    destruct (mana_precheck_and_debit sample_battle (PLAYER_HAND, 0%nat)
                (creature 1 2 2 2 ∅ false) (Some RIGHT) None eq_refl)
      as (_ & H & _).
    rewrite (H (fst (_do_summon (Some (PLAYER_HAND, 0%nat)) (Some RIGHT)
                       sample_battle))); [reflexivity|].
    reflexivity.
Defined.

(** ** The legality mask and the list of legal actions *)
(** ** Lists of mask positions *)

Lemma set_bits_spec (ks : list nat) (m : list Z) :
  Forall (fun k => (k < length m)%nat) ks ->
  exists m',
    set_bits ks m = inr m' /\ length m' = length m /\
    forall i, (i < length m)%nat ->
      m' !! i = if bool_decide (i ∈ ks) then Some 1 else m !! i.
Proof.
  revert m. induction ks as [|k ks IH]; intros m Hks.
  - exists m. repeat split.
  - apply Forall_cons in Hks as [Hk Hks]. cbn [set_bits].
    destruct (decide (k < length m)%nat) as [_|]; [|lia].
    destruct (IH (<[k := 1]> m)) as (m' & Hm' & Hlen & Hbits).
    { rewrite length_insert. exact Hks. }
    rewrite length_insert in Hlen, Hbits.
    exists m'. repeat split; [exact Hm'|exact Hlen|].
    intros i Hi. rewrite (Hbits i Hi).
    destruct (decide (i ∈ ks)) as [Hin|Hin].
    + rewrite !bool_decide_eq_true_2; [reflexivity|right; exact Hin|exact Hin].
    + rewrite (bool_decide_eq_false_2 (i ∈ ks)) by exact Hin.
      destruct (decide (i = k)) as [->|Hne].
      * rewrite bool_decide_eq_true_2 by left.
        apply list_lookup_insert_eq. exact Hi.
      * rewrite bool_decide_eq_false_2.
        -- apply list_lookup_insert_ne. congruence.
        -- rewrite elem_of_cons. tauto.
Qed.

Lemma elem_of_join_imap {A B} (f : nat -> A -> list B) (l : list A) (y : B) :
  y ∈ mjoin (imap f l) <-> exists i x, l !! i = Some x /\ y ∈ f i x.
Proof.
  rewrite list_elem_of_join. split.
  - intros (ys & Hy & Hys). apply elem_of_lookup_imap in Hys as (i & x & -> & Hx).
    exists i, x. split; assumption.
  - intros (i & x & Hx & Hy). exists (f i x). split; [exact Hy|].
    apply elem_of_lookup_imap. exists i, x. split; [reflexivity|exact Hx].
Qed.

Lemma elem_of_hand_bits (s : State) (k : nat) :
  k ∈ hand_bits s <->
  exists h card,
    hand (current_player s) !! h = Some card /\
    has_enough_mana (mana (current_player s)) card = true /\
    k ∈ check_playability s (class card) h.
Proof.
  unfold hand_bits. rewrite elem_of_join_imap. split.
  - intros (h & card & Hh & Hk). exists h, card.
    destruct (has_enough_mana _ card); [auto|].
    apply elem_of_nil in Hk. contradiction.
  - intros (h & card & Hh & Hm & Hk). exists h, card. rewrite Hm. auto.
Qed.

Lemma elem_of_board_bits (s : State) (k : nat) :
  k ∈ board_bits s <->
  exists lane i f,
    lane_of (current_player s) lane !! i = Some f /\
    k ∈ creature_bits s (lane_offset lane) lane i f.
Proof.
  unfold board_bits. cbn [fmap list_fmap mjoin list_join fst snd].
  rewrite app_nil_r, elem_of_app, !elem_of_join_imap. split.
  - intros [(i & f & H1 & H2)|(i & f & H1 & H2)];
      [exists LEFT, i, f|exists RIGHT, i, f]; auto.
  - intros ([] & i & f & H1 & H2); [left|right]; exists i, f; auto.
Qed.

(** The guards of a lane. *)
Lemma elem_of_guard_indices (cards : list Card) (j : nat) :
  j ∈ guard_indices cards <->
  exists g, cards !! j = Some g /\ has_ability g "G" = true.
Proof.
  unfold guard_indices. rewrite list_elem_of_fmap. split.
  - intros ([j' g] & -> & H). apply list_elem_of_filter in H as [Hg H].
    apply elem_of_lookup_imap in H as (i & x & [= -> ->] & Hx).
    exists x. auto.
  - intros (g & Hj & Hg). exists (j, g). split; [reflexivity|].
    apply list_elem_of_filter. split; [exact Hg|].
    apply elem_of_lookup_imap. exists j, g. auto.
Qed.

Lemma guard_indices_nil (cards : list Card) :
  guard_indices cards = [] <-> ~ has_guard cards.
Proof.
  split.
  - intros Hnil (g & Hin & Hg). apply list_elem_of_lookup in Hin as [j Hj].
    assert (j ∈ guard_indices cards) as H
      by (apply elem_of_guard_indices; eauto).
    rewrite Hnil in H. apply elem_of_nil in H. exact H.
  - intros Hno. apply elem_of_nil_inv. intros j Hj.
    apply elem_of_guard_indices in Hj as (g & Hj & Hg).
    apply Hno. exists g. split; [|exact Hg].
    apply list_elem_of_lookup. eauto.
Qed.

Lemma filter_guard_nil (cards : list Card) :
  filter (fun c => has_ability c "G" = true) cards = [] <-> ~ has_guard cards.
Proof.
  split.
  - intros Hnil (g & Hin & Hg).
    assert (g ∈ filter (fun c => has_ability c "G" = true) cards) as H
      by (apply list_elem_of_filter; auto).
    rewrite Hnil in H. apply elem_of_nil in H. exact H.
  - intros Hno. apply elem_of_nil_inv. intros g Hg.
    apply list_elem_of_filter in Hg as [Hg Hin]. apply Hno. exists g. auto.
Qed.

Definition valid_slot (sl : Slot) : bool :=
  match sl with
  | SlotPass => true
  | SlotSummon h _ => bool_decide (h < 8)%nat
  | SlotUse h sub => bool_decide (h < 8)%nat && bool_decide (sub < 13)%nat
  | SlotAttack k sub => bool_decide (k < 6)%nat && bool_decide (sub < 4)%nat
  end.

Lemma slot_table :
  forallb (fun i =>
             match slot_of_index i with
             | Some sl => Nat.eqb (index_of_slot sl) i && valid_slot sl
             | None => false
             end) (seq 0 145) = true.
Proof. vm_compute. reflexivity. Qed.

Lemma slot_of_index_lt (i : nat) :
  (i < 145)%nat ->
  exists sl, slot_of_index i = Some sl /\ index_of_slot sl = i /\
             valid_slot sl = true.
Proof.
  intros Hi. pose proof slot_table as H.
  rewrite forallb_forall in H. specialize (H i).
  destruct (slot_of_index i) as [sl|].
  - exists sl. split; [reflexivity|].
    apply andb_true_iff in H as [H1 H2]; [|apply in_seq; lia].
    apply Nat.eqb_eq in H1. auto.
  - discriminate H. apply in_seq. lia.
Qed.

Lemma slot_of_index_ge (i : nat) : (145 <= i)%nat -> slot_of_index i = None.
Proof.
  intros Hi. unfold slot_of_index.
  repeat (destruct (decide _); [lia|]). reflexivity.
Qed.

(** Membership in the positions written for one hand card. *)
Lemma elem_of_validate_creature (s : State) (h k : nat) :
  k ∈ validate_creature s h <->
  ((k = 1 + h * 2)%nat /\ (length (lane_of (current_player s) LEFT) < 3)%nat) \/
  ((k = 1 + h * 2 + 1)%nat /\ (length (lane_of (current_player s) RIGHT) < 3)%nat).
Proof.
  unfold validate_creature. rewrite elem_of_app.
  destruct (decide (length (lane_of (current_player s) LEFT) < 3)%nat),
           (decide (length (lane_of (current_player s) RIGHT) < 3)%nat);
    rewrite ?list_elem_of_singleton, ?elem_of_nil; intuition lia.
Qed.

Lemma elem_of_shifted_seq (base n k : nat) :
  k ∈ (fun i => base + i)%nat <$> seq 0 n <-> (base <= k < base + n)%nat.
Proof.
  rewrite list_elem_of_fmap. split.
  - intros (i & -> & Hi). apply elem_of_seq in Hi. lia.
  - intros Hk. exists (k - base)%nat. split; [lia|]. apply elem_of_seq. lia.
Qed.

Lemma elem_of_validate_green_item (s : State) (h k : nat) :
  k ∈ validate_green_item s h <->
  (17 + h * 13 + 1 <= k
   < 17 + h * 13 + 1 + length (lane_of (current_player s) LEFT))%nat \/
  (17 + h * 13 + 4 <= k
   < 17 + h * 13 + 4 + length (lane_of (current_player s) RIGHT))%nat.
Proof.
  unfold validate_green_item. rewrite elem_of_app, !elem_of_shifted_seq.
  reflexivity.
Qed.

Lemma elem_of_validate_red_item (s : State) (h k : nat) :
  k ∈ validate_red_item s h <->
  (17 + h * 13 + 7 <= k
   < 17 + h * 13 + 7 + length (lane_of (opposing_player s) LEFT))%nat \/
  (17 + h * 13 + 10 <= k
   < 17 + h * 13 + 10 + length (lane_of (opposing_player s) RIGHT))%nat.
Proof.
  unfold validate_red_item. rewrite elem_of_app, !elem_of_shifted_seq.
  reflexivity.
Qed.

Lemma elem_of_validate_blue_item (s : State) (h k : nat) :
  k ∈ validate_blue_item s h <->
  k ∈ validate_red_item s h \/ (k = 17 + h * 13)%nat.
Proof.
  unfold validate_blue_item. rewrite elem_of_app, list_elem_of_singleton.
  reflexivity.
Qed.

Lemma elem_of_creature_bits (s : State) (off : nat) (lane : Lane) (i : nat)
    (f : Card) (k : nat) :
  k ∈ creature_bits s off lane i f <->
  able_to_attack f = true /\
  ((~ has_guard (lane_of (opposing_player s) lane) /\
    (121 + (i + off) * 4 <= k
     < 121 + (i + off) * 4 + 1 + length (lane_of (opposing_player s) lane))%nat) \/
   (exists j g, lane_of (opposing_player s) lane !! j = Some g /\
                has_ability g "G" = true /\
                k = (121 + (i + off) * 4 + 1 + j)%nat)).
Proof.
  unfold creature_bits. destruct (able_to_attack f).
  2: { rewrite elem_of_nil. intuition discriminate. }
  destruct (guard_indices (lane_of (opposing_player s) lane)) as [|j0 js] eqn:Hg.
  - pose proof (proj1 (guard_indices_nil _) Hg) as Hno.
    rewrite elem_of_app, list_elem_of_singleton.
    change (fun j => 121 + (i + off) * 4 + 1 + j)%nat
      with (fun j => (121 + (i + off) * 4 + 1) + j)%nat.
    rewrite elem_of_shifted_seq. split.
    + intros H. split; [reflexivity|]. left. split; [exact Hno|]. lia.
    + intros [_ [[_ H]|(j & g & Hj & Hgd & _)]]; [lia|].
      exfalso. apply Hno. exists g. split; [|exact Hgd].
      apply list_elem_of_lookup. eauto.
  - rewrite <- Hg. rewrite list_elem_of_fmap. split.
    + intros (j & -> & Hj). split; [reflexivity|]. right.
      apply elem_of_guard_indices in Hj as (g & Hj & Hgd). eauto.
    + intros [_ [[Hno _]|(j & g & Hj & Hgd & ->)]].
      * apply guard_indices_nil in Hno. congruence.
      * exists j. split; [reflexivity|]. apply elem_of_guard_indices. eauto.
Qed.

(** ** Legal slots, stated without arithmetic on positions *)

Definition use_legal (s : State) (c : CardClass) (sub : nat) : Prop :=
  match c with
  | Creature => False
  | GreenItem =>
    (1 <= sub < 7)%nat /\ is_Some (board_slot (current_player s) (sub - 1))
  | RedItem =>
    (7 <= sub)%nat /\ is_Some (board_slot (opposing_player s) (sub - 7))
  | BlueItem =>
    sub = 0%nat \/
    ((7 <= sub)%nat /\ is_Some (board_slot (opposing_player s) (sub - 7)))
  end.

Definition attack_legal (o_lane : list Card) (sub : nat) : Prop :=
  (~ has_guard o_lane /\
   (sub = 0%nat \/ ((1 <= sub)%nat /\ is_Some (o_lane !! (sub - 1)%nat)))) \/
  (exists g, (1 <= sub)%nat /\ o_lane !! (sub - 1)%nat = Some g /\
             has_ability g "G" = true).

Definition slot_legal (s : State) (sl : Slot) : Prop :=
  match sl with
  | SlotPass => False
  | SlotSummon h lane =>
    exists card,
      hand (current_player s) !! h = Some card /\
      has_enough_mana (mana (current_player s)) card = true /\
      class card = Creature /\
      (length (lane_of (current_player s) lane) < 3)%nat
  | SlotUse h sub =>
    exists card,
      hand (current_player s) !! h = Some card /\
      has_enough_mana (mana (current_player s)) card = true /\
      use_legal s (class card) sub
  | SlotAttack k sub =>
    exists f,
      board_slot (current_player s) k = Some f /\
      able_to_attack f = true /\
      attack_legal (lane_of (opposing_player s) (lane_of_slot k)) sub
  end.

Lemma board_slot_Some (p : Player) (k : nat) (c : Card) :
  (length (lane_of p LEFT) <= 3)%nat ->
  board_slot p k = Some c <->
  exists lane i, k = (lane_offset lane + i)%nat /\ lane_of p lane !! i = Some c.
Proof.
  intros Hlen. unfold board_slot, lane_of_slot. split.
  - destruct (decide (k < 3)%nat) as [Hk|Hk]; intros H.
    + exists LEFT, k. auto.
    + exists RIGHT, (k - 3)%nat. split; [cbn; lia|exact H].
  - intros ([] & i & -> & H); cbn [lane_offset].
    + apply lookup_lt_Some in H as Hi.
      destruct (decide (0 + i < 3)%nat); [exact H|lia].
    + destruct (decide (3 + i < 3)%nat); [lia|].
      replace (3 + i - 3)%nat with i by lia. exact H.
Qed.

Lemma board_slot_is_Some (p : Player) (k : nat) :
  is_Some (board_slot p k) <->
  ((k < 3)%nat /\ (k < length (lane_of p LEFT))%nat) \/
  ((3 <= k)%nat /\ (k - 3 < length (lane_of p RIGHT))%nat).
Proof.
  unfold board_slot, lane_of_slot.
  destruct (decide (k < 3)%nat); rewrite lookup_lt_is_Some; intuition lia.
Qed.

Lemma lane_of_slot_offset (lane : Lane) (i : nat) :
  (i < 3)%nat -> lane_of_slot (lane_offset lane + i) = lane.
Proof.
  intros Hi. unfold lane_of_slot.
  destruct lane; cbn; destruct (decide _); first [reflexivity | lia].
Qed.

Section Ready.

Variable s : State.
Hypothesis Hready : battle_ready s.

Lemma ready_hand_lt (h : nat) (card : Card) :
  hand (current_player s) !! h = Some card -> (h < 8)%nat.
Proof.
  intros H. apply lookup_lt_Some in H. pose proof (ready_hand s Hready). lia.
Qed.

Lemma ready_cur_lane_lt (lane : Lane) (i : nat) (c : Card) :
  lane_of (current_player s) lane !! i = Some c -> (i < 3)%nat.
Proof.
  intros H. apply lookup_lt_Some in H.
  destruct (ready_lanes s Hready lane). lia.
Qed.

Lemma ready_opp_lane_lt (lane : Lane) (i : nat) (c : Card) :
  lane_of (opposing_player s) lane !! i = Some c -> (i < 3)%nat.
Proof.
  intros H. apply lookup_lt_Some in H.
  destruct (ready_lanes s Hready lane). lia.
Qed.

Ltac lane_bounds :=
  pose proof (ready_lanes s Hready LEFT) as [? ?];
  pose proof (ready_lanes s Hready RIGHT) as [? ?].

Lemma summon_bit_legal (h : nat) (lane : Lane) :
  (h < 8)%nat ->
  index_of_slot (SlotSummon h lane) ∈ hand_bits s ++ board_bits s <->
  slot_legal s (SlotSummon h lane).
Proof.
  intros Hh. lane_bounds.
  rewrite elem_of_app, elem_of_hand_bits, elem_of_board_bits.
  cbn [index_of_slot slot_legal]. split.
  - intros [(h' & card & Hcard & Hmana & Hbit)|(l & i & f & Hf & Hbit)].
    + pose proof (ready_hand_lt _ _ Hcard) as Hh'.
      destruct (class card) eqn:Hclass; cbn [check_playability] in Hbit.
      * apply elem_of_validate_creature in Hbit as [[Hk Hlen]|[Hk Hlen]];
          destruct lane; try lia;
          assert (h = h') as -> by lia; exists card; auto.
      * apply elem_of_validate_green_item in Hbit. destruct lane; lia.
      * apply elem_of_validate_red_item in Hbit. destruct lane; lia.
      * apply elem_of_validate_blue_item in Hbit as [Hbit|Hbit];
          [apply elem_of_validate_red_item in Hbit|]; destruct lane; lia.
    + apply elem_of_creature_bits in Hbit as [_ [[_ Hk]|(j & g & _ & _ & Hk)]];
        destruct lane; lia.
  - intros (card & Hcard & Hmana & Hclass & Hlen). left.
    exists h, card. rewrite Hclass. repeat split; [exact Hcard|exact Hmana|].
    apply elem_of_validate_creature. destruct lane; [left|right]; split; auto; lia.
Qed.

Lemma use_bit_legal (h sub : nat) :
  (h < 8)%nat -> (sub < 13)%nat ->
  index_of_slot (SlotUse h sub) ∈ hand_bits s ++ board_bits s <->
  slot_legal s (SlotUse h sub).
Proof.
  intros Hh Hsub. lane_bounds.
  rewrite elem_of_app, elem_of_hand_bits, elem_of_board_bits.
  cbn [index_of_slot slot_legal]. split.
  - intros [(h' & card & Hcard & Hmana & Hbit)|(l & i & f & Hf & Hbit)].
    + pose proof (ready_hand_lt _ _ Hcard) as Hh'.
      destruct (class card) eqn:Hclass; cbn [check_playability] in Hbit.
      * apply elem_of_validate_creature in Hbit. lia.
      * apply elem_of_validate_green_item in Hbit.
        assert (h = h') as -> by lia. exists card.
        rewrite Hclass. repeat split; [exact Hcard|exact Hmana|lia|lia|].
        apply board_slot_is_Some. lia.
      * apply elem_of_validate_red_item in Hbit.
        assert (h = h') as -> by lia. exists card.
        rewrite Hclass. repeat split; [exact Hcard|exact Hmana|lia|].
        apply board_slot_is_Some. lia.
      * apply elem_of_validate_blue_item in Hbit as [Hbit|Hbit].
        -- apply elem_of_validate_red_item in Hbit.
           assert (h = h') as -> by lia. exists card.
           rewrite Hclass. repeat split; [exact Hcard|exact Hmana|]. right.
           split; [lia|]. apply board_slot_is_Some. lia.
        -- assert (h = h') as -> by lia. exists card.
           rewrite Hclass. repeat split; [exact Hcard|exact Hmana|]. left. lia.
    + pose proof (ready_cur_lane_lt _ _ _ Hf).
      apply elem_of_creature_bits in Hbit as [_ [[_ Hk]|(j & g & _ & _ & Hk)]];
        lia.
  - intros (card & Hcard & Hmana & Hlegal). left.
    exists h, card. repeat split; [exact Hcard|exact Hmana|].
    destruct (class card); cbn [use_legal check_playability] in *.
    + contradiction.
    + destruct Hlegal as [Hs Hb]. apply board_slot_is_Some in Hb.
      apply elem_of_validate_green_item. lia.
    + destruct Hlegal as [Hs Hb]. apply board_slot_is_Some in Hb.
      apply elem_of_validate_red_item. lia.
    + apply elem_of_validate_blue_item.
      destruct Hlegal as [->|[Hs Hb]]; [right; lia|left].
      apply board_slot_is_Some in Hb. apply elem_of_validate_red_item. lia.
Qed.

Lemma attack_bit_legal (k sub : nat) :
  (k < 6)%nat -> (sub < 4)%nat ->
  index_of_slot (SlotAttack k sub) ∈ hand_bits s ++ board_bits s <->
  slot_legal s (SlotAttack k sub).
Proof.
  intros Hk Hsub. lane_bounds.
  rewrite elem_of_app, elem_of_hand_bits, elem_of_board_bits.
  cbn [index_of_slot slot_legal]. split.
  - intros [(h' & card & Hcard & Hmana & Hbit)|(l & i & f & Hf & Hbit)].
    + pose proof (ready_hand_lt _ _ Hcard) as Hh'.
      destruct (class card); cbn [check_playability] in Hbit.
      * apply elem_of_validate_creature in Hbit. lia.
      * apply elem_of_validate_green_item in Hbit. lia.
      * apply elem_of_validate_red_item in Hbit. lia.
      * apply elem_of_validate_blue_item in Hbit as [Hbit|Hbit];
          [apply elem_of_validate_red_item in Hbit|]; lia.
    + pose proof (ready_cur_lane_lt _ _ _ Hf) as Hi.
      destruct (ready_lanes s Hready l) as [_ Hol].
      apply elem_of_creature_bits in Hbit as [Hable Hbit].
      assert (forall j, (j < 4)%nat ->
                (121 + k * 4 + sub = 121 + (i + lane_offset l) * 4 + j)%nat ->
                k = (lane_offset l + i)%nat /\ sub = j) as Hdecode
        by (intros; lia).
      exists f.
      destruct Hbit as [[Hno Hrange]|(j & g & Hj & Hg & Heq)].
      * destruct (Hdecode (121 + k * 4 + sub - (121 + (i + lane_offset l) * 4))%nat)
          as [-> Hsub']; [lia|lia|].
        rewrite lane_of_slot_offset by exact Hi.
        repeat split; [apply board_slot_Some; eauto|exact Hable|].
        left. split; [exact Hno|].
        destruct (decide (sub = 0)%nat); [left; assumption|right].
        split; [lia|]. apply lookup_lt_is_Some. lia.
      * pose proof (ready_opp_lane_lt _ _ _ Hj) as Hj3.
        destruct (Hdecode (1 + j)%nat) as [-> ->]; [lia|lia|].
        rewrite lane_of_slot_offset by exact Hi.
        repeat split; [apply board_slot_Some; eauto|exact Hable|].
        right. exists g. replace (1 + j - 1)%nat with j by lia.
        repeat split; [lia|exact Hj|exact Hg].
  - intros (f & Hf & Hable & Hlegal). right.
    apply board_slot_Some in Hf as (l & i & -> & Hf); [|lia].
    pose proof (ready_cur_lane_lt _ _ _ Hf) as Hi.
    rewrite lane_of_slot_offset in Hlegal by exact Hi.
    exists l, i, f. split; [exact Hf|].
    apply elem_of_creature_bits. split; [exact Hable|].
    destruct Hlegal as [[Hno Hs]|(g & Hs & Hg & Hgd)].
    + left. split; [exact Hno|].
      destruct Hs as [->|[Hs Hsome]]; [lia|].
      apply lookup_lt_is_Some in Hsome. lia.
    + right. exists (sub - 1)%nat, g. repeat split; [exact Hg|exact Hgd|lia].
Qed.

Lemma bits_slot_legal (sl : Slot) :
  valid_slot sl = true -> sl <> SlotPass ->
  index_of_slot sl ∈ hand_bits s ++ board_bits s <-> slot_legal s sl.
Proof.
  intros Hvalid Hne. destruct sl as [|h lane|h sub|k sub]; cbn in Hvalid.
  - contradiction.
  - apply summon_bit_legal. apply bool_decide_eq_true in Hvalid. exact Hvalid.
  - apply andb_true_iff in Hvalid as [H1 H2].
    apply bool_decide_eq_true in H1, H2. apply use_bit_legal; assumption.
  - apply andb_true_iff in Hvalid as [H1 H2].
    apply bool_decide_eq_true in H1, H2. apply attack_bit_legal; assumption.
Qed.

End Ready.

(** ** Membership in the explicit list of legal actions *)

Lemma elem_of_summon_actions (s : State) (card : Card) (a : Action) :
  a ∈ summon_actions s card <->
  class card = Creature /\
  exists lane, (length (lane_of (current_player s) lane) < 3)%nat /\
               a = Summon (instance_id card) lane.
Proof.
  unfold summon_actions. destruct (class card);
    try (rewrite elem_of_nil; intuition discriminate).
  rewrite list_elem_of_bind. split.
  - intros (lane & Ha & _). split; [reflexivity|]. exists lane.
    destruct (decide _); [|apply elem_of_nil in Ha; contradiction].
    apply list_elem_of_singleton in Ha. auto.
  - intros (_ & lane & Hlen & ->). exists lane. split.
    + destruct (decide _); [apply list_elem_of_singleton; reflexivity|lia].
    + destruct lane; unfold Lanes; rewrite !elem_of_cons; auto.
Qed.

Lemma elem_of_use_on_lanes (p : Player) (card : Card) (a : Action) :
  a ∈ (Lanes ≫= fun lane => use_on card (lane_of p lane)) <->
  exists lane t, t ∈ lane_of p lane /\
                 a = Use (instance_id card) (instance_id t).
Proof.
  rewrite list_elem_of_bind. split.
  - intros (lane & Ha & _). unfold use_on in Ha.
    apply list_elem_of_fmap in Ha as (t & -> & Ht). eauto.
  - intros (lane & t & Ht & ->). exists lane. split.
    + unfold use_on. apply list_elem_of_fmap. eauto.
    + destruct lane; unfold Lanes; rewrite !elem_of_cons; auto.
Qed.

Lemma elem_of_use_actions (s : State) (card : Card) (a : Action) :
  a ∈ use_actions s card <->
  match class card with
  | Creature => False
  | GreenItem =>
    exists lane t, t ∈ lane_of (current_player s) lane /\
                   a = Use (instance_id card) (instance_id t)
  | RedItem =>
    exists lane t, t ∈ lane_of (opposing_player s) lane /\
                   a = Use (instance_id card) (instance_id t)
  | BlueItem =>
    (exists lane t, t ∈ lane_of (opposing_player s) lane /\
                    a = Use (instance_id card) (instance_id t)) \/
    a = Use (instance_id card) None
  end.
Proof.
  unfold use_actions. destruct (class card).
  - apply elem_of_nil.
  - apply elem_of_use_on_lanes.
  - apply elem_of_use_on_lanes.
  - rewrite elem_of_app, elem_of_use_on_lanes, list_elem_of_singleton.
    reflexivity.
Qed.

Lemma elem_of_attack_actions (s : State) (lane : Lane) (a : Action) :
  a ∈ attack_actions s lane <->
  exists f vt,
    f ∈ lane_of (current_player s) lane /\ able_to_attack f = true /\
    a = Attack (instance_id f) vt /\
    ((~ has_guard (lane_of (opposing_player s) lane) /\
      (vt = None \/
       exists t, t ∈ lane_of (opposing_player s) lane /\ vt = instance_id t)) \/
     (exists g, g ∈ lane_of (opposing_player s) lane /\
                has_ability g "G" = true /\ vt = instance_id g)).
Proof.
  unfold attack_actions. rewrite list_elem_of_bind.
  set (o_lane := lane_of (opposing_player s) lane).
  assert (forall vt,
    vt ∈ match filter (fun c => has_ability c "G" = true) o_lane with
         | [] => (instance_id <$> o_lane) ++ [None]
         | _ :: _ => instance_id <$> filter (fun c => has_ability c "G" = true) o_lane
         end <->
    (~ has_guard o_lane /\
      (vt = None \/ exists t, t ∈ o_lane /\ vt = instance_id t)) \/
    (exists g, g ∈ o_lane /\ has_ability g "G" = true /\ vt = instance_id g))
    as Hvt.
  { intros vt.
    destruct (filter (fun c => has_ability c "G" = true) o_lane) as [|g0 gs] eqn:Hf.
    - pose proof (proj1 (filter_guard_nil _) Hf) as Hno.
      rewrite elem_of_app, list_elem_of_singleton, list_elem_of_fmap. split.
      + intros [(t & -> & Ht)| ->]; left; split; eauto.
      + intros [[_ [->|(t & Ht & ->)]]|(g & Hg & Hgd & _)]; eauto.
        exfalso. apply Hno. exists g. auto.
    - rewrite <- Hf, list_elem_of_fmap. split.
      + intros (g & -> & Hg). apply list_elem_of_filter in Hg as [Hgd Hg].
        right. eauto.
      + intros [[Hno _]|(g & Hg & Hgd & ->)].
        * apply filter_guard_nil in Hno. congruence.
        * exists g. split; [reflexivity|]. apply list_elem_of_filter. auto. }
  split.
  - intros (f & Ha & Hf). apply list_elem_of_filter in Hf as [Hable Hf].
    apply list_elem_of_fmap in Ha as (vt & -> & Hin).
    exists f, vt. repeat split; [exact Hf|exact Hable|]. apply Hvt, Hin.
  - intros (f & vt & Hf & Hable & -> & Hcond). exists f. split.
    + apply list_elem_of_fmap. exists vt. split; [reflexivity|]. apply Hvt, Hcond.
    + apply list_elem_of_filter. auto.
Qed.

Lemma elem_of_battle_actions (s : State) (a : Action) :
  a ∈ battle_actions s <->
  (exists card, card ∈ hand (current_player s) /\
                has_enough_mana (mana (current_player s)) card = true /\
                a ∈ summon_actions s card) \/
  (exists lane, a ∈ attack_actions s lane) \/
  (exists card, card ∈ hand (current_player s) /\
                has_enough_mana (mana (current_player s)) card = true /\
                a ∈ use_actions s card).
Proof.
  unfold battle_actions. rewrite !elem_of_app, !list_elem_of_bind.
  split.
  - intros [(card & Ha & Hc)|[(lane & Ha & _)|(card & Ha & Hc)]].
    + apply list_elem_of_filter in Hc as [Hm Hc]. left. eauto.
    + right. left. eauto.
    + apply list_elem_of_filter in Hc as [Hm Hc]. right. right. eauto.
  - intros [(card & Hc & Hm & Ha)|[(lane & Ha)|(card & Hc & Hm & Ha)]].
    + left. exists card. split; [exact Ha|]. apply list_elem_of_filter. auto.
    + right. left. exists lane. split; [exact Ha|].
      destruct lane; unfold Lanes; rewrite !elem_of_cons; auto.
    + right. right. exists card. split; [exact Ha|].
      apply list_elem_of_filter. auto.
Qed.

(** ** Instance ids name the cards of a ready state *)

(** Where the four lanes start inside [board]. *)
Definition board_index (s : State) (cur : bool) (lane : Lane) (i : nat) : nat :=
  match cur, lane with
  | true, LEFT => i
  | true, RIGHT => length (lane_of (current_player s) LEFT) + i
  | false, LEFT =>
    length (lane_of (current_player s) LEFT)
    + length (lane_of (current_player s) RIGHT) + i
  | false, RIGHT =>
    length (lane_of (current_player s) LEFT)
    + length (lane_of (current_player s) RIGHT)
    + length (lane_of (opposing_player s) LEFT) + i
  end%nat.

Definition side (s : State) (cur : bool) : Player :=
  if cur then current_player s else opposing_player s.

Lemma board_lookup (s : State) (cur : bool) (lane : Lane) (i : nat) (c : Card) :
  lane_of (side s cur) lane !! i = Some c ->
  board s !! board_index s cur lane i = Some c.
Proof.
  intros H. pose proof (lookup_lt_Some _ _ _ H) as Hi. unfold board.
  destruct cur, lane; cbn [side board_index] in *.
  - apply lookup_app_l_Some, H.
  - rewrite lookup_app_r by lia. apply lookup_app_l_Some.
    rewrite <- H. f_equal. lia.
  - rewrite lookup_app_r by lia. rewrite lookup_app_r by lia.
    apply lookup_app_l_Some. rewrite <- H. f_equal. lia.
  - rewrite lookup_app_r by lia. rewrite lookup_app_r by lia.
    rewrite lookup_app_r by lia. rewrite <- H. f_equal. lia.
Qed.

Lemma elem_of_board (s : State) (cur : bool) (lane : Lane) (c : Card) :
  c ∈ lane_of (side s cur) lane -> c ∈ board s.
Proof.
  intros H. apply list_elem_of_lookup in H as [i Hi].
  eapply list_elem_of_lookup_2, board_lookup, Hi.
Qed.

Section ReadyIds.

Variable s : State.
Hypothesis Hready : battle_ready s.

Lemma hand_id_Some (c : Card) :
  c ∈ hand (current_player s) -> instance_id c <> None.
Proof.
  intros Hc. pose proof (ready_ids s Hready) as H.
  rewrite Forall_forall in H. destruct (H c) as [x Hx]; [|congruence].
  apply elem_of_app. auto.
Qed.

Lemma board_id_Some (cur : bool) (lane : Lane) (c : Card) :
  c ∈ lane_of (side s cur) lane -> instance_id c <> None.
Proof.
  intros Hc. pose proof (ready_ids s Hready) as H.
  rewrite Forall_forall in H. destruct (H c) as [x Hx]; [|congruence].
  apply elem_of_app. right. eapply elem_of_board, Hc.
Qed.

Lemma hand_unique (h : nat) (c c' : Card) :
  hand (current_player s) !! h = Some c ->
  c' ∈ hand (current_player s) ->
  instance_id c' = instance_id c ->
  c' = c.
Proof.
  intros Hc Hc' Hid. apply list_elem_of_lookup in Hc' as [h' Hc'].
  assert (h' = h) as ->; [|congruence].
  apply (NoDup_lookup _ _ _ (instance_id c) (ready_hand_ids s Hready));
    rewrite list_lookup_fmap; [rewrite Hc'|rewrite Hc]; cbn; congruence.
Qed.

Lemma board_unique (cur cur' : bool) (lane lane' : Lane) (i i' : nat)
    (c c' : Card) :
  lane_of (side s cur) lane !! i = Some c ->
  lane_of (side s cur') lane' !! i' = Some c' ->
  instance_id c' = instance_id c ->
  cur' = cur /\ lane' = lane /\ i' = i /\ c' = c.
Proof.
  intros Hc Hc' Hid.
  pose proof (lookup_lt_Some _ _ _ Hc) as Hi.
  pose proof (lookup_lt_Some _ _ _ Hc') as Hi'.
  assert (board_index s cur' lane' i' = board_index s cur lane i) as Hpos.
  { apply (NoDup_lookup _ _ _ (instance_id c) (ready_board_ids s Hready));
      rewrite list_lookup_fmap;
      [rewrite (board_lookup _ _ _ _ _ Hc')|rewrite (board_lookup _ _ _ _ _ Hc)];
      cbn; congruence. }
  assert (cur' = cur /\ lane' = lane /\ i' = i) as (-> & -> & ->).
  { destruct cur, cur', lane, lane'; cbn [side board_index] in *;
      repeat split; first [reflexivity | lia]. }
  repeat split. congruence.
Qed.

Lemma board_unique_elem (cur cur' : bool) (lane lane' : Lane) (c c' : Card) :
  c ∈ lane_of (side s cur) lane ->
  c' ∈ lane_of (side s cur') lane' ->
  instance_id c' = instance_id c ->
  cur' = cur /\ lane' = lane /\ c' = c.
Proof.
  intros Hc Hc' Hid.
  apply list_elem_of_lookup in Hc as [i Hc], Hc' as [i' Hc'].
  destruct (board_unique _ _ _ _ _ _ _ _ Hc Hc' Hid) as (? & ? & ? & ?). auto.
Qed.

End ReadyIds.

(** ** Legal slots and legal actions *)

Lemma board_slot_elem (p : Player) (k : nat) (c : Card) :
  board_slot p k = Some c -> c ∈ lane_of p (lane_of_slot k).
Proof. unfold board_slot. apply list_elem_of_lookup_2. Qed.

Lemma Summon_inj (o o' : option Z) (lane lane' : Lane) :
  Summon o lane = Summon o' lane' -> o = o' /\ lane = lane'.
Proof.
  unfold Summon. intros [= -> H]. split; [reflexivity|].
  destruct lane, lane'; first [reflexivity | discriminate].
Qed.

Section ReadyActions.

Variable s : State.
Hypothesis Hready : battle_ready s.

Ltac other_kinds H :=
  first
    [ apply elem_of_summon_actions in H as (_ & ? & _ & H); discriminate H
    | apply elem_of_attack_actions in H as (? & ? & _ & _ & H & _);
      discriminate H
    | apply elem_of_use_actions in H;
      match type of H with
      | match ?c with _ => _ end => destruct c
      end;
      [contradiction
      |destruct H as (? & ? & _ & H); discriminate H
      |destruct H as (? & ? & _ & H); discriminate H
      |destruct H as [(? & ? & _ & H)|H]; discriminate H] ].

Lemma summon_legal_action (h : nat) (lane : Lane) :
  slot_legal s (SlotSummon h lane) <->
  exists a, slot_action s (SlotSummon h lane) = Some a /\ a ∈ battle_actions s.
Proof.
  cbn [slot_legal slot_action]. split.
  - intros (card & Hcard & Hm & Hcl & Hlen). rewrite Hcard. cbn.
    eexists. split; [reflexivity|].
    apply elem_of_battle_actions. left. exists card.
    split; [eapply list_elem_of_lookup_2, Hcard|]. split; [exact Hm|].
    apply elem_of_summon_actions. eauto.
  - intros (a & Ha & Hin).
    destruct (hand (current_player s) !! h) as [card|] eqn:Hcard;
      [|discriminate]. cbn in Ha. injection Ha as <-.
    apply elem_of_battle_actions in Hin
      as [(card' & Hc' & Hm & Hs)|[(l & Hatt)|(card' & Hc' & Hm & Hu)]].
    + apply elem_of_summon_actions in Hs as (Hcl & lane' & Hlen & Heq).
      apply Summon_inj in Heq as [Hid <-].
      assert (card' = card) as -> by (eapply hand_unique; eauto).
      exists card. auto.
    + other_kinds Hatt.
    + other_kinds Hu.
Qed.

Lemma use_legal_action (h sub : nat) :
  (sub < 13)%nat ->
  slot_legal s (SlotUse h sub) <->
  exists a, slot_action s (SlotUse h sub) = Some a /\ a ∈ battle_actions s.
Proof.
  intros Hsub. cbn [slot_legal slot_action]. split.
  - intros (card & Hcard & Hm & Hlegal). rewrite Hcard. cbn.
    assert (forall a, a ∈ use_actions s card -> a ∈ battle_actions s) as Hin.
    { intros a Ha. apply elem_of_battle_actions. right. right. exists card.
      split; [eapply list_elem_of_lookup_2, Hcard|]. auto. }
    destruct (class card) eqn:Hcl; cbn [use_legal] in Hlegal.
    + contradiction.
    + destruct Hlegal as [Hs [t Ht]].
      destruct (decide (sub = 0)%nat); [lia|].
      destruct (decide (sub < 7)%nat); [|lia]. rewrite Ht. cbn.
      eexists. split; [reflexivity|]. apply Hin, elem_of_use_actions.
      rewrite Hcl. exists (lane_of_slot (sub - 1)), t.
      split; [apply board_slot_elem, Ht|reflexivity].
    + destruct Hlegal as [Hs [t Ht]].
      destruct (decide (sub = 0)%nat); [lia|].
      destruct (decide (sub < 7)%nat); [lia|]. rewrite Ht. cbn.
      eexists. split; [reflexivity|]. apply Hin, elem_of_use_actions.
      rewrite Hcl. exists (lane_of_slot (sub - 7)), t.
      split; [apply board_slot_elem, Ht|reflexivity].
    + destruct Hlegal as [->|[Hs [t Ht]]].
      * cbn. eexists. split; [reflexivity|]. apply Hin, elem_of_use_actions.
        rewrite Hcl. right. reflexivity.
      * destruct (decide (sub = 0)%nat); [lia|].
        destruct (decide (sub < 7)%nat); [lia|]. rewrite Ht. cbn.
        eexists. split; [reflexivity|]. apply Hin, elem_of_use_actions.
        rewrite Hcl. left. exists (lane_of_slot (sub - 7)), t.
        split; [apply board_slot_elem, Ht|reflexivity].
  - intros (a & Ha & Hin).
    destruct (hand (current_player s) !! h) as [card|] eqn:Hcard;
      [|discriminate]. cbn in Ha.
    apply elem_of_battle_actions in Hin
      as [(card' & Hc' & Hm & Hs)|[(l & Hatt)|(card' & Hc' & Hm & Hu)]].
    + destruct (decide (sub = 0)%nat);
        [|destruct (if decide (sub < 7)%nat then _ else _); cbn in Ha];
        try discriminate; injection Ha as <-; other_kinds Hs.
    + destruct (decide (sub = 0)%nat);
        [|destruct (if decide (sub < 7)%nat then _ else _); cbn in Ha];
        try discriminate; injection Ha as <-; other_kinds Hatt.
    + exists card. split; [reflexivity|].
      assert (forall tgt, a = Use (instance_id card) tgt ->
                card' = card) as Hsame.
      { intros tgt ->. eapply hand_unique; eauto.
        apply elem_of_use_actions in Hu. destruct (class card');
          [contradiction
          |destruct Hu as (? & ? & _ & [= ? _]); congruence
          |destruct Hu as (? & ? & _ & [= ? _]); congruence
          |destruct Hu as [(? & ? & _ & [= ? _])|[= ? ]]; congruence]. }
      destruct (decide (sub = 0)%nat) as [->|Hne].
      * injection Ha as <-. rewrite (Hsame None eq_refl) in Hm, Hu.
        split; [exact Hm|]. apply elem_of_use_actions in Hu.
        destruct (class card); cbn [use_legal].
        -- contradiction.
        -- destruct Hu as (l & t & Ht & [= Hid]).
           exfalso. eapply (board_id_Some s Hready true); eauto.
        -- destruct Hu as (l & t & Ht & [= Hid]).
           exfalso. eapply (board_id_Some s Hready false); eauto.
        -- left. reflexivity.
      * destruct (decide (sub < 7)%nat) as [Hlt|Hge].
        -- destruct (board_slot (current_player s) (sub - 1)) as [t|] eqn:Ht;
             [|discriminate]. cbn in Ha. injection Ha as <-.
           rewrite (Hsame _ eq_refl) in Hm, Hu. split; [exact Hm|].
           apply board_slot_elem in Ht as Ht'.
           apply elem_of_use_actions in Hu.
           destruct (class card); cbn [use_legal].
           ++ contradiction.
           ++ split; [lia|]. rewrite Ht. eauto.
           ++ destruct Hu as (l & t' & Ht'' & [= Hid]).
              destruct (board_unique_elem s Hready true false _ _ _ _ Ht' Ht''
                          (eq_sym Hid)) as [? _]. discriminate.
           ++ destruct Hu as [(l & t' & Ht'' & [= Hid])|[= Hid]].
              ** destruct (board_unique_elem s Hready true false _ _ _ _ Ht' Ht''
                             (eq_sym Hid)) as [? _]. discriminate.
              ** exfalso. eapply (board_id_Some s Hready true); eauto.
        -- destruct (board_slot (opposing_player s) (sub - 7)) as [t|] eqn:Ht;
             [|discriminate]. cbn in Ha. injection Ha as <-.
           rewrite (Hsame _ eq_refl) in Hm, Hu. split; [exact Hm|].
           apply board_slot_elem in Ht as Ht'.
           apply elem_of_use_actions in Hu.
           destruct (class card); cbn [use_legal].
           ++ contradiction.
           ++ destruct Hu as (l & t' & Ht'' & [= Hid]).
              destruct (board_unique_elem s Hready false true _ _ _ _ Ht' Ht''
                          (eq_sym Hid)) as [? _]. discriminate.
           ++ split; [lia|]. rewrite Ht. eauto.
           ++ right. split; [lia|]. rewrite Ht. eauto.
Qed.

Lemma attack_legal_action (k sub : nat) :
  slot_legal s (SlotAttack k sub) <->
  exists a, slot_action s (SlotAttack k sub) = Some a /\ a ∈ battle_actions s.
Proof.
  cbn [slot_legal slot_action].
  set (o_lane := lane_of (opposing_player s) (lane_of_slot k)). split.
  - intros (f & Hf & Hable & Hlegal). rewrite Hf. cbn.
    apply board_slot_elem in Hf as Hf'.
    assert (forall vt,
      ((~ has_guard o_lane /\
        (vt = None \/ exists t, t ∈ o_lane /\ vt = instance_id t)) \/
       (exists g, g ∈ o_lane /\ has_ability g "G" = true /\ vt = instance_id g)) ->
      Attack (instance_id f) vt ∈ battle_actions s) as Hin.
    { intros vt Hvt. apply elem_of_battle_actions. right. left.
      exists (lane_of_slot k). apply elem_of_attack_actions.
      exists f, vt. auto. }
    destruct Hlegal as [[Hno [->|[Hs [t Ht]]]]|(g & Hs & Hg & Hgd)].
    + cbn. eexists. split; [reflexivity|]. apply Hin. left. auto.
    + destruct (decide (sub = 0)%nat); [lia|]. rewrite Ht. cbn.
      eexists. split; [reflexivity|]. apply Hin. left. split; [exact Hno|].
      right. exists t. split; [eapply list_elem_of_lookup_2, Ht|reflexivity].
    + destruct (decide (sub = 0)%nat); [lia|]. fold o_lane. rewrite Hg. cbn.
      eexists. split; [reflexivity|]. apply Hin. right. exists g.
      split; [eapply list_elem_of_lookup_2, Hg|]. auto.
  - intros (a & Ha & Hin).
    destruct (board_slot (current_player s) k) as [f|] eqn:Hf; [|discriminate].
    cbn in Ha. apply board_slot_elem in Hf as Hf'.
    apply elem_of_battle_actions in Hin
      as [(card' & Hc' & Hm & Hs)|[(l & Hatt)|(card' & Hc' & Hm & Hu)]].
    + destruct (decide (sub = 0)%nat);
        [|destruct (o_lane !! _); cbn in Ha];
        try discriminate; injection Ha as <-; other_kinds Hs.
    + exists f. split; [reflexivity|].
      apply elem_of_attack_actions in Hatt
        as (f' & vt & Hf'' & Hable & Heq & Hcond).
      assert (forall tgt, a = Attack (instance_id f) tgt ->
                l = lane_of_slot k /\ f' = f /\ vt = tgt) as Hsame.
      { intros tgt ->. injection Heq as Hid ->.
        destruct (board_unique_elem s Hready true true _ _ _ _ Hf' Hf''
                    (eq_sym Hid)) as (_ & -> & ->). auto. }
      destruct (decide (sub = 0)%nat) as [->|Hne].
      * injection Ha as <-. destruct (Hsame None eq_refl) as (-> & -> & ->).
        split; [exact Hable|]. fold o_lane in Hcond.
        destruct Hcond as [[Hno _]|(g & Hg & _ & Hid)].
        -- left. auto.
        -- exfalso. eapply (board_id_Some s Hready false); eauto.
      * destruct (o_lane !! (sub - 1)%nat) as [t|] eqn:Ht; [|discriminate].
        cbn in Ha. injection Ha as <-.
        destruct (Hsame _ eq_refl) as (-> & -> & ->).
        split; [exact Hable|]. fold o_lane in Hcond, Ht.
        destruct Hcond as [[Hno _]|(g & Hg & Hgd & Hid)].
        -- left. split; [exact Hno|]. right. split; [lia|]. rewrite Ht. eauto.
        -- right. exists t. repeat split; [lia|exact Ht|].
           apply list_elem_of_lookup_2 in Ht.
           destruct (board_unique_elem s Hready false false _ _ _ _ Hg Ht Hid)
             as (_ & _ & ->). exact Hgd.
    + destruct (decide (sub = 0)%nat);
        [|destruct (o_lane !! _); cbn in Ha];
        try discriminate; injection Ha as <-; other_kinds Hu.
Qed.

Lemma slot_legal_action (sl : Slot) :
  valid_slot sl = true -> sl <> SlotPass ->
  slot_legal s sl <->
  exists a, slot_action s sl = Some a /\ a ∈ battle_actions s.
Proof.
  intros Hvalid Hne. destruct sl as [|h lane|h sub|k sub]; cbn in Hvalid.
  - contradiction.
  - apply summon_legal_action.
  - apply andb_true_iff in Hvalid as [_ H2].
    apply bool_decide_eq_true in H2. apply use_legal_action, H2.
  - apply attack_legal_action.
Qed.

End ReadyActions.

(** ** The mask of a ready state *)

Section ReadyMask.

Variable s : State.
Hypothesis Hready : battle_ready s.

Lemma bits_in_range :
  Forall (fun k => (k < 145)%nat) (0%nat :: hand_bits s ++ board_bits s).
Proof.
  pose proof (ready_lanes s Hready LEFT) as [? ?].
  pose proof (ready_lanes s Hready RIGHT) as [? ?].
  apply Forall_cons. split; [lia|]. apply Forall_forall. intros k Hk.
  apply elem_of_app in Hk as [Hk|Hk].
  - apply elem_of_hand_bits in Hk as (h & card & Hcard & _ & Hk).
    pose proof (ready_hand_lt s Hready _ _ Hcard).
    destruct (class card); cbn [check_playability] in Hk.
    + apply elem_of_validate_creature in Hk. lia.
    + apply elem_of_validate_green_item in Hk. lia.
    + apply elem_of_validate_red_item in Hk. lia.
    + apply elem_of_validate_blue_item in Hk as [Hk|Hk];
        [apply elem_of_validate_red_item in Hk|]; lia.
  - apply elem_of_board_bits in Hk as (l & i & f & Hf & Hk).
    pose proof (ready_cur_lane_lt s Hready _ _ _ Hf).
    destruct (ready_lanes s Hready l) as [_ ?].
    apply elem_of_creature_bits in Hk as [_ [[_ Hk]|(j & g & Hj & _ & Hk)]].
    + destruct l; cbn [lane_offset] in Hk; lia.
    + pose proof (ready_opp_lane_lt s Hready _ _ _ Hj).
      destruct l; cbn [lane_offset] in Hk; lia.
Qed.

Lemma action_mask_spec (with_items : bool) :
  items s = Some with_items ->
  exists mask,
    action_mask s = inr mask /\
    length mask = mask_length with_items /\
    forall i, (i < mask_length with_items)%nat ->
      mask !! i =
        Some (if bool_decide (full_index with_items i
                                ∈ 0%nat :: hand_bits s ++ board_bits s)
              then 1 else 0).
Proof.
  intros Hitems. unfold action_mask.
  rewrite (ready_phase s Hready), Hitems.
  destruct (set_bits_spec (0%nat :: hand_bits s ++ board_bits s)
              (replicate 145 0)) as (m & -> & Hlen & Hbits).
  { rewrite length_replicate. apply bits_in_range. }
  rewrite length_replicate in Hlen, Hbits.
  assert (forall i, (i < 145)%nat ->
            m !! i = Some (if bool_decide (i ∈ 0%nat :: hand_bits s ++ board_bits s)
                           then 1 else 0)) as Hfull.
  { intros i Hi. rewrite (Hbits i Hi). destruct (bool_decide _); [reflexivity|].
    apply lookup_replicate_2, Hi. }
  destruct with_items; cbn [mask_length full_index].
  - exists m. repeat split; [exact Hlen|exact Hfull].
  - exists (take 17 m ++ drop (length m - 24) m). split; [reflexivity|].
    split.
    + rewrite length_app, length_take, length_drop. lia.
    + intros i Hi. destruct (decide (i < 17)%nat) as [Hlt|Hge].
      * rewrite lookup_app_l by (rewrite length_take; lia).
        rewrite lookup_take_lt by exact Hlt. apply Hfull. lia.
      * rewrite lookup_app_r by (rewrite length_take; lia).
        rewrite length_take, lookup_drop, Hlen.
        replace (145 - 24 + (i - 17 `min` 145))%nat with (i + 104)%nat by lia.
        apply Hfull. lia.
Qed.

End ReadyMask.

Lemma battle_actions_not_pass (s : State) (a : Action) :
  a ∈ battle_actions s -> atype a <> PASS.
Proof.
  intros H. apply elem_of_battle_actions in H
    as [(card & _ & _ & H)|[(lane & H)|(card & _ & _ & H)]].
  - apply elem_of_summon_actions in H as (_ & lane & _ & ->). discriminate.
  - apply elem_of_attack_actions in H as (f & vt & _ & _ & -> & _). discriminate.
  - apply elem_of_use_actions in H. destruct (class card).
    + contradiction.
    + destruct H as (? & ? & _ & ->). discriminate.
    + destruct H as (? & ? & _ & ->). discriminate.
    + destruct H as [(? & ? & _ & ->)| ->]; discriminate.
Qed.

Lemma available_actions_battle (s : State) (a : Action) :
  phase s = BATTLE -> atype a <> PASS ->
  a ∈ available_actions s <-> a ∈ battle_actions s.
Proof.
  intros Hphase Ha. unfold available_actions. rewrite Hphase.
  destruct (battle_actions s) as [|b l]; [|reflexivity].
  rewrite list_elem_of_singleton, elem_of_nil. split; [|contradiction].
  intros ->. apply Ha. reflexivity.
Qed.

Lemma pass_available (s : State) :
  phase s = BATTLE ->
  Pass ∈ available_actions s <-> available_actions s = [Pass].
Proof.
  intros Hphase. unfold available_actions. rewrite Hphase.
  destruct (battle_actions s) as [|b l] eqn:Hl.
  - split; [reflexivity|]. intros _. apply list_elem_of_singleton. reflexivity.
  - assert (Pass ∉ b :: l) as Hno.
    { rewrite <- Hl. intros H. apply battle_actions_not_pass in H.
      apply H. reflexivity. }
    split; [contradiction|]. intros Heq. exfalso. apply Hno. rewrite Heq.
    apply list_elem_of_singleton. reflexivity.
Qed.

Lemma slot_action_not_pass (s : State) (sl : Slot) (a : Action) :
  sl <> SlotPass -> slot_action s sl = Some a -> atype a <> PASS.
Proof.
  intros Hne H. destruct sl as [|h lane|h sub|k sub]; cbn [slot_action] in H.
  - contradiction.
  - destruct (hand _ !! h); [|discriminate]. cbn in H. injection H as <-.
    discriminate.
  - destruct (hand _ !! h); [|discriminate]. cbn in H.
    destruct (decide (sub = 0)%nat); [injection H as <-; discriminate|].
    destruct (if decide (sub < 7)%nat then _ else _); [|discriminate].
    cbn in H. injection H as <-. discriminate.
  - destruct (board_slot _ k); [|discriminate]. cbn in H.
    destruct (decide (sub = 0)%nat); [injection H as <-; discriminate|].
    destruct (_ !! _); [|discriminate].
    cbn in H. injection H as <-. discriminate.
Qed.

(** A mask position other than 0 is set exactly when its canonical action
    is in the list. *)
Lemma bit_matches_action (s : State) (n : nat) :
  battle_ready s -> (1 <= n < 145)%nat ->
  n ∈ 0%nat :: hand_bits s ++ board_bits s <->
  exists a, canonical_full s n = Some a /\ a ∈ available_actions s.
Proof.
  intros Hready Hn.
  destruct (slot_of_index_lt n) as (sl & Hsl & Hidx & Hvalid); [lia|].
  assert (sl <> SlotPass) as Hne by (intros ->; cbn in Hidx; lia).
  unfold canonical_full. rewrite Hsl. cbn.
  rewrite elem_of_cons. rewrite <- Hidx at 2.
  rewrite (bits_slot_legal s Hready sl Hvalid Hne).
  rewrite (slot_legal_action s Hready sl Hvalid Hne).
  split.
  - intros [->|(a & Ha & Hin)]; [lia|]. exists a. split; [exact Ha|].
    apply available_actions_battle;
      [apply (ready_phase s Hready)|eapply slot_action_not_pass; eauto|exact Hin].
  - intros (a & Ha & Hin). right. exists a. split; [exact Ha|].
    apply available_actions_battle in Hin;
      [exact Hin|apply (ready_phase s Hready)|eapply slot_action_not_pass; eauto].
Qed.

(** In a ready battle state the mask has 145 entries with items enabled
    and 41 with items disabled; every entry is 0 or 1; for every position
    other than 0 the entry is 1 exactly when the canonical action of the
    position is in the list of legal actions of the same state; entry 0, the
    position of Pass, is always 1, while Pass is in the list only when it is
    the only legal action. *)
Lemma mask_matches_actions_ready (s : State) (with_items : bool) :
  battle_ready s ->
  items s = Some with_items ->
  exists mask,
    action_mask s = inr mask /\
    length mask = (if with_items then 145 else 41)%nat /\
    mask !! 0%nat = Some 1 /\
    canonical_action s with_items 0 = Some Pass /\
    (forall i, (1 <= i < length mask)%nat ->
       (mask !! i = Some 1 \/ mask !! i = Some 0) /\
       (mask !! i = Some 1 <->
        exists a, canonical_action s with_items i = Some a /\
                  a ∈ available_actions s)) /\
    (Pass ∈ available_actions s <-> available_actions s = [Pass]).
Proof.
  intros Hready Hitems.
  destruct (action_mask_spec s Hready with_items Hitems)
    as (mask & Hmask & Hlen & Hbits).
  exists mask. split; [exact Hmask|]. split; [exact Hlen|].
  split; [|split; [|split]].
  - rewrite Hbits by (destruct with_items; cbn; lia).
    rewrite bool_decide_eq_true_2; [reflexivity|].
    destruct with_items; cbn; left.
  - destruct with_items; reflexivity.
  - intros i Hi. rewrite Hlen in Hi.
    assert (1 <= full_index with_items i < 145)%nat as Hn.
    { destruct with_items; cbn [full_index mask_length] in *; [lia|].
      destruct (decide (i < 17)%nat); lia. }
    rewrite (Hbits i) by lia.
    assert (canonical_action s with_items i
            = canonical_full s (full_index with_items i)) as ->.
    { unfold canonical_action. destruct (decide _); [reflexivity|lia]. }
    rewrite <- (bit_matches_action s _ Hready Hn).
    destruct (bool_decide_reflect
                (full_index with_items i ∈ 0%nat :: hand_bits s ++ board_bits s))
      as [Hin|Hnin].
    + split; [left; reflexivity|]. split; auto.
    + split; [right; reflexivity|]. split; [discriminate|contradiction].
  - apply pass_available, (ready_phase s Hready).
Qed.

Lemma sample_battle_ready : battle_ready sample_battle.
Proof.
  split.
  - reflexivity.
  - cbn. lia.
  - intros []; cbn; lia.
  - repeat constructor; eexists; reflexivity.
  - apply (bool_decide_unpack _). vm_compute. exact I.
  - apply (bool_decide_unpack _). vm_compute. exact I.
  - repeat constructor.
Qed.


(** ** Guard *)

(** ** Objects stay where they are during combat *)

Lemma cards_at_set_cards_at (loc loc' : Location) (v : list Card) (s : State) :
  cards_at (set_cards_at loc v s) loc' =
  if decide (loc = loc') then v else cards_at s loc'.
Proof.
  destruct loc, loc'; cbn [set_cards_at cards_at];
    rewrite ?current_player_set_current, ?opposing_player_set_current,
      ?current_player_set_opposing, ?opposing_player_set_opposing;
    destruct (decide _); try congruence; reflexivity.
Qed.

Lemma cards_at_set_current (p : Player) (loc : Location) (s : State) :
  hand p = hand (current_player s) -> lanes p = lanes (current_player s) ->
  cards_at (set_current p s) loc = cards_at s loc.
Proof.
  intros Hh Hl. destruct loc; cbn [cards_at]; unfold lane_of;
    rewrite ?current_player_set_current, ?opposing_player_set_current;
    congruence.
Qed.

Lemma cards_at_set_opposing (p : Player) (loc : Location) (s : State) :
  hand p = hand (opposing_player s) -> lanes p = lanes (opposing_player s) ->
  cards_at (set_opposing p s) loc = cards_at s loc.
Proof.
  intros Hh Hl. destruct loc; cbn [cards_at]; unfold lane_of;
    rewrite ?current_player_set_opposing, ?opposing_player_set_opposing;
    congruence.
Qed.

(** Every container has the same number of cards in both states. *)
Definition same_shape (s s' : State) : Prop :=
  forall loc, length (cards_at s' loc) = length (cards_at s loc).

Lemma same_shape_deref (s s' : State) (r : CardRef) :
  same_shape s s' -> is_Some (deref s r) -> is_Some (deref s' r).
Proof.
  unfold deref. intros Hshape. rewrite !lookup_lt_is_Some, Hshape. auto.
Qed.

Lemma same_shape_modify (r : CardRef) (g : Card -> Card) (s : State) :
  same_shape s (modify r g s).
Proof.
  intros loc. unfold modify. rewrite cards_at_set_cards_at.
  destruct (decide (fst r = loc)) as [<-|]; [apply length_alter|reflexivity].
Qed.

Section Succeeds.

(** The two objects of an attack. *)
Variables r tr : CardRef.

Definition both_held (s : State) : Prop :=
  is_Some (deref s r) /\ is_Some (deref s tr).

Definition succeeds {A} (m : M A) : Prop :=
  forall s, both_held s -> exists s' a, m s = (s', inr a) /\ both_held s'.

Lemma both_held_shape (s s' : State) :
  same_shape s s' -> both_held s -> both_held s'.
Proof. intros Hs [H1 H2]. split; eapply same_shape_deref; eauto. Qed.

Lemma succeeds_ret {A} (a : A) : succeeds (ret a).
Proof. intros s Hs. exists s, a. auto. Qed.

Lemma succeeds_bind {A B} (m : M A) (k : A -> M B) :
  succeeds m -> (forall a, succeeds (k a)) -> succeeds (m ≫= k).
Proof.
  intros Hm Hk s Hs. destruct (Hm s Hs) as (s1 & a & Hms & Hs1).
  unfold mbind, M_bind, bind. rewrite Hms. apply Hk, Hs1.
Qed.

Lemma succeeds_obj (r' : CardRef) : r' = r \/ r' = tr -> succeeds (obj r').
Proof.
  intros Hr s Hs. unfold obj.
  assert (is_Some (deref s r')) as [c Hc]
    by (destruct Hr as [->| ->]; apply Hs).
  rewrite Hc. exists s, c. auto.
Qed.

Lemma succeeds_update (f : State -> State) :
  (forall s, same_shape s (f s)) -> succeeds (update f).
Proof.
  intros Hf s Hs. exists (f s), tt. split; [reflexivity|].
  eapply both_held_shape; [apply Hf|exact Hs].
Qed.

Lemma succeeds_modify (r' : CardRef) (g : Card -> Card) :
  succeeds (update (modify r' g)).
Proof. apply succeeds_update. intros s. apply same_shape_modify. Qed.

Lemma succeeds_damage_creature (r' : CardRef) (amount : Z) (lethal : bool) :
  r' = r \/ r' = tr -> succeeds (damage_creature r' amount lethal).
Proof.
  intros Hr. unfold damage_creature.
  apply succeeds_bind; [apply succeeds_obj, Hr|]. intros c.
  destruct (Creature_damage c amount lethal) as [c' [e|z]];
    (apply succeeds_bind; [apply succeeds_modify|intros _; apply succeeds_ret]).
Qed.

Lemma succeeds_damage_opposing (amount : Z) :
  succeeds (damage_opposing amount).
Proof.
  intros s Hs. unfold damage_opposing.
  destruct (Player_damage_shape (opposing_player s) amount) as (k & _ & _ & Hp).
  destruct (Player_damage (opposing_player s) amount) as [p dealt].
  cbn [fst] in Hp. exists (set_opposing p s), dealt. split; [reflexivity|].
  eapply both_held_shape; [|exact Hs].
  intros loc. rewrite cards_at_set_opposing; [reflexivity|rewrite Hp..];
    reflexivity.
Qed.

Lemma succeeds_heal (amount : Z) :
  succeeds (update_current (fun p => set_health (health p + amount) p)).
Proof.
  apply succeeds_update. intros s loc.
  rewrite cards_at_set_current; reflexivity.
Qed.

Lemma succeeds_when (b : bool) (m : M unit) : succeeds m -> succeeds (when b m).
Proof. intros H. destruct b; [exact H|apply succeeds_ret]. Qed.

(** Once the checks of [_do_attack] are passed, the attack on a creature
    goes through. *)
Lemma combat_succeeds (o t : Card) :
  class t = Creature -> succeeds (combat r o (Some (tr, t))).
Proof.
  intros Hclass. unfold combat. rewrite Hclass. cbn [bool_decide negb].
  rewrite bool_decide_eq_true_2 by reflexivity. cbn [negb].
  repeat first
    [ apply succeeds_ret
    | apply succeeds_obj; auto
    | apply succeeds_damage_creature; auto
    | apply succeeds_damage_opposing
    | apply succeeds_heal
    | apply succeeds_modify
    | apply succeeds_when
    | apply succeeds_bind; [|intros ?] ].
Qed.

End Succeeds.

(** ** Python membership on card lists *)

Lemma py_index_from_self (j i : nat) (x : Card) (l : list Card) :
  is_Some (l !! i) -> is_Some (py_index_from j (Some (j + i)%nat) x l).
Proof.
  revert j i. induction l as [|e l IH]; intros j i [c Hc]; [discriminate|].
  cbn [py_index_from]. destruct (py_same _ x j e) eqn:Hsame; [eauto|].
  destruct i as [|i].
  - unfold py_same in Hsame. rewrite Nat.add_0_r in Hsame.
    rewrite bool_decide_eq_true_2 in Hsame by reflexivity. discriminate.
  - replace (j + S i)%nat with (S j + i)%nat by lia. apply IH. eauto.
Qed.

Lemma py_in_self (i : nat) (x : Card) (l : list Card) :
  is_Some (l !! i) -> py_in (Some i) x l = true.
Proof.
  intros H. unfold py_in, py_index. apply bool_decide_eq_true.
  apply (py_index_from_self 0 i x l H).
Qed.

Lemma py_index_from_none (j : nat) (x : Card) (l : list Card) :
  (forall e, e ∈ l -> card_eq e x = false) ->
  py_index_from j None x l = None.
Proof.
  revert j. induction l as [|e l IH]; intros j H; [reflexivity|].
  cbn [py_index_from]. unfold py_same.
  rewrite bool_decide_eq_false_2 by discriminate.
  rewrite (H e) by left. cbn. apply IH. intros e' He'. apply H. right. exact He'.
Qed.

Lemma py_in_none (x : Card) (l : list Card) :
  (forall e, e ∈ l -> card_eq e x = false) -> py_in None x l = false.
Proof.
  intros H. unfold py_in, py_index. rewrite py_index_from_none by exact H.
  apply bool_decide_eq_false. intros [? ?]. discriminate.
Qed.

Lemma card_eq_true (e x : Card) :
  card_eq e x = true -> instance_id e = instance_id x.
Proof.
  unfold card_eq. destruct (instance_id e), (instance_id x); try discriminate.
  intros H. apply bool_decide_eq_true in H. congruence.
Qed.

Lemma cards_at_player_lane (s : State) (lane : Lane) :
  cards_at s (player_lane_loc lane) = lane_of (current_player s) lane.
Proof. destruct lane; reflexivity. Qed.

Lemma cards_at_enemy_lane (s : State) (lane : Lane) :
  cards_at s (enemy_lane_loc lane) = lane_of (opposing_player s) lane.
Proof. destruct lane; reflexivity. Qed.

Lemma bind_eq {A B} (m : M A) (k : A -> M B) (s s' : State) (a : A) :
  m s = (s', inr a) -> (m ≫= k) s = k a s'.
Proof. intros H. unfold mbind, M_bind, bind. rewrite H. reflexivity. Qed.

Lemma obj_eq (r : CardRef) (s : State) (c : Card) :
  deref s r = Some c -> obj r s = (s, inr c).
Proof. intros H. unfold obj. rewrite H. reflexivity. Qed.

Section Guard.

Variable s : State.
Hypothesis Hready : battle_ready s.
Variables (lane : Lane) (i : nat) (f : Card).
Hypothesis Hf : lane_of (current_player s) lane !! i = Some f.
Hypothesis Hguard : has_guard (lane_of (opposing_player s) lane).

Let o_lane := lane_of (opposing_player s) lane.

Lemma guard_enumeration (tgt : option Z) :
  able_to_attack f = true ->
  Attack (instance_id f) tgt ∈ available_actions s <->
  exists g, g ∈ o_lane /\ has_ability g "G" = true /\ tgt = instance_id g.
Proof.
  intros Hable.
  rewrite available_actions_battle;
    [|apply (ready_phase s Hready)|discriminate].
  rewrite elem_of_battle_actions. split.
  - intros [(card & _ & _ & H)|[(l & H)|(card & _ & _ & H)]].
    + apply elem_of_summon_actions in H as (_ & ? & _ & H). discriminate H.
    + apply elem_of_attack_actions in H as (f' & vt & Hf' & _ & Heq & Hcond).
      injection Heq as Hid ->.
      apply list_elem_of_lookup_2 in Hf as Hfin.
      destruct (board_unique_elem s Hready true true _ _ _ _ Hfin Hf'
                  (eq_sym Hid)) as (_ & -> & _).
      destruct Hcond as [[Hno _]|Hg]; [contradiction|exact Hg].
    + apply elem_of_use_actions in H. destruct (class card).
      * contradiction.
      * destruct H as (? & ? & _ & H). discriminate H.
      * destruct H as (? & ? & _ & H). discriminate H.
      * destruct H as [(? & ? & _ & H)|H]; discriminate H.
  - intros Hg. right. left. exists lane. apply elem_of_attack_actions.
    exists f, tgt. repeat split; [eapply list_elem_of_lookup_2, Hf|exact Hable|].
    right. exact Hg.
Qed.

Lemma guard_mask (with_items : bool) (sub : nat) :
  items s = Some with_items -> able_to_attack f = true -> (sub < 4)%nat ->
  exists mask,
    action_mask s = inr mask /\
    let bit :=
      mask !! (attack_base with_items + (i + lane_offset lane) * 4 + sub)%nat in
    (bit = Some 1 \/ bit = Some 0) /\
    (bit = Some 1 <->
     (1 <= sub)%nat /\
     exists g, o_lane !! (sub - 1)%nat = Some g /\ has_ability g "G" = true).
Proof.
  intros Hitems Hable Hsub.
  destruct (action_mask_spec s Hready with_items Hitems)
    as (mask & Hmask & Hlen & Hbits).
  exists mask. split; [exact Hmask|]. cbv zeta.
  pose proof (ready_cur_lane_lt s Hready _ _ _ Hf) as Hi.
  assert (lane_offset lane + i < 6)%nat as Hk by (destruct lane; cbn; lia).
  rewrite Hbits by (destruct with_items, lane; cbn; lia).
  assert (full_index with_items
            (attack_base with_items + (i + lane_offset lane) * 4 + sub)
          = index_of_slot (SlotAttack (lane_offset lane + i) sub)) as ->.
  { destruct with_items; cbn [full_index attack_base index_of_slot]; [lia|].
    destruct (decide _); lia. }
  assert (index_of_slot (SlotAttack (lane_offset lane + i) sub)
            ∈ 0%nat :: hand_bits s ++ board_bits s <->
          (1 <= sub)%nat /\
          exists g, o_lane !! (sub - 1)%nat = Some g /\
                    has_ability g "G" = true) as Hiff.
  { rewrite elem_of_cons.
    rewrite (attack_bit_legal s Hready _ _ Hk Hsub).
    cbn [slot_legal]. rewrite lane_of_slot_offset by exact Hi. fold o_lane.
    split.
    - intros [Hz|(f' & _ & _ & [[Hno _]|(g & Hs & Hg & Hgd)])].
      + cbn in Hz. lia.
      + contradiction.
      + split; [exact Hs|]. eauto.
    - intros [Hs (g & Hg & Hgd)]. right. exists f.
      split; [|split; [exact Hable|]].
      + apply board_slot_Some; [apply (ready_lanes s Hready LEFT)|]. eauto.
      + right. exists g. auto. }
  rewrite <- Hiff.
  destruct (bool_decide_reflect
              (index_of_slot (SlotAttack (lane_offset lane + i) sub)
                 ∈ 0%nat :: hand_bits s ++ board_bits s)) as [Hin|Hnin].
  - split; [left; reflexivity|]. split; auto.
  - split; [right; reflexivity|]. split; [discriminate|contradiction].
Qed.

End Guard.

Section GuardValidation.

Variable s : State.
Hypothesis Hready : battle_ready s.
Variables (lane : Lane) (i : nat) (f : Card).
Hypothesis Hf : lane_of (current_player s) lane !! i = Some f.

Let o_lane := lane_of (opposing_player s) lane.
Let r : CardRef := (player_lane_loc lane, i).

Lemma attacker_deref : deref s r = Some f.
Proof. unfold deref, r. cbn [fst snd]. rewrite cards_at_player_lane. exact Hf. Qed.

Lemma board_class (cur : bool) (l : Lane) (c : Card) :
  c ∈ lane_of (side s cur) l -> class c = Creature.
Proof.
  intros Hc. pose proof (ready_board s Hready) as H.
  rewrite Forall_forall in H. apply H. eapply elem_of_board, Hc.
Qed.

Lemma attacker_lane :
  let in_left := py_in (index_in PLAYER_LEFT_LANE r) f (cards_at s PLAYER_LEFT_LANE) in
  let in_right := py_in (index_in PLAYER_RIGHT_LANE r) f (cards_at s PLAYER_RIGHT_LANE) in
  in_left || in_right = true /\ (if in_left then LEFT else RIGHT) = lane.
Proof.
  cbv zeta. unfold r, index_in. cbn [fst snd cards_at].
  apply list_elem_of_lookup_2 in Hf as Hfin.
  destruct lane; cbn [player_lane_loc].
  - destruct (decide (PLAYER_LEFT_LANE = PLAYER_LEFT_LANE)); [|congruence].
    rewrite py_in_self by eauto. auto.
  - destruct (decide (PLAYER_RIGHT_LANE = PLAYER_LEFT_LANE)); [discriminate|].
    destruct (decide (PLAYER_RIGHT_LANE = PLAYER_RIGHT_LANE)); [|congruence].
    rewrite py_in_none.
    + rewrite py_in_self by eauto. auto.
    + intros c Hc. destruct (card_eq c f) eqn:Heq; [|reflexivity].
      apply card_eq_true in Heq.
      destruct (board_unique_elem s Hready true true RIGHT LEFT f c Hfin Hc Heq)
        as (_ & ? & _). discriminate.
Qed.

(** What [_do_attack] comes down to for an attacker on the own board. *)
Lemma _do_attack_checked (target : option CardRef) (tgt : option (CardRef * Card)) :
  match target with
  | None => tgt = None
  | Some tr => exists t, deref s tr = Some t /\ tgt = Some (tr, t)
  end ->
  _do_attack (Some r) target s =
    if negb (target_is_valid lane tgt o_lane) then (s, inl MalformedActionError)
    else if negb (able_to_attack f) then (s, inl MalformedActionError)
    else combat r f tgt s.
Proof.
  intros Htgt. unfold _do_attack.
  rewrite (bind_eq _ _ _ _ _ (obj_eq _ _ _ attacker_deref)).
  rewrite (board_class true lane f) by (eapply list_elem_of_lookup_2, Hf).
  rewrite bool_decide_eq_true_2 by reflexivity. cbn [negb].
  unfold in_lane.
  rewrite (bind_eq _ _ s s _ eq_refl).
  rewrite (bind_eq _ _ s s _ eq_refl).
  destruct attacker_lane as [Hin Hlane]. cbv zeta in Hin, Hlane.
  rewrite Hin. cbn [negb]. rewrite Hlane.
  assert ((match target with
           | None => ret None
           | Some tr => obj tr ≫= fun t => ret (Some (tr, t))
           end) s = (s, inr tgt)) as Hres.
  { destruct target as [tr|].
    - destruct Htgt as (t & Ht & ->).
      rewrite (bind_eq _ _ _ _ _ (obj_eq _ _ _ Ht)). reflexivity.
    - rewrite Htgt. reflexivity. }
  rewrite (bind_eq _ _ _ _ _ Hres).
  rewrite (bind_eq _ _ s s _ eq_refl). fold o_lane.
  destruct (target_is_valid lane tgt o_lane); [|reflexivity]. cbn [negb].
  destruct (able_to_attack f); reflexivity.
Qed.

Hypothesis Hguard : has_guard o_lane.

Lemma valid_targets_guarded :
  valid_targets o_lane = Some <$> guard_indices o_lane.
Proof.
  unfold valid_targets.
  destruct (guard_indices o_lane) eqn:Hg; [|reflexivity].
  apply guard_indices_nil in Hg. contradiction.
Qed.

Lemma no_target_invalid : target_is_valid lane None o_lane = false.
Proof.
  cbn [target_is_valid]. rewrite valid_targets_guarded.
  apply bool_decide_eq_false. intros H.
  apply list_elem_of_fmap in H as (j & Hj & _). discriminate.
Qed.

Lemma creature_target_valid (j : nat) (t : Card) :
  o_lane !! j = Some t ->
  target_is_valid lane (Some ((enemy_lane_loc lane, j), t)) o_lane
    = has_ability t "G".
Proof.
  intros Ht. cbn [target_is_valid]. rewrite valid_targets_guarded.
  unfold index_in. cbn [fst snd].
  destruct (decide (enemy_lane_loc lane = enemy_lane_loc lane)); [|congruence].
  destruct (has_ability t "G") eqn:Hg.
  - apply existsb_exists. exists (Some j). split.
    + apply list_elem_of_In, list_elem_of_fmap. exists j.
      split; [reflexivity|]. apply elem_of_guard_indices. eauto.
    + rewrite Ht. unfold py_same.
      rewrite bool_decide_eq_true_2 by reflexivity. reflexivity.
  - apply not_true_is_false. intros H. apply existsb_exists in H as (v & Hv & H).
    apply list_elem_of_In, list_elem_of_fmap in Hv as (j' & -> & Hj').
    apply elem_of_guard_indices in Hj' as (g & Hg' & Hgd). rewrite Hg' in H.
    unfold py_same in H. apply orb_true_iff in H as [H|H].
    + apply bool_decide_eq_true in H. injection H as ->. congruence.
    + apply card_eq_true in H.
      destruct (board_unique s Hready false false _ _ _ _ _ _ Ht Hg' H)
        as (_ & _ & _ & ->). congruence.
Qed.

Lemma guard_validation :
  _do_attack (Some r) None s = (s, inl MalformedActionError) /\
  (forall j t, o_lane !! j = Some t ->
     if has_ability t "G"
     then able_to_attack f = true ->
          exists s', _do_attack (Some r) (Some (enemy_lane_loc lane, j)) s
                     = (s', inr tt)
     else _do_attack (Some r) (Some (enemy_lane_loc lane, j)) s
          = (s, inl MalformedActionError)).
Proof.
  split.
  - rewrite (_do_attack_checked None None eq_refl), no_target_invalid.
    reflexivity.
  - intros j t Ht.
    assert (deref s (enemy_lane_loc lane, j) = Some t) as Hderef.
    { unfold deref. cbn [fst snd]. rewrite cards_at_enemy_lane. exact Ht. }
    rewrite (_do_attack_checked (Some (enemy_lane_loc lane, j))
               (Some ((enemy_lane_loc lane, j), t)))
      by (exists t; auto).
    rewrite (creature_target_valid j t Ht).
    destruct (has_ability t "G"); [|reflexivity]. cbn [negb].
    intros ->. cbn [negb].
    destruct (combat_succeeds r (enemy_lane_loc lane, j) f t) with (s := s)
      as (s' & [] & Hs' & _).
    + apply (board_class false lane). eapply list_elem_of_lookup_2, Ht.
    + split; [rewrite attacker_deref|rewrite Hderef]; eauto.
    + exists s'. exact Hs'.
Qed.

End GuardValidation.

(** In a ready battle state, let a creature able to attack stand in a lane
    whose opposing lane holds at least one creature with Guard.  Then
    (1) the list of legal actions has no attack of that creature without a
    target, and it has the attack on a creature of the opposing lane exactly
    when that creature has Guard; (2) in the mask the no-target bit of the
    attacker is 0 and the bit of the opposing creature in position [j] is 1
    exactly when that creature has Guard; (3) [_do_attack] rejects the
    attack without a target and the attack on a creature of that lane
    without Guard with [MalformedActionError], leaving the state as it
    was, and carries out the attack on a creature with Guard. *)
Lemma guard_forces_targets_ready (s : State) (with_items : bool) (lane : Lane)
    (i : nat) (f : Card) :
  battle_ready s ->
  items s = Some with_items ->
  lane_of (current_player s) lane !! i = Some f ->
  able_to_attack f = true ->
  has_guard (lane_of (opposing_player s) lane) ->
  let o_lane := lane_of (opposing_player s) lane in
  let origin := Some (player_lane_loc lane, i) in
  ((Attack (instance_id f) None ∉ available_actions s) /\
   (forall t, t ∈ o_lane ->
      Attack (instance_id f) (instance_id t) ∈ available_actions s <->
      has_ability t "G" = true)) /\
  (exists mask,
     action_mask s = inr mask /\
     let base := (attack_base with_items + (i + lane_offset lane) * 4)%nat in
     mask !! base = Some 0 /\
     forall j, (j < 3)%nat ->
       (mask !! (base + 1 + j)%nat = Some 1 \/
        mask !! (base + 1 + j)%nat = Some 0) /\
       (mask !! (base + 1 + j)%nat = Some 1 <->
        exists g, o_lane !! j = Some g /\ has_ability g "G" = true)) /\
  _do_attack origin None s = (s, inl MalformedActionError) /\
  (forall j t, o_lane !! j = Some t ->
     if has_ability t "G"
     then exists s', _do_attack origin (Some (enemy_lane_loc lane, j)) s
                     = (s', inr tt)
     else _do_attack origin (Some (enemy_lane_loc lane, j)) s
          = (s, inl MalformedActionError)).
Proof.
  intros Hready Hitems Hf Hable Hguard o_lane origin.
  split; [|split].
  - split.
    + intros H. apply (guard_enumeration s Hready lane i f Hf Hguard) in H
        as (g & Hg & _ & Hid); [|exact Hable].
      eapply (board_id_Some s Hready false); eauto.
    + intros t Ht.
      rewrite (guard_enumeration s Hready lane i f Hf Hguard _ Hable). split.
      * intros (g & Hg & Hgd & Hid).
        destruct (board_unique_elem s Hready false false _ _ _ _ Hg Ht Hid)
          as (_ & _ & ->). exact Hgd.
      * intros Hgd. exists t. auto.
  - destruct (guard_mask s Hready lane i f Hf Hguard with_items 0 Hitems Hable)
      as (mask & Hmask & Hrange & Hbit); [lia|].
    exists mask. split; [exact Hmask|]. cbv zeta in *. split.
    + rewrite Nat.add_0_r in Hrange, Hbit.
      destruct Hrange as [H1|H0]; [|exact H0].
      apply Hbit in H1 as [H1 _]. lia.
    + intros j Hj.
      destruct (guard_mask s Hready lane i f Hf Hguard with_items (1 + j) Hitems Hable)
        as (mask' & Hmask' & Hrange' & Hbit'); [lia|].
      rewrite Hmask in Hmask'. injection Hmask' as <-.
      replace (1 + j - 1)%nat with j in Hbit' by lia.
      rewrite Nat.add_assoc in Hrange', Hbit'.
      split; [exact Hrange'|]. rewrite Hbit'. split.
      * intros [_ H]. exact H.
      * intros H. split; [lia|exact H].
  - destruct (guard_validation s Hready lane i f Hf Hguard) as [Hnone Hcreature].
    split; [exact Hnone|]. intros j t Ht. specialize (Hcreature j t Ht).
    destruct (has_ability t "G"); [apply Hcreature, Hable|exact Hcreature].
Qed.

(** ** What every battle state satisfies *)

(** The instance ids of a player's cards: deck, hand, left and right lane. *)
Definition player_ids (p : Player) : list (option Z) :=
  (instance_id <$> deck p) ++ (instance_id <$> hand p)
  ++ (instance_id <$> fst (lanes p)) ++ (instance_id <$> snd (lanes p)).

Definition all_ids (s : State) : list (option Z) :=
  player_ids (fst (players s)) ++ player_ids (snd (players s)).

Record player_ok (p : Player) : Prop := {
  ok_hand : (length (hand p) <= 8)%nat;
  ok_left : (length (fst (lanes p)) <= 3)%nat;
  ok_right : (length (snd (lanes p)) <= 3)%nat;
  ok_creatures : Forall (fun c => class c = Creature)
                   (fst (lanes p) ++ snd (lanes p))
}.

Record battle_inv (s : State) : Prop := {
  inv_first : player_ok (fst (players s));
  inv_second : player_ok (snd (players s));
  inv_some : Forall is_Some (all_ids s);
  inv_nodup : NoDup (all_ids s)
}.

Lemma Forall_submseteq {A} (P : A -> Prop) (l k : list A) :
  l ⊆+ k -> Forall P k -> Forall P l.
Proof.
  intros Hsub Hk. apply submseteq_Permutation in Hsub as [k' Hperm].
  rewrite Hperm in Hk. apply Forall_app in Hk as [Hl _]. exact Hl.
Qed.

Lemma NoDup_submseteq_mono {A} (l k : list A) :
  l ⊆+ k -> NoDup k -> NoDup l.
Proof.
  intros Hsub Hk. apply submseteq_Permutation in Hsub as [k' Hperm].
  rewrite Hperm in Hk. apply NoDup_app in Hk as [Hl _]. exact Hl.
Qed.

Lemma player_at_set_player_at (o o' : PlayerOrder) (p : Player) (s : State) :
  player_at (set_player_at o p s) o' = if decide (o = o') then p else player_at s o'.
Proof. destruct o, o'; reflexivity. Qed.

(** Replacing one player by a player who is fine and whose cards are among
    the former ones keeps the invariant. *)
Lemma battle_inv_set_player_at (o : PlayerOrder) (p : Player) (s : State) :
  battle_inv s -> player_ok p ->
  player_ids p ⊆+ player_ids (player_at s o) ->
  battle_inv (set_player_at o p s).
Proof.
  intros [H1 H2 H3 H4] Hok Hsub.
  assert (all_ids (set_player_at o p s) ⊆+ all_ids s) as Hall.
  { unfold all_ids. destruct o; cbn in *.
    - apply submseteq_skips_r, Hsub.
    - apply submseteq_skips_l, Hsub. }
  split.
  - destruct o; [exact Hok|exact H1].
  - destruct o; [exact H2|exact Hok].
  - eapply Forall_submseteq; eauto.
  - eapply NoDup_submseteq_mono; eauto.
Qed.

Lemma battle_inv_player_at (s : State) (o : PlayerOrder) :
  battle_inv s -> player_ok (player_at s o).
Proof. intros [H1 H2 _ _]. destruct o; assumption. Qed.

(** A write to the scalar attributes of a player. *)
Definition same_cards (p p' : Player) : Prop :=
  deck p' = deck p /\ hand p' = hand p /\ lanes p' = lanes p.

Lemma same_cards_ok (p p' : Player) :
  same_cards p p' -> player_ok p -> player_ok p'.
Proof.
  intros (Hd & Hh & Hl) [H1 H2 H3 H4]. split; rewrite ?Hh, ?Hl; assumption.
Qed.

Lemma same_cards_ids (p p' : Player) :
  same_cards p p' -> player_ids p' = player_ids p.
Proof. intros (Hd & Hh & Hl). unfold player_ids. rewrite Hd, Hh, Hl. reflexivity. Qed.

Lemma battle_inv_same_cards (o : PlayerOrder) (p : Player) (s : State) :
  battle_inv s -> same_cards (player_at s o) p ->
  battle_inv (set_player_at o p s).
Proof.
  intros Hinv Hsame. apply battle_inv_set_player_at; [exact Hinv| |].
  - eapply same_cards_ok; [exact Hsame|]. apply battle_inv_player_at, Hinv.
  - rewrite (same_cards_ids _ _ Hsame). reflexivity.
Qed.

Lemma Player_damage_same_cards (p : Player) (amount : Z) :
  same_cards p (fst (Player_damage p amount)).
Proof.
  destruct (Player_damage_shape p amount) as (k & _ & _ & ->).
  repeat split.
Qed.

(** A write to one card that keeps its instance id and its class. *)
Definition keeps_card (g : Card -> Card) : Prop :=
  forall c, instance_id (g c) = instance_id c /\ class (g c) = class c.

Lemma alter_ids (g : Card -> Card) (i : nat) (l : list Card) :
  keeps_card g -> instance_id <$> alter g i l = instance_id <$> l.
Proof.
  intros Hg. rewrite (list_fmap_alter instance_id g id).
  - apply list_alter_id. reflexivity.
  - apply Forall_forall. intros c _. apply Hg.
Qed.

Lemma alter_classes (g : Card -> Card) (i : nat) (l : list Card) :
  keeps_card g -> class <$> alter g i l = class <$> l.
Proof.
  intros Hg. rewrite (list_fmap_alter class g id).
  - apply list_alter_id. reflexivity.
  - apply Forall_forall. intros c _. apply Hg.
Qed.

Lemma Forall_creatures_fmap (l l' : list Card) :
  class <$> l' = class <$> l ->
  Forall (fun c => class c = Creature) l ->
  Forall (fun c => class c = Creature) l'.
Proof.
  intros Heq Hl.
  apply (Forall_fmap class (fun c => c = Creature)).
  rewrite Heq. apply Forall_fmap. exact Hl.
Qed.

(** Two players whose containers correspond card by card. *)
Definition alike (p p' : Player) : Prop :=
  deck p' = deck p /\
  (instance_id <$> hand p' = instance_id <$> hand p) /\
  (instance_id <$> fst (lanes p') = instance_id <$> fst (lanes p)) /\
  (instance_id <$> snd (lanes p') = instance_id <$> snd (lanes p)) /\
  (class <$> fst (lanes p') = class <$> fst (lanes p)) /\
  (class <$> snd (lanes p') = class <$> snd (lanes p)).

Lemma alike_ok (p p' : Player) : alike p p' -> player_ok p -> player_ok p'.
Proof.
  intros (Hd & Hh & Hl & Hr & Hcl & Hcr) [H1 H2 H3 H4].
  apply (f_equal length) in Hh as Hh', Hl as Hl', Hr as Hr'.
  rewrite !length_fmap in Hh', Hl', Hr'.
  split; [lia..|].
  apply Forall_app in H4 as [H4 H5]. apply Forall_app.
  split; eapply Forall_creatures_fmap; eauto.
Qed.

Lemma alike_ids (p p' : Player) : alike p p' -> player_ids p' = player_ids p.
Proof.
  intros (Hd & Hh & Hl & Hr & _). unfold player_ids.
  rewrite Hd, Hh, Hl, Hr. reflexivity.
Qed.

Lemma battle_inv_alike (o : PlayerOrder) (p : Player) (s : State) :
  battle_inv s -> alike (player_at s o) p -> battle_inv (set_player_at o p s).
Proof.
  intros Hinv Hal. apply battle_inv_set_player_at; [exact Hinv| |].
  - eapply alike_ok; [exact Hal|]. apply battle_inv_player_at, Hinv.
  - rewrite (alike_ids _ _ Hal). reflexivity.
Qed.

(** A player evolves: it stays fine and gains no card. *)
Definition evolves (p p' : Player) : Prop :=
  (player_ok p -> player_ok p') /\ player_ids p' ⊆+ player_ids p.

Lemma evolves_refl (p : Player) : evolves p p.
Proof. split; [auto|reflexivity]. Qed.

Lemma evolves_trans (p q r : Player) : evolves p q -> evolves q r -> evolves p r.
Proof. intros [H1 H2] [H3 H4]. split; [auto|]. etransitivity; eauto. Qed.

Lemma evolves_same_cards (p p' : Player) : same_cards p p' -> evolves p p'.
Proof.
  intros H. split; [apply same_cards_ok, H|].
  rewrite (same_cards_ids _ _ H). reflexivity.
Qed.

Lemma evolves_alike (p p' : Player) : alike p p' -> evolves p p'.
Proof.
  intros H. split; [apply alike_ok, H|]. rewrite (alike_ids _ _ H). reflexivity.
Qed.

Lemma battle_inv_evolves (o : PlayerOrder) (p : Player) (s : State) :
  battle_inv s -> evolves (player_at s o) p -> battle_inv (set_player_at o p s).
Proof.
  intros Hinv [Hok Hids]. apply battle_inv_set_player_at; [exact Hinv| |exact Hids].
  apply Hok, battle_inv_player_at, Hinv.
Qed.

Lemma battle_inv_set_current (p : Player) (s : State) :
  battle_inv s -> evolves (current_player s) p -> battle_inv (set_current p s).
Proof. apply battle_inv_evolves. Qed.

Lemma battle_inv_set_opposing (p : Player) (s : State) :
  battle_inv s -> evolves (opposing_player s) p -> battle_inv (set_opposing p s).
Proof. apply battle_inv_evolves. Qed.

Lemma battle_inv_players (s s' : State) :
  players s' = players s -> battle_inv s -> battle_inv s'.
Proof.
  intros Heq [H1 H2 H3 H4]. unfold all_ids in *.
  split; unfold all_ids; rewrite Heq; assumption.
Qed.

(** Writes to the cards of one container. *)
Lemma evolves_set_hand_alter (g : Card -> Card) (i : nat) (p : Player) :
  keeps_card g -> evolves p (set_hand (alter g i (hand p)) p).
Proof.
  intros Hg. apply evolves_alike. unfold alike. cbn.
  rewrite alter_ids by exact Hg. repeat split.
Qed.

Lemma evolves_set_lane_alter (g : Card -> Card) (i : nat) (lane : Lane)
    (p : Player) :
  keeps_card g -> evolves p (set_lane lane (alter g i (lane_of p lane)) p).
Proof.
  intros Hg. apply evolves_alike. unfold alike.
  destruct lane; cbn; rewrite alter_ids, alter_classes by exact Hg;
    repeat split.
Qed.

Lemma battle_inv_modify (r : CardRef) (g : Card -> Card) (s : State) :
  keeps_card g -> battle_inv s -> battle_inv (modify r g s).
Proof.
  intros Hg Hinv. unfold modify. destruct r as [[] i]; cbn [fst snd set_cards_at cards_at];
    (apply battle_inv_set_current || apply battle_inv_set_opposing);
    first [exact Hinv | apply evolves_set_hand_alter, Hg
          | apply evolves_set_lane_alter, Hg].
Qed.

(** ** The invariant through the battle computations *)

Definition keeps {A} (m : M A) : Prop :=
  forall s, battle_inv s -> battle_inv (fst (m s)).

Lemma keeps_ret {A} (a : A) : keeps (ret a).
Proof. intros s H. exact H. Qed.

Lemma keeps_raise {A} (e : exn) : keeps (@raise A e).
Proof. intros s H. exact H. Qed.

Lemma keeps_gets {A} (f : State -> A) : keeps (gets f).
Proof. intros s H. exact H. Qed.

Lemma keeps_obj (r : CardRef) : keeps (obj r).
Proof. intros s H. unfold obj. destruct (deref s r); exact H. Qed.

Lemma keeps_resolve (x : option Z) : keeps (resolve x).
Proof.
  intros s H. destruct x as [iid|]; [|exact H]. cbn.
  destruct (_find_card s iid); exact H.
Qed.

Lemma keeps_bind {A B} (m : M A) (k : A -> M B) :
  keeps m -> (forall a, keeps (k a)) -> keeps (m ≫= k).
Proof.
  intros Hm Hk s Hs. unfold mbind, M_bind, bind. specialize (Hm s Hs).
  destruct (m s) as [s' [e|a]]; cbn [fst] in *; [exact Hm|]. apply Hk, Hm.
Qed.

Lemma keeps_from {A B} (m : M A) (k : A -> M B) (s : State) :
  battle_inv (fst (m s)) -> (forall a, keeps (k a)) ->
  battle_inv (fst ((m ≫= k) s)).
Proof.
  intros Hm Hk. unfold mbind, M_bind, bind.
  destruct (m s) as [s' [e|a]]; cbn [fst] in *; [exact Hm|]. apply Hk, Hm.
Qed.

Lemma keeps_when (b : bool) (m : M unit) : keeps m -> keeps (when b m).
Proof. intros H. destruct b; [exact H|apply keeps_ret]. Qed.

Lemma keeps_update_current (f : Player -> Player) :
  (forall p, same_cards p (f p)) -> keeps (update_current f).
Proof.
  intros Hf s Hs. cbn. apply battle_inv_set_current; [exact Hs|].
  apply evolves_same_cards, Hf.
Qed.

Lemma keeps_update_opposing (f : Player -> Player) :
  (forall p, same_cards p (f p)) -> keeps (update_opposing f).
Proof.
  intros Hf s Hs. cbn. apply battle_inv_set_opposing; [exact Hs|].
  apply evolves_same_cards, Hf.
Qed.

Lemma keeps_damage_opposing (amount : Z) : keeps (damage_opposing amount).
Proof.
  intros s Hs. unfold damage_opposing.
  pose proof (Player_damage_same_cards (opposing_player s) amount) as H.
  destruct (Player_damage (opposing_player s) amount) as [p dealt].
  cbn [fst] in *. apply battle_inv_set_opposing; [exact Hs|].
  apply evolves_same_cards, H.
Qed.

Lemma keeps_modify (r : CardRef) (g : Card -> Card) :
  keeps_card g -> keeps (update (modify r g)).
Proof. intros Hg s Hs. cbn. apply battle_inv_modify; assumption. Qed.

Lemma Creature_damage_keeps_card (amount : Z) (lethal : bool) :
  keeps_card (fun c => fst (Creature_damage c amount lethal)).
Proof.
  intros c. unfold Creature_damage.
  destruct (decide (amount <= 0)); [split; reflexivity|].
  destruct (has_ability c "W"); [split; reflexivity|].
  cbn. destruct (lethal || _); split; reflexivity.
Qed.

Lemma modify_const (r : CardRef) (g : Card -> Card) (c : Card) (s : State) :
  deref s r = Some c -> modify r (fun _ => g c) s = modify r g s.
Proof.
  intros Hc. unfold modify. f_equal. apply list_alter_ext; [|reflexivity].
  intros x Hx. unfold deref in Hc. congruence.
Qed.

Lemma keeps_damage_creature (r : CardRef) (amount : Z) (lethal : bool) :
  keeps (damage_creature r amount lethal).
Proof.
  intros s Hs. unfold damage_creature, mbind, M_bind, bind, obj.
  destruct (deref s r) as [c|] eqn:Hc; [|exact Hs].
  pose proof (modify_const r (fun c => fst (Creature_damage c amount lethal))
                c s Hc) as Hmod.
  cbv beta in Hmod. revert Hmod.
  destruct (Creature_damage c amount lethal) as [c' [e|z]];
    cbn [fst]; intros Hmod; unfold update, ret; cbn [fst]; rewrite Hmod;
    apply battle_inv_modify; auto using Creature_damage_keeps_card.
Qed.

Lemma evolves_delete_hand (k : nat) (p : Player) :
  evolves p (set_hand (delete k (hand p)) p).
Proof.
  split.
  - intros [H1 H2 H3 H4]. split; cbn; try assumption.
    pose proof (submseteq_length _ _ (submseteq_delete (hand p) k)). lia.
  - unfold player_ids. cbn. apply submseteq_skips_l, submseteq_skips_r.
    rewrite list_fmap_delete. apply submseteq_delete.
Qed.

Lemma keeps_remove_from_hand (r : CardRef) (x : Card) :
  keeps (remove_from_hand r x).
Proof.
  intros s Hs. unfold remove_from_hand, mbind, M_bind, bind, gets.
  destruct (py_index _ x _) as [k|]; [|exact Hs]. cbn.
  apply battle_inv_set_current; [exact Hs|]. apply evolves_delete_hand.
Qed.

Ltac keeps_card_side :=
  let c := fresh "c" in
  intros c; try destruct (decide _); split; reflexivity.

Lemma keeps_weaken_target (tr : CardRef) (origin : Card) :
  keeps (weaken_target tr origin).
Proof.
  unfold weaken_target.
  apply keeps_bind; [apply keeps_modify; keeps_card_side|intros _].
  apply keeps_bind; [apply keeps_modify; keeps_card_side|intros _].
  apply keeps_bind; [apply keeps_damage_creature|intros _].
  apply keeps_modify. keeps_card_side.
Qed.

Ltac keeps_step :=
  lazymatch goal with
  | |- keeps (ret _) => apply keeps_ret
  | |- keeps (raise _) => apply keeps_raise
  | |- keeps (gets _) => apply keeps_gets
  | |- keeps (obj _) => apply keeps_obj
  | |- keeps (in_lane _ _ _) => apply keeps_gets
  | |- keeps (resolve _) => apply keeps_resolve
  | |- keeps (update (modify _ _)) => apply keeps_modify; keeps_card_side
  | |- keeps (damage_creature _ _ _) => apply keeps_damage_creature
  | |- keeps (remove_from_hand _ _) => apply keeps_remove_from_hand
  | |- keeps (weaken_target _ _) => apply keeps_weaken_target
  | |- keeps (when _ _) => apply keeps_when
  | |- keeps (damage_opposing _) => apply keeps_damage_opposing
  | |- keeps (update_current _) =>
    apply keeps_update_current; intros ?; repeat split
  | |- keeps (update_opposing _) =>
    apply keeps_update_opposing; intros ?; repeat split
  | |- keeps (apply_card_effects _) => unfold apply_card_effects
  | |- keeps (mbind _ _) => apply keeps_bind; [|intros ?]
  | |- keeps (match ?x with _ => _ end) => destruct x
  end.

Lemma keeps_combat (r : CardRef) (o : Card) (tgt : option (CardRef * Card)) :
  keeps (combat r o tgt).
Proof. unfold combat. repeat keeps_step. Qed.

Lemma keeps__do_attack (origin target : option CardRef) :
  keeps (_do_attack origin target).
Proof. unfold _do_attack. repeat first [apply keeps_combat | keeps_step]. Qed.

Lemma keeps__do_use (origin target : option CardRef) :
  keeps (_do_use origin target).
Proof. unfold _do_use. repeat keeps_step. Qed.

Lemma py_index_from_Some (j : nat) (self : option nat) (x : Card)
    (l : list Card) (k : nat) :
  py_index_from j self x l = Some k ->
  exists e, (j <= k)%nat /\ l !! (k - j)%nat = Some e /\
            py_same self x k e = true.
Proof.
  revert j. induction l as [|e l IH]; intros j H; [discriminate|].
  cbn [py_index_from] in H. destruct (py_same self x j e) eqn:Hsame.
  - injection H as <-. exists e. rewrite Nat.sub_diag. auto.
  - destruct (IH (S j) H) as (e' & Hle & He' & Hs). exists e'.
    split; [lia|]. split; [|exact Hs].
    replace (k - j)%nat with (S (k - S j)) by lia. exact He'.
Qed.

Lemma py_index_Some (self : option nat) (x : Card) (l : list Card) (k : nat) :
  py_index self x l = Some k ->
  exists e, l !! k = Some e /\ py_same self x k e = true.
Proof.
  intros H. apply py_index_from_Some in H as (e & _ & He & Hs).
  rewrite Nat.sub_0_r in He. eauto.
Qed.

(** The card [hand.remove(origin)] deletes carries the id of [origin]. *)
Lemma removed_card_id (s : State) (r : CardRef) (o : Card) (k : nat) :
  deref s r = Some o ->
  py_index (index_in PLAYER_HAND r) o (hand (current_player s)) = Some k ->
  exists e, hand (current_player s) !! k = Some e /\
            instance_id e = instance_id o.
Proof.
  intros Ho Hk. apply py_index_Some in Hk as (e & He & Hsame).
  exists e. split; [exact He|]. unfold py_same in Hsame.
  apply orb_true_iff in Hsame as [H|H].
  - apply bool_decide_eq_true in H. unfold index_in in H.
    destruct (decide (fst r = PLAYER_HAND)) as [Hloc|]; [|discriminate].
    injection H as <-. unfold deref in Ho. rewrite Hloc in Ho. cbn in Ho.
    congruence.
  - apply card_eq_true, H.
Qed.

Lemma set_player_at_twice (o : PlayerOrder) (p q : Player) (s : State) :
  set_player_at o q (set_player_at o p s) = set_player_at o q s.
Proof. destruct o; reflexivity. Qed.

Lemma set_current_twice (p q : Player) (s : State) :
  set_current q (set_current p s) = set_current q s.
Proof.
  unfold set_current. rewrite _current_player_set_player_at.
  apply set_player_at_twice.
Qed.

Lemma evolves_move (p : Player) (k : nat) (e o : Card) (lane : Lane) :
  hand p !! k = Some e -> instance_id o = instance_id e ->
  class o = Creature -> (length (lane_of p lane) < 3)%nat ->
  evolves p (set_lane lane (lane_of (set_hand (delete k (hand p)) p) lane ++ [o])
               (set_hand (delete k (hand p)) p)).
Proof.
  intros He Hid Hclass Hlen. split.
  - intros [H1 H2 H3 H4]. apply Forall_app in H4 as [H4 H5].
    pose proof (submseteq_length _ _ (submseteq_delete (hand p) k)).
    destruct lane; cbn in *; split; cbn; rewrite ?length_app; cbn; try lia;
      rewrite ?Forall_app, ?Forall_singleton; auto.
  - apply Permutation_submseteq. unfold player_ids.
    assert (instance_id <$> hand p
              ≡ₚ instance_id o :: (instance_id <$> delete k (hand p))) as Hperm.
    { rewrite Hid, list_fmap_delete. apply delete_Permutation.
      rewrite list_lookup_fmap, He. reflexivity. }
    rewrite Hperm.
    destruct lane; cbn; rewrite fmap_app; cbn; solve_Permutation.
Qed.

Lemma move_to_lane_inv (s : State) (r : CardRef) (o : Card) (lane : Lane) :
  battle_inv s -> deref s r = Some o -> class o = Creature ->
  (length (lane_of (current_player s) lane) < 3)%nat ->
  battle_inv (fst (move_to_lane r o lane s)).
Proof.
  intros Hinv Ho Hclass Hlen.
  unfold move_to_lane, remove_from_hand, mbind, M_bind, bind, gets.
  destruct (py_index _ o _) as [k|] eqn:Hk; [|exact Hinv].
  destruct (removed_card_id s r o k Ho Hk) as (e & He & Hid).
  unfold update_current, update, ret. cbn [fst].
  rewrite current_player_set_current, set_current_twice.
  apply battle_inv_set_current; [exact Hinv|].
  apply (evolves_move _ k e); auto.
Qed.

Lemma keeps__do_summon (origin : option CardRef) (target : option Lane) :
  keeps (_do_summon origin target).
Proof.
  intros s Hinv. unfold _do_summon. destruct origin as [r|]; [|exact Hinv].
  unfold mbind at 1, M_bind at 1, bind at 1, obj at 1.
  destruct (deref s r) as [o|] eqn:Ho; [|exact Hinv].
  unfold mbind at 1, M_bind at 1, bind at 1, gets at 1.
  destruct (decide (cost o > mana (current_player s))); [exact Hinv|].
  destruct (bool_decide (class o = Creature)) eqn:Hclass; [|exact Hinv].
  apply bool_decide_eq_true in Hclass. cbn [negb].
  destruct target as [lane|]; [|exact Hinv].
  unfold mbind at 1, M_bind at 1, bind at 1, gets at 1.
  destruct (decide (3 <= length (lane_of (current_player s) lane))%nat);
    [exact Hinv|].
  apply keeps_from.
  - apply move_to_lane_inv; auto. lia.
  - intros _. repeat keeps_step.
Qed.

Lemma keeps_battle_try (action : Action) : keeps (battle_try action).
Proof.
  unfold battle_try.
  apply keeps_bind; [apply keeps_resolve|intros o].
  apply keeps_bind; [apply keeps_gets|intros c].
  apply keeps_bind; [|intros _; keeps_step].
  destruct (atype action).
  - apply keeps_raise.
  - apply keeps_bind; [|intros t; apply keeps__do_summon].
    repeat keeps_step.
  - apply keeps_bind; [apply keeps_resolve|intros t; apply keeps__do_attack].
  - apply keeps_bind; [apply keeps_resolve|intros t; apply keeps__do_use].
  - apply keeps_ret.
Qed.

(** Sweeping only drops creatures. *)
Lemma sweep_from_sublist (fuel idx : nat) (lane : list Card) :
  sweep_from fuel idx lane ⊆+ lane.
Proof.
  revert idx lane. induction fuel as [|fuel IH]; intros idx lane; [reflexivity|].
  cbn [sweep_from]. destruct (lane !! idx) as [c|]; [|reflexivity].
  destruct (is_dead c); [|apply IH].
  etransitivity; [apply IH|].
  destruct (py_index (Some idx) c lane); cbn; [apply submseteq_delete|reflexivity].
Qed.

Lemma evolves_sweep (p : Player) : evolves p (sweep_player p).
Proof.
  pose proof (sweep_from_sublist (length (fst (lanes p))) 0 (fst (lanes p))) as Hl.
  pose proof (sweep_from_sublist (length (snd (lanes p))) 0 (snd (lanes p))) as Hr.
  fold (sweep (fst (lanes p))) in Hl. fold (sweep (snd (lanes p))) in Hr.
  split.
  - intros [H1 H2 H3 H4]. split; cbn.
    + exact H1.
    + apply submseteq_length in Hl. lia.
    + apply submseteq_length in Hr. lia.
    + eapply Forall_submseteq; [|exact H4]. apply submseteq_app; assumption.
  - unfold player_ids. cbn. apply submseteq_skips_l, submseteq_skips_l.
    apply submseteq_app; apply fmap_submseteq; assumption.
Qed.

Lemma battle_inv_sweep_dead (s : State) : battle_inv s -> battle_inv (sweep_dead s).
Proof.
  intros Hinv.
  change (sweep_dead s)
    with (set_player_at SECOND (sweep_player (snd (players s)))
            (set_player_at FIRST (sweep_player (fst (players s))) s)).
  apply battle_inv_evolves; [apply battle_inv_evolves|];
    [exact Hinv|apply evolves_sweep|apply evolves_sweep].
Qed.

Lemma battle_inv_check_health (s : State) :
  battle_inv s -> battle_inv (check_health s).
Proof.
  intros Hinv. unfold check_health.
  repeat destruct (decide _); try exact Hinv;
    (eapply battle_inv_players; [|exact Hinv]); reflexivity.
Qed.

Lemma battle_inv__act_on_battle (action : Action) (s : State) :
  battle_inv s -> battle_inv (fst (_act_on_battle action s)).
Proof.
  intros Hinv. unfold _act_on_battle.
  pose proof (keeps_battle_try action s Hinv) as H.
  destruct (battle_try action s) as [s1 [e|[]]]; cbn [fst] in H.
  - destruct (is_action_failure e); cbn [fst]; [|exact H].
    apply battle_inv_check_health, battle_inv_sweep_dead.
    eapply battle_inv_players; [|exact H]. reflexivity.
  - cbn [fst]. apply battle_inv_check_health, battle_inv_sweep_dead, H.
Qed.

(** ** The invariant through the turns *)

Lemma wake_keeps_card : keeps_card wake.
Proof. intros c. split; reflexivity. Qed.

Lemma fmap_keeps_ids (g : Card -> Card) (l : list Card) :
  keeps_card g -> instance_id <$> (g <$> l) = instance_id <$> l.
Proof.
  intros Hg. rewrite <- list_fmap_compose. apply list_fmap_ext.
  intros i c _. apply Hg.
Qed.

Lemma fmap_keeps_classes (g : Card -> Card) (l : list Card) :
  keeps_card g -> class <$> (g <$> l) = class <$> l.
Proof.
  intros Hg. rewrite <- list_fmap_compose. apply list_fmap_ext.
  intros i c _. apply Hg.
Qed.

Lemma evolves_refresh (p : Player) : evolves p (refresh p).
Proof.
  apply evolves_alike. unfold refresh, alike. cbn.
  repeat match goal with |- context [if ?b then _ else _] => destruct b end;
    cbn; rewrite !fmap_keeps_ids, !fmap_keeps_classes by apply wake_keeps_card;
    repeat split.
Qed.

Lemma evolves_empty_deck (p : Player) : evolves p (set_deck [] p).
Proof.
  split.
  - intros [H1 H2 H3 H4]. split; assumption.
  - unfold player_ids. cbn. apply submseteq_inserts_l. reflexivity.
Qed.

Lemma evolves_draw_loop (n : nat) (p : Player) : evolves p (fst (draw_loop n p)).
Proof.
  revert p. induction n as [|n IH]; intros p; [apply evolves_refl|].
  cbn [draw_loop]. destruct (last (deck p)) as [c|] eqn:Hlast;
    [|apply evolves_refl].
  destruct (decide (8 <= length (hand p))%nat); [apply evolves_refl|].
  eapply evolves_trans; [|apply IH].
  apply last_Some in Hlast as [d Hd]. split.
  - intros [H1 H2 H3 H4]. split; cbn; try assumption.
    rewrite length_app. cbn. lia.
  - apply Permutation_submseteq. unfold player_ids. cbn.
    rewrite Hd, removelast_last, !fmap_app. cbn. solve_Permutation.
Qed.

Lemma evolves_draw (p : Player) (amount : Z) : evolves p (fst (draw p amount)).
Proof. apply evolves_draw_loop. Qed.

Lemma evolves_draw_or_burn (p : Player) (amount : Z) :
  evolves p (draw_or_burn p amount).
Proof.
  unfold draw_or_burn. pose proof (evolves_draw p amount) as H.
  destruct (draw p amount) as [q [e|]]; cbn [fst] in H; [|exact H].
  destruct e; try exact H.
  eapply evolves_trans; [exact H|].
  apply evolves_same_cards, Player_damage_same_cards.
Qed.

Lemma battle_inv__new_battle_turn (s : State) :
  battle_inv s -> battle_inv (_new_battle_turn s).
Proof.
  intros Hinv. unfold _new_battle_turn.
  apply battle_inv_set_current; [exact Hinv|].
  eapply evolves_trans; [apply evolves_refresh|].
  set (p0 := refresh (current_player s)).
  set (p1 := if decide (turn s > 50) then set_deck [] p0 else p0).
  set (p2 := draw_or_burn p1 (1 + bonus_draw p0)).
  apply evolves_trans with p2; [|apply evolves_same_cards; repeat split].
  apply evolves_trans with p1; [|apply evolves_draw_or_burn].
  unfold p1. destruct (decide (turn s > 50));
    [apply evolves_empty_deck|apply evolves_refl].
Qed.

Lemma battle_inv__next_turn (s : State) :
  battle_inv s -> battle_inv (_next_turn s).
Proof.
  apply battle_inv_players. unfold _next_turn.
  destruct (_current_player s); [reflexivity|]. cbn.
  match goal with |- context [if ?b then _ else _] => destruct b end;
    reflexivity.
Qed.

Lemma battle_inv_draw_player (o : PlayerOrder) (amount : Z) (s : State) :
  battle_inv s -> battle_inv (fst (draw_player o amount s)).
Proof.
  intros Hinv. unfold draw_player. pose proof (evolves_draw (player_at s o) amount).
  destruct (draw (player_at s o) amount) as [p e]. cbn [fst] in *.
  apply battle_inv_evolves; assumption.
Qed.

(** ** The invariant is set up by the battle preparation *)

Lemma copy_decks_ids (counter : Z) (pairs : list (Card * Card)) :
  let '(d1, d2, n) := copy_decks counter pairs in
  Forall (fun x => exists z, x = Some z /\ counter < z)
    ((instance_id <$> d1) ++ (instance_id <$> d2)) /\
  NoDup ((instance_id <$> d1) ++ (instance_id <$> d2)).
Proof.
  revert counter. induction pairs as [|[c1 c2] pairs IH]; intros counter.
  - cbn. split; constructor.
  - cbn [copy_decks]. specialize (IH (counter + 2)).
    destruct (copy_decks (counter + 2) pairs) as [[d1 d2] n].
    destruct IH as [Hsome Hnodup]. cbn [fmap list_fmap make_copy].
    cbn [set_instance_id instance_id].
    assert (forall z, z <= counter + 2 ->
              Some z ∉ (instance_id <$> d1) ++ (instance_id <$> d2)) as Hfresh.
    { intros z Hz Hin. rewrite Forall_forall in Hsome.
      destruct (Hsome _ Hin) as (z' & [= ->] & Hlt). lia. }
    split.
    + apply Forall_app in Hsome as [H1 H2].
      cbn. apply Forall_cons. split; [exists (counter + 1); split; [reflexivity|lia]|].
      apply Forall_app. split.
      * eapply Forall_impl; [exact H1|]. intros x (z & -> & Hz).
        exists z. split; [reflexivity|lia].
      * apply Forall_cons.
        split; [exists (counter + 2); split; [reflexivity|lia]|].
        eapply Forall_impl; [exact H2|]. intros x (z & -> & Hz).
        exists z. split; [reflexivity|lia].
    + cbn.
      assert (Some (counter + 1) :: (instance_id <$> d1)
                ++ Some (counter + 2) :: (instance_id <$> d2)
              ≡ₚ Some (counter + 1) :: Some (counter + 2)
                   :: (instance_id <$> d1) ++ (instance_id <$> d2)) as ->
        by solve_Permutation.
      apply NoDup_cons. split.
      * rewrite elem_of_cons. intros [[=]|Hin]; [lia|].
        apply (Hfresh (counter + 1)); [lia|exact Hin].
      * apply NoDup_cons. split; [|exact Hnodup].
        apply Hfresh. lia.
Qed.

Lemma battle_inv_and_then (r : State * option exn)
    (k : State -> State * option exn) :
  battle_inv (fst r) ->
  (forall s1, battle_inv s1 -> battle_inv (fst (k s1))) ->
  battle_inv (fst (and_then r k)).
Proof.
  intros Hr Hk. destruct r as [s1 [e|]]; cbn [and_then fst] in *; [exact Hr|].
  apply Hk, Hr.
Qed.

Lemma battle_inv_fresh_decks (s : State) (d1 d2 : list Card) :
  hand (fst (players s)) = [] -> lanes (fst (players s)) = ([], []) ->
  hand (snd (players s)) = [] -> lanes (snd (players s)) = ([], []) ->
  Forall is_Some ((instance_id <$> d1) ++ (instance_id <$> d2)) ->
  NoDup ((instance_id <$> d1) ++ (instance_id <$> d2)) ->
  battle_inv (set_players (set_deck (reverse d1) (fst (players s)),
                           set_deck (reverse d2) (snd (players s))) s).
Proof.
  intros Hh1 Hl1 Hh2 Hl2 Hsome Hnodup.
  assert (all_ids (set_players (set_deck (reverse d1) (fst (players s)),
                                set_deck (reverse d2) (snd (players s))) s)
          ≡ₚ (instance_id <$> d1) ++ (instance_id <$> d2)) as Hperm.
  { unfold all_ids, player_ids. cbn. rewrite Hh1, Hl1, Hh2, Hl2. cbn.
    rewrite !app_nil_r, !fmap_reverse, !reverse_Permutation. reflexivity. }
  split.
  - split; cbn; rewrite ?Hh1, ?Hl1; cbn; first [lia | constructor].
  - split; cbn; rewrite ?Hh2, ?Hl2; cbn; first [lia | constructor].
  - rewrite Hperm. exact Hsome.
  - rewrite Hperm. exact Hnodup.
Qed.

Section EngineInvariant.

Variable shuffle : RandomState -> list Card -> list Card * RandomState.

(** Whatever the state before, the preparation either stops on the missing
    instance counter or leaves a state that satisfies the invariant. *)
Lemma battle_inv__prepare_for_battle (s : State) :
  battle_inv (fst (_prepare_for_battle shuffle s)) \/
  snd (_prepare_for_battle shuffle s) = Some AttributeError.
Proof.
  unfold _prepare_for_battle.
  destruct (shuffle (np_random s) _) as [deck1 rng1].
  destruct (shuffle rng1 _) as [deck2 rng2].
  match goal with
  | |- context [zip deck1 deck2] => generalize (zip deck1 deck2)
  end.
  intros pairs.
  match goal with
  | |- context [set_np_random ?r ?x] => set (s0 := set_np_random r x)
  end.
  assert (hand (fst (players s0)) = [] /\ lanes (fst (players s0)) = ([], []) /\
          hand (snd (players s0)) = [] /\ lanes (snd (players s0)) = ([], []))
    as (Hh1 & Hl1 & Hh2 & Hl2) by (repeat split).
  clearbody s0.
  assert (forall counter,
    battle_inv
      (fst (let '(d1, d2, n) := copy_decks (default 0 counter) pairs in
            let s1 := set_instance_counter (const n <$> counter) s0 in
            let s2 := set_players (set_deck (reverse d1) (fst (players s1)),
                                   set_deck (reverse d2) (snd (players s1))) s1 in
            and_then (draw_player FIRST 4 s2) (fun s3 =>
            let s4 := set_player_at FIRST (set_base_mana 0 (player_at s3 FIRST)) s3 in
            and_then (draw_player SECOND 4 s4) (fun s5 =>
            let s6 := set_player_at SECOND (set_base_mana 0 (player_at s5 SECOND)) s5 in
            and_then (draw_player SECOND 1 s6) (fun s7 =>
            (set_player_at SECOND (set_bonus_mana 1 (player_at s7 SECOND)) s7,
             None))))))) as Hrest.
  { intros counter.
    pose proof (copy_decks_ids (default 0 counter) pairs) as Hids.
    destruct (copy_decks (default 0 counter) pairs) as [[d1 d2] n].
    destruct Hids as [Hsome Hnodup]. cbv zeta.
    apply battle_inv_and_then.
    { apply battle_inv_draw_player.
      apply (battle_inv_fresh_decks
               (set_instance_counter (const n <$> counter) s0));
        try assumption.
      eapply Forall_impl; [exact Hsome|]. intros x (z & -> & _). eauto. }
    intros s3 H3. apply battle_inv_and_then.
    { apply battle_inv_draw_player. apply battle_inv_evolves; [exact H3|].
      apply evolves_same_cards. repeat split. }
    intros s5 H5. apply battle_inv_and_then.
    { apply battle_inv_draw_player. apply battle_inv_evolves; [exact H5|].
      apply evolves_same_cards. repeat split. }
    intros s7 H7. cbn [fst]. apply battle_inv_evolves; [exact H7|].
    apply evolves_same_cards. repeat split. }
  destruct pairs as [|pr pairs'], (instance_counter s0) as [c|];
    first [left; apply Hrest | right; reflexivity].
Qed.

Lemma _next_turn_phase (s : State) :
  phase (_next_turn s) = phase s \/ phase (_next_turn s) = BATTLE.
Proof.
  unfold _next_turn. destruct (_current_player s); [left; reflexivity|]. cbn.
  match goal with |- context [if ?b then _ else _] => destruct b end;
    [right|left]; reflexivity.
Qed.

Lemma _act_on_draft_phase (action : Action) (s : State) :
  phase (fst (_act_on_draft action s)) = phase s.
Proof.
  unfold _act_on_draft. destruct (py_getitem _ _); [|reflexivity].
  cbn. unfold set_current. destruct (_current_player s); reflexivity.
Qed.

(** [act] keeps the invariant outside the draft and sets it up when the
    draft ends. *)
Lemma battle_inv_act (action : Action) (s : State) :
  (phase s <> DRAFT -> battle_inv s) ->
  snd (act shuffle action s) = None ->
  phase (fst (act shuffle action s)) <> DRAFT ->
  battle_inv (fst (act shuffle action s)).
Proof.
  unfold act. cbv zeta.
  change (phase (set_was_last_action_invalid (Some false) s)) with (phase s).
  intros Hinv. destruct (phase s) eqn:Hphase.
  - clear Hinv.
    pose proof (_act_on_draft_phase action
                  (set_was_last_action_invalid (Some false) s)) as Hp0.
    destruct (_act_on_draft action _) as [s1 [e|]]; cbn [and_then fst] in *;
      [discriminate|].
    change (phase (set_was_last_action_invalid (Some false) s))
      with (phase s) in Hp0. rewrite Hphase in Hp0.
    destruct (phase (_next_turn s1)) eqn:Hp1.
    + intros _ Hnd. exfalso. apply Hnd. unfold _new_draft_turn.
      destruct (py_getitem _ _); cbn; exact Hp1.
    + pose proof (battle_inv__prepare_for_battle (_next_turn s1)) as Hprep.
      destruct (_prepare_for_battle shuffle (_next_turn s1)) as [s2 [e|]];
        cbn [and_then fst snd] in *; [discriminate|].
      intros _ _. apply battle_inv__new_battle_turn.
      destruct Hprep as [H|H]; [exact H|discriminate].
    + exfalso. destruct (_next_turn_phase s1) as [H|H]; congruence.
  - specialize (Hinv ltac:(discriminate)).
    assert (battle_inv (set_was_last_action_invalid (Some false) s)) as Hinv'
      by (eapply battle_inv_players; [|exact Hinv]; reflexivity).
    pose proof (battle_inv__act_on_battle action _ Hinv') as H1.
    destruct (_act_on_battle action _) as [s1 [e|]]; cbn [and_then fst] in *;
      [discriminate|].
    intros _ _. destruct (decide (atype action = PASS)); cbn [fst]; [|exact H1].
    apply battle_inv__new_battle_turn, battle_inv__next_turn, H1.
  - specialize (Hinv ltac:(discriminate)). intros _ _. cbn [fst].
    eapply battle_inv_players; [|exact Hinv]. reflexivity.
Qed.

Lemma reachable_battle_inv (s : State) :
  reachable shuffle s -> phase s <> DRAFT -> battle_inv s.
Proof.
  induction 1 as [s Hphase|s action s' Hs IH Hact]; [contradiction|].
  intros Hnd. pose proof (battle_inv_act action s IH) as H.
  rewrite Hact in H. apply H; [reflexivity|exact Hnd].
Qed.

Lemma reachable_act_all (actions : list Action) (s : State) :
  reachable shuffle s -> snd (act_all shuffle actions s) = None ->
  reachable shuffle (fst (act_all shuffle actions s)).
Proof.
  revert s. induction actions as [|a rest IH]; intros s Hs Hnone; [exact Hs|].
  cbn [act_all] in *. destruct (act shuffle a s) as [s1 [e|]] eqn:Hact;
    cbn [and_then] in *; [discriminate|].
  apply IH; [|exact Hnone]. eapply reachable_act; eauto.
Qed.

End EngineInvariant.

Lemma battle_inv_ready (s : State) :
  battle_inv s -> phase s = BATTLE -> battle_ready s.
Proof.
  intros [H1 H2 Hsome Hnodup] Hphase.
  assert (player_ok (current_player s) /\ player_ok (opposing_player s))
    as [[Hc1 Hc2 Hc3 Hc4] [Ho1 Ho2 Ho3 Ho4]].
  { unfold current_player, opposing_player.
    destruct (_current_player s); cbn; auto. }
  assert ((instance_id <$> hand (current_player s) ++ board s) ⊆+ all_ids s)
    as Hsub.
  { unfold all_ids, player_ids, board, current_player, opposing_player, lane_of.
    destruct (_current_player s); cbn; rewrite !fmap_app; solve_submseteq. }
  rewrite fmap_app in Hsub.
  split.
  - exact Hphase.
  - exact Hc1.
  - intros []; cbn; auto.
  - apply (Forall_fmap instance_id is_Some). rewrite fmap_app.
    eapply Forall_submseteq; eauto.
  - eapply NoDup_submseteq_mono; [|exact Hnodup].
    etransitivity; [|exact Hsub]. apply submseteq_inserts_r. reflexivity.
  - eapply NoDup_submseteq_mono; [|exact Hnodup].
    etransitivity; [|exact Hsub]. apply submseteq_inserts_l. reflexivity.
  - unfold board. rewrite app_assoc. apply Forall_app. split; assumption.
Qed.

(** ** The object removed from the hand *)

Lemma py_index_from_first (j0 j : nat) (self : option nat) (x e : Card)
    (l : list Card) :
  l !! j = Some e ->
  py_same self x (j0 + j) e = true ->
  (forall k e', (k < j)%nat -> l !! k = Some e' ->
     py_same self x (j0 + k) e' = false) ->
  py_index_from j0 self x l = Some (j0 + j)%nat.
Proof.
  revert j0 j. induction l as [|a l IH]; intros j0 j Hj Hsame Hbefore;
    [discriminate|].
  cbn [py_index_from]. destruct j as [|j].
  - injection Hj as ->. rewrite Nat.add_0_r in *. rewrite Hsame. reflexivity.
  - pose proof (Hbefore 0%nat a ltac:(lia) eq_refl) as H0.
    rewrite Nat.add_0_r in H0. rewrite H0.
    replace (j0 + S j)%nat with (S j0 + j)%nat in * by lia.
    apply IH; [exact Hj|exact Hsame|].
    intros k e' Hk He'. specialize (Hbefore (S k) e' ltac:(lia) He').
    replace (j0 + S k)%nat with (S j0 + k)%nat in Hbefore by lia.
    exact Hbefore.
Qed.

Lemma py_index_from_absent (j0 : nat) (self : option nat) (x : Card)
    (l : list Card) :
  (forall k e, l !! k = Some e -> py_same self x (j0 + k) e = false) ->
  py_index_from j0 self x l = None.
Proof.
  revert j0. induction l as [|a l IH]; intros j0 H; [reflexivity|].
  cbn [py_index_from]. pose proof (H 0%nat a eq_refl) as H0.
  rewrite Nat.add_0_r in H0. rewrite H0. apply IH.
  intros k e He. specialize (H (S k) e He).
  replace (j0 + S k)%nat with (S j0 + k)%nat in H by lia. exact H.
Qed.

(** The ids of the hand of the player to move and of any other container
    are among the ids of the game, each once. *)
Lemma hand_and_container_ids (s : State) (loc : Location) :
  loc <> PLAYER_HAND ->
  (instance_id <$> hand (current_player s)) ++ (instance_id <$> cards_at s loc)
    ⊆+ all_ids s.
Proof.
  intros Hloc. unfold all_ids, player_ids, cards_at, current_player,
    opposing_player, lane_of.
  destruct loc; try contradiction;
    destruct (_current_player s); cbn; solve_submseteq.
Qed.

Lemma hand_ids (s : State) :
  (instance_id <$> hand (current_player s)) ⊆+ all_ids s.
Proof.
  unfold all_ids, player_ids, current_player.
  destruct (_current_player s); cbn; solve_submseteq.
Qed.

(** [hand.remove(origin)] in a state of a game: when [origin] is a card of
    the hand of the player to move, the card deleted is [origin] itself;
    when it is any other card, nothing in the hand equals it and the call
    raises. *)
Lemma found_in_hand_is_removed (s : State) (r : CardRef) (o : Card) :
  battle_inv s -> deref s r = Some o ->
  py_index (index_in PLAYER_HAND r) o (hand (current_player s))
  = if decide (fst r = PLAYER_HAND) then Some (snd r) else None.
Proof.
  intros [_ _ Hsome Hnodup] Ho. destruct r as [loc j]. unfold deref in Ho.
  cbn [fst snd] in *. unfold index_in, py_index. cbn [fst snd].
  destruct (decide (loc = PLAYER_HAND)) as [->|Hloc].
  - cbn [cards_at] in Ho.
    assert (NoDup (instance_id <$> hand (current_player s))) as Hnd
      by (eapply NoDup_submseteq_mono; [apply hand_ids|exact Hnodup]).
    apply (py_index_from_first 0 j (Some j) o o); [exact Ho| |].
    + unfold py_same. rewrite bool_decide_eq_true_2 by reflexivity. reflexivity.
    + intros k e Hk He. unfold py_same. cbn [Nat.add].
      rewrite bool_decide_eq_false_2 by (intros [= ->]; lia). cbn [orb].
      destruct (card_eq e o) eqn:Heq; [|reflexivity]. exfalso.
      apply card_eq_true in Heq.
      assert (k = j); [|lia].
      apply (NoDup_lookup _ _ _ (instance_id o) Hnd);
        rewrite list_lookup_fmap; [rewrite He|rewrite Ho]; cbn; congruence.
  - apply py_index_from_absent. intros k e He. unfold py_same. cbn [orb].
    destruct (card_eq e o) eqn:Heq; [|reflexivity]. exfalso.
    apply card_eq_true in Heq.
    pose proof (NoDup_submseteq_mono _ _ (hand_and_container_ids s loc Hloc)
                  Hnodup) as Hnd.
    apply NoDup_app in Hnd as (_ & Hdisj & _).
    apply (Hdisj (instance_id o)).
    + apply list_elem_of_lookup. exists k. rewrite list_lookup_fmap, He.
      cbn. congruence.
    + apply list_elem_of_lookup. exists j. rewrite list_lookup_fmap, Ho.
      reflexivity.
Qed.

(** ** The mask, the legal actions and Guard in the states of a game *)

Lemma reachable_ready (shuffle : RandomState -> list Card -> list Card * RandomState)
    (s : State) :
  reachable shuffle s -> phase s = BATTLE -> battle_ready s.
Proof.
  intros Hreach Hphase. apply battle_inv_ready; [|exact Hphase].
  apply (reachable_battle_inv shuffle); [exact Hreach|congruence].
Qed.

Lemma sample_reached_reachable : reachable no_shuffle sample_reached.
Proof.
  apply reachable_act_all; [apply reachable_draft; reflexivity|].
  vm_compute. reflexivity.
Qed.

Lemma sample_reached_phase : phase sample_reached = BATTLE.
Proof. vm_compute. reflexivity. Qed.

Lemma sample_reached_items : items sample_reached = Some true.
Proof. vm_compute. reflexivity. Qed.

Lemma sample_reached_lanes :
  lanes (current_player sample_reached) = ([sample_attacker], []) /\
  lanes (opposing_player sample_reached) = ([sample_plain; sample_guard], []).
Proof. split; vm_compute; reflexivity. Qed.

(** C1 (as written, refuted): in a state reached by playing, position 0 of
    the mask is set and stands for Pass, yet Pass is not in the list of
    legal actions, which holds other actions. *)
Lemma pass_bit_counterexample :
  reachable no_shuffle sample_reached /\
  (exists mask, action_mask sample_reached = inr mask /\
                length mask = 145%nat /\ mask !! 0%nat = Some 1) /\
  canonical_action sample_reached true 0 = Some Pass /\
  Pass ∉ available_actions sample_reached.
Proof.
  split; [exact sample_reached_reachable|]. split; [|split].
  - eexists. split; [vm_compute; reflexivity|]. split; reflexivity.
  - reflexivity.
  - apply (bool_decide_unpack _). vm_compute. exact I.
Qed.

(** C1 (amended): in every battle-phase state of a game the mask has 145
    entries with items enabled and 41 with items disabled; every entry is 0
    or 1; for every position other than 0 the entry is 1 exactly when the
    canonical action of the position is in the list of legal actions of the
    same state; entry 0, the position of Pass, is always 1, while Pass is in
    the list only when it is the only legal action. *)
Theorem mask_matches_actions
    (shuffle : RandomState -> list Card -> list Card * RandomState)
    (s : State) (with_items : bool) :
  reachable shuffle s ->
  phase s = BATTLE ->
  items s = Some with_items ->
  exists mask,
    action_mask s = inr mask /\
    length mask = (if with_items then 145 else 41)%nat /\
    mask !! 0%nat = Some 1 /\
    canonical_action s with_items 0 = Some Pass /\
    (forall i, (1 <= i < length mask)%nat ->
       (mask !! i = Some 1 \/ mask !! i = Some 0) /\
       (mask !! i = Some 1 <->
        exists a, canonical_action s with_items i = Some a /\
                  a ∈ available_actions s)) /\
    (Pass ∈ available_actions s <-> available_actions s = [Pass]).
Proof.
  intros Hreach Hphase Hitems.
  apply mask_matches_actions_ready; [|exact Hitems].
  apply (reachable_ready shuffle); assumption.
Qed.

Lemma mask_matches_actions_witness :
  exists mask,
    action_mask sample_reached = inr mask /\
    length mask = 145%nat /\
    mask !! 0%nat = Some 1 /\
    (mask !! 1%nat = Some 1 <->
     exists a, canonical_action sample_reached true 1 = Some a /\
               a ∈ available_actions sample_reached).
Proof.
  destruct (mask_matches_actions no_shuffle sample_reached true
              sample_reached_reachable sample_reached_phase
              sample_reached_items)
    as (mask & H1 & H2 & H3 & _ & H4 & _).
  exists mask. repeat split; try assumption; apply (H4 1%nat); rewrite H2; lia.
Defined.

(** C2: in every battle-phase state of a game, let a creature able to attack
    stand in a lane whose opposing lane holds at least one creature with
    Guard.  Then (1) the list of legal actions has no attack of that
    creature without a target, and it has the attack on a creature of the
    opposing lane exactly when that creature has Guard; (2) in the mask the
    no-target bit of the attacker is 0 and the bit of the opposing creature
    in position [j] is 1 exactly when that creature has Guard;
    (3) [_do_attack] rejects the attack without a target and the attack on
    a creature of that lane without Guard with [MalformedActionError],
    leaving the state as it was, and carries out the attack on a creature
    with Guard. *)
Theorem guard_forces_targets
    (shuffle : RandomState -> list Card -> list Card * RandomState)
    (s : State) (with_items : bool) (lane : Lane) (i : nat) (f : Card) :
  reachable shuffle s ->
  phase s = BATTLE ->
  items s = Some with_items ->
  lane_of (current_player s) lane !! i = Some f ->
  able_to_attack f = true ->
  has_guard (lane_of (opposing_player s) lane) ->
  let o_lane := lane_of (opposing_player s) lane in
  let origin := Some (player_lane_loc lane, i) in
  ((Attack (instance_id f) None ∉ available_actions s) /\
   (forall t, t ∈ o_lane ->
      Attack (instance_id f) (instance_id t) ∈ available_actions s <->
      has_ability t "G" = true)) /\
  (exists mask,
     action_mask s = inr mask /\
     let base := (attack_base with_items + (i + lane_offset lane) * 4)%nat in
     mask !! base = Some 0 /\
     forall j, (j < 3)%nat ->
       (mask !! (base + 1 + j)%nat = Some 1 \/
        mask !! (base + 1 + j)%nat = Some 0) /\
       (mask !! (base + 1 + j)%nat = Some 1 <->
        exists g, o_lane !! j = Some g /\ has_ability g "G" = true)) /\
  _do_attack origin None s = (s, inl MalformedActionError) /\
  (forall j t, o_lane !! j = Some t ->
     if has_ability t "G"
     then exists s', _do_attack origin (Some (enemy_lane_loc lane, j)) s
                     = (s', inr tt)
     else _do_attack origin (Some (enemy_lane_loc lane, j)) s
          = (s, inl MalformedActionError)).
Proof.
  intros Hreach Hphase. apply guard_forces_targets_ready.
  apply (reachable_ready shuffle); assumption.
Qed.

Lemma guard_forces_targets_witness :
  (Attack (Some 1) None ∉ available_actions sample_reached) /\
  (Attack (Some 1) (Some 10) ∈ available_actions sample_reached) /\
  (exists mask, action_mask sample_reached = inr mask /\
                mask !! 121%nat = Some 0) /\
  _do_attack (Some (PLAYER_LEFT_LANE, 0%nat)) None sample_reached
    = (sample_reached, inl MalformedActionError) /\
  _do_attack (Some (PLAYER_LEFT_LANE, 0%nat)) (Some (ENEMY_LEFT_LANE, 0%nat))
    sample_reached = (sample_reached, inl MalformedActionError) /\
  (exists s', _do_attack (Some (PLAYER_LEFT_LANE, 0%nat))
                (Some (ENEMY_LEFT_LANE, 1%nat)) sample_reached = (s', inr tt)).
Proof.
  destruct sample_reached_lanes as [Hmine Htheirs].
  assert (lane_of (current_player sample_reached) LEFT !! 0%nat
          = Some sample_attacker) as Hf
    by (unfold lane_of; rewrite Hmine; reflexivity).
  assert (lane_of (opposing_player sample_reached) LEFT
          = [sample_plain; sample_guard]) as Ho
    by (unfold lane_of; rewrite Htheirs; reflexivity).
  assert (has_guard (lane_of (opposing_player sample_reached) LEFT)) as Hguard.
  { rewrite Ho. exists sample_guard. split; [|reflexivity]. right. left. }
  destruct (guard_forces_targets no_shuffle sample_reached true LEFT 0
              sample_attacker sample_reached_reachable sample_reached_phase
              sample_reached_items Hf eq_refl Hguard)
    as ([H1 H2] & (mask & Hmask & Hbit & _) & H3 & H4).
  split; [exact H1|]. split; [|split; [exists mask; auto|split; [exact H3|split]]].
  - apply (H2 sample_guard); [|reflexivity]. rewrite Ho. right. left.
  - apply (H4 0%nat sample_plain). rewrite Ho. reflexivity.
  - apply (H4 1%nat sample_guard). rewrite Ho. reflexivity.
Defined.
